(** * react-poker: the hand evaluator and the betting round of [TexasHoldem.tsx]

    A shallow embedding of [src/TexasHoldem.tsx] and the properties of its
    hand evaluator, its betting round and its opponent.

    - Cards, [RANKS], [SUITS], [freshDeck] and [evaluateHandRank] are
      translated statement by statement; the rank names are the strings of
      the source.
    - The [useState] cells of the component form one [State] record.  An
      event handler is a closure over the values of the render it was created
      in (its snapshot) and only queues updates: [setX(v)] replaces the cell,
      [setX(old => ...)] is applied to the latest value of the cell, and the
      queue is run when the handler has returned.  A handler is therefore a
      function from the snapshot to a list of [Update]s, and [run] applies
      the queue to the snapshot.  An updater runs once, as in a production
      build.  The component is mounted under [React.StrictMode], and a
      development build runs an updater twice: the [pop] inside the updater
      of [nextStage] then takes a second card off the deck at the turn and at
      the river.  The theorems on the deck after the flop state what holds
      for either count: the cards in play stay defined and different, and
      the deck only loses cards from its end.
    - JavaScript numbers are doubles; the model computes with exact
      rationals ([Q]).  The strengths, the random draws and their
      comparisons against 0.1, 0.25, 0.5 and 5 have the same outcome on
      doubles as on the rationals they denote, and so has every single
      addition or subtraction of a handler.  Sums are another matter: a
      double sum is rounded, so that an identity between sums of amounts
      holds in the source only where nothing is rounded.  That is the case
      for whole chips and their halves ([exactChips]), which the statements
      about sums assume, and which every run keeps in which the bets typed
      are whole ([ledger_steps], [ledger_exactChips]).  [Math.max()] of no
      argument is [-Infinity], kept as [NegInfinity].
    - [d.pop()] on an empty array is [undefined]: the hands are lists of
      [option Card], and the evaluator, which throws on [undefined.rank],
      returns an [option].
    - [Math.random()] is injected: the handlers take the successive draws as
      an argument, [freshDeck] the index [j] computed at each iteration.
    - Of the render, the parts that compute are kept: the colour rule of
      [CardView], the [hidden] flags of [Hand], the two rank labels and the
      stages at which each button is shown ([offered]).

    The file has the program first, then the notions and the concrete inputs
    of the statements, then the lemmas and the theorems. *)

From Stdlib Require Import QArith Qminmax Lqa.
From stdpp Require Import base decidable list strings sorting.
From Stdlib Require Import ZArith Lia.

Set Default Proof Using "Type".
Open Scope Z_scope.

(** * The program *)

(** ** Cards *)

Inductive Suit := Spade | Heart | Diamond | Club.

Inductive Rank :=
  R2 | R3 | R4 | R5 | R6 | R7 | R8 | R9 | R10 | RJ | RQ | RK | RA.

#[global] Instance Suit_eq_dec : EqDecision Suit.
Proof. solve_decision. Defined.

#[global] Instance Rank_eq_dec : EqDecision Rank.
Proof. solve_decision. Defined.

Definition SUITS : list Suit := [Spade; Heart; Diamond; Club].

Definition RANKS : list Rank :=
  [R2; R3; R4; R5; R6; R7; R8; R9; R10; RJ; RQ; RK; RA].

Record Card := mkCard { rank : Rank; suit : Suit }.

#[global] Instance Card_eq_dec : EqDecision Card.
Proof. solve_decision. Defined.

(** ** Array helpers of the JavaScript runtime *)

(** [arr.indexOf(x)]: the first position of [x], or [-1]. *)
Fixpoint indexOfFrom {A} `{EqDecision A} (i : Z) (arr : list A) (x : A) : Z :=
  match arr with
  | [] => -1
  | y :: arr' => if decide (y = x) then i else indexOfFrom (i + 1) arr' x
  end.

Definition indexOf {A} `{EqDecision A} (arr : list A) (x : A) : Z :=
  indexOfFrom 0 arr x.

(** [arr.sort((a, b) => a - b)] on numbers: ascending order. *)
Fixpoint insertAsc (v : Z) (arr : list Z) : list Z :=
  match arr with
  | [] => [v]
  | w :: arr' => if v <? w then v :: w :: arr' else w :: insertAsc v arr'
  end.

Fixpoint sortAsc (arr : list Z) : list Z :=
  match arr with
  | [] => []
  | v :: arr' => insertAsc v (sortAsc arr')
  end.

(** The [reduce] that counts occurrences into a fresh object:
    [acc[k] = (acc[k] || 0) + 1].  The object is kept as an association list
    in the order in which the keys were first written, which is the order
    [Object.values] lists them in (the number keys of [counts] are written in
    ascending order because [ranks] is sorted). *)
Fixpoint bump {K} `{EqDecision K} (k : K) (acc : list (K * nat)) : list (K * nat) :=
  match acc with
  | [] => [(k, 1%nat)]
  | (k', n) :: acc' =>
      if decide (k' = k) then (k', S n) :: acc' else (k', n) :: bump k acc'
  end.

Definition tally {K} `{EqDecision K} (keys : list K) : list (K * nat) :=
  fold_left (fun acc k => bump k acc) keys [].

Definition objectValues {K} (obj : list (K * nat)) : list nat := map snd obj.

(** [[...new Set(arr)]]: the distinct elements in order of first occurrence. *)
Definition setOf (arr : list Z) : list Z :=
  fold_left (fun seen v => if decide (v ∈ seen) then seen else seen ++ [v]) arr [].

(** [arr.slice(-n)]: the last [n] elements (the whole array when shorter). *)
Definition sliceLast {A} (n : nat) (arr : list A) : list A :=
  drop (length arr - n) arr.

(** [arr.every((v, i, arr) => p)]. *)
Definition every {A} (p : A -> nat -> list A -> bool) (arr : list A) : bool :=
  forallb (fun iv => p (snd iv) (fst iv) arr) (imap pair arr).

(** [arr.includes(x)]. *)
Definition includes {A} `{EqDecision A} (arr : list A) (x : A) : bool :=
  bool_decide (x ∈ arr).

(** ** Numbers that may be [-Infinity] *)

Inductive Number := NegInfinity | Finite (q : Q).

(** [Math.max(...arr)]. *)
Definition mathMax (arr : list Z) : Number :=
  match arr with
  | [] => NegInfinity
  | v :: arr' => Finite (inject_Z (fold_left Z.max arr' v))
  end.

Definition numDiv (a : Number) (d : Q) : Number :=
  match a with NegInfinity => NegInfinity | Finite q => Finite (q / d) end.

Definition numAdd (a : Q) (b : Number) : Number :=
  match b with NegInfinity => NegInfinity | Finite q => Finite (a + q) end.

(** [a < b] on numbers. *)
Definition numLt (a b : Number) : Prop :=
  match a, b with
  | _, NegInfinity => False
  | NegInfinity, Finite _ => True
  | Finite x, Finite y => (x < y)%Q
  end.

Definition Qltb (x y : Q) : bool := negb (Qle_bool y x).

Definition numLtb (a b : Number) : bool :=
  match a, b with
  | _, NegInfinity => false
  | NegInfinity, Finite _ => true
  | Finite x, Finite y => Qltb x y
  end.

(** ** The hand evaluator *)

Record HandEval := mkEval { rankName : string; strength : Number }.

Definition rankOrder : list string :=
  [ "High Card"; "One Pair"; "Two Pairs"; "Triple"; "Straight"; "Flush";
    "Full-House"; "Four Card"; "Straight Flush"; "Royale Straight Flush" ]%string.

Definition rankValue (c : Card) : Z := indexOf RANKS (rank c) + 2.

Definition ranksOf (cards : list Card) : list Z := sortAsc (map rankValue cards).

Definition flushOf (cards : list Card) : bool :=
  existsb (fun count => (5 <=? count)%nat) (objectValues (tally (map suit cards))).

Definition uniqueRanksOf (cards : list Card) : list Z := setOf (ranksOf cards).

Definition consecutive (v : Z) (i : nat) (arr : list Z) : bool :=
  (i =? 0)%nat ||
  match arr !! (i - 1)%nat with
  | Some w => v =? w + 1
  | None => false
  end.

Definition straightOf (cards : list Card) : bool :=
  (5 <=? length (uniqueRanksOf cards))%nat &&
  every consecutive (sliceLast 5 (uniqueRanksOf cards)).

Definition classify (cards : list Card) : string :=
  let ranks := ranksOf cards in
  let values := objectValues (tally ranks) in
  let flush := flushOf cards in
  let straight := straightOf cards in
  if straight && flush && includes ranks 14 then "Royale Straight Flush"
  else if straight && flush then "Straight Flush"
  else if includes values 4%nat then "Four Cards"
  else if includes values 3%nat && includes values 2%nat then "Full-House"
  else if flush then "Flush"
  else if straight then "Straight"
  else if includes values 3%nat then "Triple"
  else if (length (filter (fun v => v = 2%nat) values) =? 2)%nat then "Two Pairs"
  else if includes values 2%nat then "One Pair"
  else "High Card".

Definition evaluateHandRank (cards : list Card) : HandEval :=
  let name := classify cards in
  let base := indexOf rankOrder name in
  let kicker := numDiv (mathMax (ranksOf cards)) 100 in
  mkEval name (numAdd (inject_Z base) kicker).

(** ** The deck *)

(** The two nested [for ... of] loops of [freshDeck]. *)
Definition orderedDeck : list Card :=
  flat_map (fun s => map (fun r => mkCard r s) RANKS) SUITS.

(** [[deck[i], deck[j]] = [deck[j], deck[i]]].  Both indices are within the
    array in every iteration of the shuffle; the model leaves the array as
    it is otherwise. *)
Definition swap {A} (i j : nat) (arr : list A) : list A :=
  match arr !! i, arr !! j with
  | Some x, Some y => <[j := x]> (<[i := y]> arr)
  | _, _ => arr
  end.

(** The shuffle loop, [for (let i = deck.length - 1; i > 0; i--)];
    [draw i] is the value of [Math.floor(Math.random() * (i + 1))] at
    iteration [i], which lies in [0..i]. *)
Fixpoint shuffleFrom (draw : nat -> nat) (i : nat) (deck : list Card) : list Card :=
  match i with
  | O => deck
  | S i' => shuffleFrom draw i' (swap i (draw i) deck)
  end.

Definition freshDeck (draw : nat -> nat) : list Card :=
  shuffleFrom draw (length orderedDeck - 1) orderedDeck.

(** [Math.floor(Math.random() * (i + 1))] is at most [i]. *)
Definition validDraw (draw : nat -> nat) : Prop := forall i, (draw i <= i)%nat.

(** An element of a [Card[]] at run time: [d.pop()!] on an empty array is
    [undefined], here [None]. *)
Definition Slot := option Card.

(** [d.pop()]: the last element and the array without it. *)
Definition pop (d : list Card) : Slot * list Card := (last d, removelast d).

(** Reading [c.rank] of an [undefined] card throws a [TypeError]: the
    evaluator returns only when every card is defined. *)
Fixpoint definedCards (slots : list Slot) : option (list Card) :=
  match slots with
  | [] => Some []
  | Some c :: slots' => cons c <$> definedCards slots'
  | None :: _ => None
  end.

Definition evaluateSlots (slots : list Slot) : option HandEval :=
  evaluateHandRank <$> definedCards slots.

(** ** The component state *)

Open Scope Q_scope.

(** The four values [stage] ever takes. *)
Inductive Stage := ready | playing | showdown | folded.

#[global] Instance Stage_eq_dec : EqDecision Stage.
Proof. solve_decision. Defined.

(** The texts [message] is set to; a template literal keeps the value it
    interpolates. *)
Inductive Message :=
| MsgEmpty
| MsgGameOver
| MsgYouWin (r : string)
| MsgCpuWins (r : string)
| MsgDraw (r : string)
| MsgCpuCalls
| MsgCpuCantAfford
| MsgCpuFolds
| MsgCpuBluffs
| MsgCpuRaises
| MsgCpuChecks
| MsgYouCheck
| MsgYouRaise (amount : Q)
| MsgYouFold.

Record State := mkState {
  deck : list Card;
  player : list Slot;
  cpu : list Slot;
  community : list Slot;
  message : Message;
  stage : Stage;
  playerChips : Q;
  cpuChips : Q;
  pot : Q;
  bet : Q
}.

(** A queued state update.  [setX(v)] is the constant updater. *)
Inductive Update :=
| SetDeck (v : list Card)
| SetPlayer (v : list Slot)
| SetCpu (v : list Slot)
| SetCommunity (f : list Slot -> list Slot)
| SetMessage (v : Message)
| SetStage (v : Stage)
| SetPlayerChips (f : Q -> Q)
| SetCpuChips (f : Q -> Q)
| SetPot (f : Q -> Q)
| SetBet (v : Q).

Definition applyUpdate (s : State) (u : Update) : State :=
  match u with
  | SetDeck v =>
      mkState v (player s) (cpu s) (community s) (message s) (stage s)
              (playerChips s) (cpuChips s) (pot s) (bet s)
  | SetPlayer v =>
      mkState (deck s) v (cpu s) (community s) (message s) (stage s)
              (playerChips s) (cpuChips s) (pot s) (bet s)
  | SetCpu v =>
      mkState (deck s) (player s) v (community s) (message s) (stage s)
              (playerChips s) (cpuChips s) (pot s) (bet s)
  | SetCommunity f =>
      mkState (deck s) (player s) (cpu s) (f (community s)) (message s) (stage s)
              (playerChips s) (cpuChips s) (pot s) (bet s)
  | SetMessage v =>
      mkState (deck s) (player s) (cpu s) (community s) v (stage s)
              (playerChips s) (cpuChips s) (pot s) (bet s)
  | SetStage v =>
      mkState (deck s) (player s) (cpu s) (community s) (message s) v
              (playerChips s) (cpuChips s) (pot s) (bet s)
  | SetPlayerChips f =>
      mkState (deck s) (player s) (cpu s) (community s) (message s) (stage s)
              (f (playerChips s)) (cpuChips s) (pot s) (bet s)
  | SetCpuChips f =>
      mkState (deck s) (player s) (cpu s) (community s) (message s) (stage s)
              (playerChips s) (f (cpuChips s)) (pot s) (bet s)
  | SetPot f =>
      mkState (deck s) (player s) (cpu s) (community s) (message s) (stage s)
              (playerChips s) (cpuChips s) (f (pot s)) (bet s)
  | SetBet v =>
      mkState (deck s) (player s) (cpu s) (community s) (message s) (stage s)
              (playerChips s) (cpuChips s) (pot s) v
  end.

(** The render after a handler: the queue applied, in order, to the state the
    handler closed over. *)
Definition run (queue : list Update) (s : State) : State :=
  fold_left applyUpdate queue s.

(** The [useState] initial values. *)
Definition initialState (draw : nat -> nat) : State :=
  mkState (freshDeck draw) [] [] [] MsgEmpty ready 1000 1000 0 50.

(** ** The handlers

    Each takes the snapshot [s] its closure reads and returns its queue. *)

Definition deal (s : State) : list Update :=
  if Qle_bool (playerChips s) 0 || Qle_bool (cpuChips s) 0
  then [SetMessage MsgGameOver]
  else
    let d := deck s in
    let '(p1, d) := pop d in
    let '(p2, d) := pop d in
    let playerHand := [p1; p2] in
    let '(c1, d) := pop d in
    let '(c2, d) := pop d in
    let cpuHand := [c1; c2] in
    let initBet := Qmin (Qmin (bet s) (playerChips s)) (cpuChips s) in
    [ SetPlayer playerHand; SetCpu cpuHand; SetDeck d;
      SetCommunity (fun _ => []); SetMessage MsgEmpty; SetStage playing;
      SetPot (fun _ => initBet * 2);
      SetPlayerChips (fun c => c - initBet);
      SetCpuChips (fun c => c - initBet) ].

Definition evaluateWinner (s : State) : list Update :=
  match evaluateSlots (player s ++ community s) with
  | None => []
  | Some playerEval =>
      match evaluateSlots (cpu s ++ community s) with
      | None => []
      | Some cpuEval =>
          (if numLtb (strength cpuEval) (strength playerEval)
           then [ SetMessage (MsgYouWin (rankName playerEval));
                  SetPlayerChips (fun c => c + pot s) ]
           else if numLtb (strength playerEval) (strength cpuEval)
           then [ SetMessage (MsgCpuWins (rankName cpuEval));
                  SetCpuChips (fun c => c + pot s) ]
           else [ SetMessage (MsgDraw (rankName playerEval));
                  SetPlayerChips (fun c => c + pot s / 2);
                  SetCpuChips (fun c => c + pot s / 2) ])
          ++ [SetStage showdown]
      end
  end.

(** In the turn and river branch the [pop] runs inside the updater, on the
    array that [setDeck(d)] stores: the deck of the next render has lost
    that card. *)
Definition nextStage (s : State) : list Update :=
  let d := deck s in
  if (length (community s) <? 3)%nat then
    let '(f1, d) := pop d in
    let '(f2, d) := pop d in
    let '(f3, d) := pop d in
    [SetCommunity (fun _ => [f1; f2; f3]); SetDeck d]
  else if (length (community s) <? 5)%nat then
    let '(t, d) := pop d in
    [SetCommunity (fun prev => prev ++ [t]); SetDeck d]
  else evaluateWinner s.

Definition reset (s : State) (draw : nat -> nat) : list Update :=
  [ SetDeck (freshDeck draw); SetPlayer []; SetCpu []; SetCommunity (fun _ => []);
    SetMessage MsgEmpty; SetStage ready; SetPot (fun _ => 0) ].

(** [random n] is the value of the [n]-th call of [Math.random()] made
    while the handler runs; the second call is made only when the first value
    is at least 0.1 and [strength > 5]. *)
Definition cpuDecision (s : State) (playerRaised : bool) (raiseAmount : Q)
    (random : nat -> Q) : list Update :=
  match evaluateSlots (cpu s ++ community s) with
  | None => []
  | Some cpuEval =>
      let strength := strength cpuEval in
      let bluffChance := random 0%nat in
      if playerRaised then
        if numLtb (Finite 5) strength || Qltb bluffChance (25 # 100) then
          if Qle_bool raiseAmount (cpuChips s) then
            [ SetCpuChips (fun c => c - raiseAmount);
              SetPot (fun p => p + raiseAmount);
              SetMessage MsgCpuCalls ] ++ nextStage s
          else
            [ SetMessage MsgCpuCantAfford;
              SetPlayerChips (fun c => c + pot s + raiseAmount);
              SetStage folded ]
        else
          [ SetMessage MsgCpuFolds;
            SetPlayerChips (fun c => c + pot s + raiseAmount);
            SetStage folded ]
      else
        (if Qltb bluffChance (1 # 10) then
           [ SetCpuChips (fun c => c - bet s);
             SetPot (fun p => p + bet s);
             SetMessage MsgCpuBluffs ]
         else if numLtb (Finite 5) strength && Qltb (random 1%nat) (1 # 2) then
           [ SetCpuChips (fun c => c - bet s);
             SetPot (fun p => p + bet s);
             SetMessage MsgCpuRaises ]
         else [SetMessage MsgCpuChecks])
        ++ nextStage s
  end.

Definition handleCheck (s : State) (random : nat -> Q) : list Update :=
  if decide (stage s = playing)
  then SetMessage MsgYouCheck :: cpuDecision s false (bet s) random
  else [].

Definition handleRaise (s : State) (random : nat -> Q) : list Update :=
  if bool_decide (stage s = playing) && Qle_bool (bet s) (playerChips s) then
    let raiseAmount := bet s in
    [ SetPlayerChips (fun c => c - raiseAmount);
      SetPot (fun p => p + raiseAmount);
      SetMessage (MsgYouRaise raiseAmount) ]
    ++ cpuDecision s true raiseAmount random
  else [].

Definition handleFold (s : State) : list Update :=
  [ SetMessage MsgYouFold; SetCpuChips (fun c => c + pot s); SetStage folded ].

(** The bet input's [onChange]. *)
Definition changeBet (s : State) (v : Q) : list Update := [SetBet v].

(** ** What the component renders

    The parts of the JSX that compute something from the state. *)

(** [CardView]: hearts and diamonds are printed in red. *)
Definition red (c : Card) : bool :=
  bool_decide (suit c = Heart) || bool_decide (suit c = Diamond).

(** [Hand]: the [hidden] flag given to the card at each index,
    [hideCpu && i < cards.length]. *)
Definition handHidden (cards : list Slot) (hideCpu : bool) : list bool :=
  imap (fun i _ => hideCpu && (i <? length cards)%nat) cards.

Definition showPlayerRank (s : State) : bool :=
  bool_decide (stage s = playing) || bool_decide (stage s = showdown).

(** The flags of the two hands: the player's [Hand] leaves [hideCpu] at its
    default, the opponent's is given [stage !== "showdown"]. *)
Definition playerHidden (s : State) : list bool := handHidden (player s) false.

Definition cpuHidden (s : State) : list bool :=
  handHidden (cpu s) (negb (bool_decide (stage s = showdown))).

(** The rank printed after a name, when one is printed.  The outer [option]
    is [None] when the evaluator throws during the render. *)
Definition playerRankLabel (s : State) : option (option string) :=
  if showPlayerRank s
  then (fun e => Some (rankName e)) <$> evaluateSlots (player s ++ community s)
  else Some None.

Definition cpuRankLabel (s : State) : option (option string) :=
  if bool_decide (stage s = showdown)
  then (fun e => Some (rankName e)) <$> evaluateSlots (cpu s ++ community s)
  else Some None.

(** ** The round as a transition system

    What the user does, a button pressed or a bet typed, with the random
    values the handler consumes. *)
Inductive Action :=
| PressDeal
| PressCheck (random : nat -> Q)
| PressRaise (random : nat -> Q)
| PressFold
| PressReset (draw : nat -> nat)
| TypeBet (v : Q).

Definition handler (s : State) (a : Action) : list Update :=
  match a with
  | PressDeal => deal s
  | PressCheck random => handleCheck s random
  | PressRaise random => handleRaise s random
  | PressFold => handleFold s
  | PressReset draw => reset s draw
  | TypeBet v => changeBet s v
  end.

Definition step (s : State) (a : Action) : State := run (handler s a) s.

(** [Math.random()] returns a value in [0, 1). *)
Definition validRandom (random : nat -> Q) : Prop := forall n, 0 <= random n < 1.

(** The controls the component renders at each stage: the Deal button when
    ready; the Check button, the bet input, the Raise and the Fold button when
    playing; the Reset button at showdown and after a fold. *)
Definition offered (s : State) (a : Action) : Prop :=
  match a with
  | PressDeal => stage s = ready
  | PressCheck random | PressRaise random => stage s = playing /\ validRandom random
  | PressFold | TypeBet _ => stage s = playing
  | PressReset draw => (stage s = showdown \/ stage s = folded) /\ validDraw draw
  end.

Inductive reachable : State -> Prop :=
| reachable_initial draw :
    validDraw draw -> reachable (initialState draw)
| reachable_step s a :
    reachable s -> offered s a -> reachable (step s a).

Definition steps (s : State) (actions : list Action) : State :=
  fold_left step actions s.

(** Every action of the list is offered in the state it is taken in. *)
Fixpoint offeredAll (s : State) (actions : list Action) : Prop :=
  match actions with
  | [] => True
  | a :: actions' => offered s a /\ offeredAll (step s a) actions'
  end.

(** * Notions used in the statements *)

(** The chips in play. *)
Definition total (s : State) : Q := playerChips s + cpuChips s + pot s.

(** Whole chips.  The amounts of the source are doubles, and a sum of doubles
    is rounded when it is not a double itself: typing a bet of 0.14 makes
    950 - 0.14 + 100 + 0.14 come out as 1050.0000000000002.  An amount of
    whole chips, or of whole chips and a half (what the split of an odd pot
    leaves), of magnitude at most [b] is a double, and so is every sum,
    difference, double and half of such amounts that a handler computes, as
    long as [b] stays far below 2^52: there the source computes what the
    rationals of the model do.  The statements that add amounts up are made
    for such amounts, with [b] = 2^40. *)
Definition wholeWithin (b : Z) (q : Q) : Prop :=
  exists n : Z, q == inject_Z n /\ (Z.abs n <= b)%Z.

Definition halvesWithin (b : Z) (q : Q) : Prop :=
  exists n : Z, q == inject_Z n / 2 /\ (Z.abs n <= 2 * b)%Z.

(** The stacks are whole or half chips, the pot and the bet unit whole
    chips. *)
Definition chipsWithin (b : Z) (s : State) : Prop :=
  halvesWithin b (playerChips s) /\ halvesWithin b (cpuChips s) /\
  wholeWithin b (pot s) /\ wholeWithin b (bet s).

Definition exactChips (s : State) : Prop := chipsWithin (2 ^ 40) s.

(** A typed bet is a whole number of chips, from 0 to 2^32. *)
Definition wholeBet (a : Action) : Prop :=
  match a with
  | TypeBet v => exists n : Z, v == inject_Z n /\ (0 <= n <= 2 ^ 32)%Z
  | _ => True
  end.

(** What holds of the cards while a round is played: both hands hold two
    cards, the board none, three, four or five, and together with the deck
    they are the 52 cards. *)
Definition dealt (s : State) : Prop :=
  exists ph ch cm : list Card,
    player s = Some <$> ph /\ cpu s = Some <$> ch /\ community s = Some <$> cm /\
    length ph = 2%nat /\ length ch = 2%nat /\
    (length cm = 0 \/ length cm = 3 \/ length cm = 4 \/ length cm = 5)%nat /\
    deck s ++ ph ++ ch ++ cm ≡ₚ orderedDeck.

(** The invariant of the reachable states: when ready, the deck is a fresh
    one and the pot and the board are empty; when playing, the cards are
    [dealt]. *)
Definition roundInv (s : State) : Prop :=
  match stage s with
  | ready =>
      (exists draw, validDraw draw /\ deck s = freshDeck draw) /\
      pot s = 0 /\ community s = []
  | playing => dealt s
  | showdown | folded => True
  end.

(** A deck after four [pop]s. *)
Definition hasFour (d : list Card) (p1 p2 c1 c2 : Card) (rest : list Card) : Prop :=
  d = rest ++ [c2; c1; p2; p1].

(** A settlement that pays the whole pot to the stacks and empties it. *)
Definition settledFrom (s s' : State) : Prop :=
  playerChips s' + cpuChips s' == playerChips s + cpuChips s + pot s /\ pot s' == 0.

(** The opponent answers a check by checking: the first draw is at least 0.1,
    and the hand is no stronger than 5 or the second draw is at least 0.5. *)
Definition checksBack (cpuEval : HandEval) (random : nat -> Q) : Prop :=
  ~ random 0%nat < 1 # 10 /\
  ~ (numLt (Finite 5) (strength cpuEval) /\ random 1%nat < 1 # 2).

(** The evaluator fails exactly on hands that are short or repeat a card;
    the opponent's decision never hands it fewer than 5 cards. *)
Definition failsOnShortOrRepeated : Prop :=
  forall hand : list Card,
    evaluateSlots (Some <$> hand) = None <-> (length hand < 5)%nat \/ ~ NoDup hand.

Definition neverEvaluatesShort : Prop :=
  forall s, reachable s -> stage s = playing ->
    (5 <= length (cpu s ++ community s))%nat.

(** The deal and the two betting actions. *)
Definition bettingStep (a : Action) : Prop :=
  match a with
  | PressDeal | PressCheck _ | PressRaise _ => True
  | PressFold | PressReset _ | TypeBet _ => False
  end.

(** The actions of the playing stage that keep the round going. *)
Definition playingStep (a : Action) : Prop :=
  match a with
  | PressCheck _ | PressRaise _ | TypeBet _ => True
  | PressDeal | PressFold | PressReset _ => False
  end.

(** The opponent's hand is strong enough or the draw low enough, and the
    opponent can pay the raise. *)
Definition callsRaise (s : State) (cpuEval : HandEval) (random : nat -> Q) : Prop :=
  (numLt (Finite 5) (strength cpuEval) \/ random 0%nat < 25 # 100) /\
  bet s <= cpuChips s.


(** A straight flush of poker: five cards of one suit whose rank values
    ascend by one, the ace counting as 14 or as 1. *)
Definition sameSuit (hand : list Card) : Prop :=
  Exists (fun st => Forall (fun c => suit c = st) hand) SUITS.

Definition holdsValue (hand : list Card) (v : Z) : Prop :=
  v ∈ map rankValue hand \/ (v = 1%Z /\ 14%Z ∈ map rankValue hand).

Definition inSequence (hand : list Card) : Prop :=
  Exists (fun low => Forall (fun k => holdsValue hand (low + k)%Z) [0; 1; 2; 3; 4]%Z)
         (seqZ 1 10).

Definition straightFlushHand (hand : list Card) : Prop :=
  length hand = 5%nat /\ sameSuit hand /\ inSequence hand.

#[global] Instance straightFlushHand_dec hand : Decision (straightFlushHand hand).
Proof. unfold straightFlushHand, sameSuit, inSequence, holdsValue. apply _. Defined.

(** All the subsequences of a list. *)
Fixpoint sublists {A} (l : list A) : list (list A) :=
  match l with
  | [] => [[]]
  | x :: l' => map (cons x) (sublists l') ++ sublists l'
  end.

(** No five cards taken from the input, in any order, are a straight flush. *)
Definition noStraightFlushIn (cards : list Card) : Prop :=
  forall hand, hand ⊆+ cards -> ~ straightFlushHand hand.

(** * Concrete hands, draws and states *)

(** The draws [j = i]: every swap of the shuffle leaves the deck in place. *)
Definition unshuffled : nat -> nat := fun i => i.

(** The draws [j = 0]: every iteration swaps its card with the first one. *)
Definition cutting : nat -> nat := fun _ => 0%nat.

(** Random values for which the opponent never bluffs, and always does. *)
Definition neverBluff : nat -> Q := fun _ => 9 # 10.
Definition alwaysBluff : nat -> Q := fun _ => 0.

(** The state after the first deal of a session. *)
Definition firstDeal : State := steps (initialState unshuffled) [PressDeal].

(** The ready state of the second round, after a first round that the player
    folded and a reset whose shuffle drew [cutting]. *)
Definition redealt : State :=
  steps (initialState unshuffled) [PressDeal; PressFold; PressReset cutting].

(** The river of the round that is checked down: five community cards, the
    player holds a flush to the ace, the opponent a straight flush to the
    queen. *)
Definition river : State :=
  steps (initialState unshuffled)
        [PressDeal; PressCheck neverBluff; PressCheck neverBluff; PressCheck neverBluff].

(** The state at the showdown of a round in which everybody checked. *)
Definition checkedDown : State :=
  steps (initialState unshuffled)
        [PressDeal; PressCheck neverBluff; PressCheck neverBluff; PressCheck neverBluff;
         PressCheck neverBluff].

(** The player wins the first round by a raise the opponent folds to, deals
    again and sets the bet unit to 1000, all of the player's stack. *)
Definition outspent : State :=
  steps (initialState unshuffled)
        [PressDeal; PressRaise neverBluff; PressReset unshuffled; PressDeal; TypeBet 1000].


(** At the first deal of the unshuffled deck the player holds the ace and
    king of clubs, the opponent the queen and the jack. *)
Definition aceHigh : HandEval := mkEval "High Card" (Finite (14 # 100)).
Definition queenHigh : HandEval := mkEval "High Card" (Finite (12 # 100)).

(** The two hands at the river of the unshuffled deck. *)
Definition aceFlush : HandEval := mkEval "Flush" (Finite (514 # 100)).
Definition queenStraightFlush : HandEval := mkEval "Straight Flush" (Finite (812 # 100)).

(** Four of a kind; a hand with no pair, straight or flush; the wheel in
    four suits; two straight flushes. *)
Definition fourTwos : list Card :=
  [mkCard R2 Spade; mkCard R2 Heart; mkCard R2 Diamond; mkCard R2 Club; mkCard R3 Spade].

Definition tenHigh : list Card :=
  [mkCard R2 Heart; mkCard R4 Spade; mkCard R6 Diamond; mkCard R8 Club; mkCard R10 Spade].

Definition wheel : list Card :=
  [mkCard RA Spade; mkCard R2 Heart; mkCard R3 Diamond; mkCard R4 Club; mkCard R5 Spade].

Definition royalSpades : list Card :=
  [mkCard R10 Spade; mkCard RJ Spade; mkCard RQ Spade; mkCard RK Spade; mkCard RA Spade].

Definition steelWheel : list Card :=
  [mkCard RA Club; mkCard R2 Club; mkCard R3 Club; mkCard R4 Club; mkCard R5 Club].

(** Ten of hearts with the jack, queen, king, ace and two of spades. *)
Definition brokenRoyal : list Card :=
  [mkCard R10 Heart; mkCard RJ Spade; mkCard RQ Spade; mkCard RK Spade;
   mkCard RA Spade; mkCard R2 Spade].

(** Nine of hearts with the ten, jack, queen, king, two and three of spades. *)
Definition brokenStraightFlush : list Card :=
  [mkCard R9 Heart; mkCard R10 Spade; mkCard RJ Spade; mkCard RQ Spade;
   mkCard RK Spade; mkCard R2 Spade; mkCard R3 Spade].

(** * Notions used in the further properties *)

(** How often a key occurs in a list. *)
Definition occurrences {K} `{EqDecision K} (k : K) (keys : list K) : nat :=
  length (filter (fun x => x = k) keys).

(** The keys of a list in the order in which they first occur. *)
Definition firstSeen {K} `{EqDecision K} (keys : list K) : list K :=
  fold_left (fun seen v => if decide (v ∈ seen) then seen else seen ++ [v]) keys [].

(** How many cards of a hand have a rank value, and how many a suit. *)
Definition rankCount (v : Z) (cards : list Card) : nat :=
  occurrences v (map rankValue cards).

Definition suitCount (st : Suit) (cards : list Card) : nat :=
  occurrences st (map suit cards).

(** Seven cards that hold two different rank values three times each. *)
Definition twoTriples : list Card :=
  [mkCard R9 Spade; mkCard R9 Heart; mkCard R9 Diamond;
   mkCard R5 Spade; mkCard R5 Heart; mkCard R5 Club; mkCard RK Diamond].

(** Seven cards that hold three different rank values twice each. *)
Definition threePairs : list Card :=
  [mkCard R9 Spade; mkCard R9 Heart; mkCard R5 Diamond; mkCard R5 Spade;
   mkCard RJ Heart; mkCard RJ Club; mkCard RK Diamond].

(** The [n] values that end at [m], ascending by one. *)
Fixpoint runTo (m : Z) (n : nat) : list Z :=
  match n with
  | O => []
  | S n' => (m - Z.of_nat n')%Z :: runTo m n'
  end.

(** A ready state in which a stack is empty. *)
Definition bankrupt : State :=
  mkState (freshDeck unshuffled) [] [] [] MsgEmpty ready 0 2000 0 50.

(** A queue that changes neither the deck, nor a hand, nor the board, nor
    the bet unit. *)
Definition keepsCards (queue : list Update) : Prop :=
  forall s0,
    deck (run queue s0) = deck s0 /\ player (run queue s0) = player s0 /\
    cpu (run queue s0) = cpu s0 /\ community (run queue s0) = community s0 /\
    bet (run queue s0) = bet s0.

(** The stage an action can lead to from a stage. *)
Definition leadsTo (a : Action) (from to : Stage) : Prop :=
  match a with
  | PressDeal => from = ready /\ (to = ready \/ to = playing)
  | PressCheck _ => from = playing /\ (to = playing \/ to = showdown)
  | PressRaise _ => from = playing /\ (to = playing \/ to = showdown \/ to = folded)
  | PressFold => from = playing /\ to = folded
  | PressReset _ => (from = showdown \/ from = folded) /\ to = ready
  | TypeBet _ => from = playing /\ to = playing
  end.

(** Two states with the same deck, hands and board. *)
Definition sameCards (s s' : State) : Prop :=
  deck s' = deck s /\ player s' = player s /\ cpu s' = cpu s /\
  community s' = community s.

(** The message a showdown leaves, from the two evaluations. *)
Definition showdownMessage (pe ce : HandEval) : Message :=
  if numLtb (strength ce) (strength pe) then MsgYouWin (rankName pe)
  else if numLtb (strength pe) (strength ce) then MsgCpuWins (rankName ce)
  else MsgDraw (rankName pe).

(** What holds of the cards once a round is dealt, until the reset: they are
    the cards of a round, and at the showdown the board is full and the
    message is that of the two hands. *)
Definition cardsInv (s : State) : Prop :=
  stage s <> ready ->
  dealt s /\
  (stage s = showdown ->
     length (community s) = 5%nat /\
     exists pe ce,
       evaluateSlots (player s ++ community s) = Some pe /\
       evaluateSlots (cpu s ++ community s) = Some ce /\
       message s = showdownMessage pe ce).

(** A typed bet that is not negative. *)
Definition nonnegBet (a : Action) : Prop :=
  match a with
  | TypeBet v => 0 <= v
  | _ => True
  end.

(** The player's stack, the pot and the bet unit are not negative. *)
Definition solvent (s : State) : Prop :=
  0 <= playerChips s /\ 0 <= pot s /\ 0 <= bet s.

(** The chips of the two stacks are at most the 2000 the game starts with,
    and so are the stacks with the pot while a round is played; the bet unit
    is not negative. *)
Definition bounded (s : State) : Prop :=
  0 <= bet s /\ playerChips s + cpuChips s <= 2000 /\
  (stage s = playing -> total s <= 2000).

(** An amount of whole chips; an amount of whole chips, or of whole chips and
    a half. *)
Definition wholeAmount (q : Q) : Prop := exists n : Z, q == inject_Z n.

Definition halfAmount (q : Q) : Prop := exists n : Z, q == inject_Z n / 2.

(** The greatest bet [wholeBet] lets the user type, 2^32. *)
Definition betLimit : Q := 4294967296.

(** How many times the opponent has answered since the deal: the board tells,
    one answer reveals the flop, one the turn and one the river. *)
Definition betsSeen (s : State) : Q :=
  if (length (community s) <? 3)%nat then 0
  else if (length (community s) <? 4)%nat then 1
  else if (length (community s) <? 5)%nat then 2
  else 3.

(** The amounts are whole or half chips, and the opponent's stack and the
    pot are limited by the bets made so far: each answer of the opponent
    costs its stack one bet unit at most. *)
Definition tidy (s : State) : Prop :=
  halfAmount (playerChips s) /\ halfAmount (cpuChips s) /\
  wholeAmount (pot s) /\ wholeAmount (bet s) /\
  bet s <= betLimit /\
  (stage s = playing -> - (betsSeen s * betLimit) <= cpuChips s) /\
  (stage s <> playing -> - (4 * betLimit) <= cpuChips s /\ pot s <= 2000 + 6 * betLimit).

(** What the runs of whole bets keep. *)
Definition ledger (s : State) : Prop := solvent s /\ bounded s /\ tidy s.

(** * Facts about the runtime helpers *)

Lemma pop_snoc (d : list Card) (c : Card) : pop (d ++ [c]) = (Some c, d).
Proof. unfold pop. by rewrite last_snoc, removelast_last. Qed.

Lemma snoc_of_length {A} (l : list A) (n : nat) :
  length l = S n -> exists l' x, l = l' ++ [x] /\ length l' = n.
Proof.
  intros Hl. destruct (decide (l = [])) as [->|Hne]; [done|].
  apply last_is_Some in Hne as [x Hx]. apply last_Some in Hx as [l' ->].
  exists l', x. split; [done|]. rewrite length_app in Hl. simpl in Hl. lia.
Qed.

Lemma snoc3_of_length {A} (l : list A) (n : nat) :
  length l = S (S (S n)) -> exists rest f3 f2 f1, l = rest ++ [f3; f2; f1].
Proof.
  intros Hl.
  apply snoc_of_length in Hl as (l1 & f1 & -> & Hl).
  apply snoc_of_length in Hl as (l2 & f2 & -> & Hl).
  apply snoc_of_length in Hl as (l3 & f3 & -> & Hl).
  exists l3, f3, f2, f1. by rewrite <- !app_assoc.
Qed.

Lemma snoc4_of_length {A} (l : list A) (n : nat) :
  length l = S (S (S (S n))) -> exists rest c2 c1 p2 p1, l = rest ++ [c2; c1; p2; p1].
Proof.
  intros Hl.
  apply snoc_of_length in Hl as (l1 & p1 & -> & Hl).
  apply snoc3_of_length in Hl as (rest & c2 & c1 & p2 & ->).
  exists rest, c2, c1, p2, p1. by rewrite <- !app_assoc.
Qed.

Lemma elem_of_insertAsc (x v : Z) (arr : list Z) :
  x ∈ insertAsc v arr -> x = v \/ x ∈ arr.
Proof.
  induction arr as [|w arr IH]; simpl.
  - intros ->%list_elem_of_singleton. by left.
  - destruct (v <? w)%Z.
    + intros [-> | H]%elem_of_cons; [by left | by right].
    + intros [-> | H]%elem_of_cons; [right; left|].
      destruct (IH H) as [-> | H']; [by left | right; by right].
Qed.

Lemma elem_of_sortAsc (x : Z) (arr : list Z) : x ∈ sortAsc arr -> x ∈ arr.
Proof.
  induction arr as [|v arr IH]; simpl; [done|].
  intros [-> | H]%elem_of_insertAsc; [left | right; auto].
Qed.

Lemma elem_of_setOf_from (x : Z) (arr seen : list Z) :
  x ∈ fold_left (fun seen v => if decide (v ∈ seen) then seen else seen ++ [v]) arr seen ->
  x ∈ seen \/ x ∈ arr.
Proof.
  revert seen. induction arr as [|v arr IH]; intros seen; simpl; [by left|].
  intros H. apply IH in H as [H | H]; [|right; by right].
  destruct (decide (v ∈ seen)); [by left|].
  apply elem_of_app in H as [H | ->%list_elem_of_singleton]; [by left | right; left].
Qed.

Lemma definedCards_fmap (l : list Card) : definedCards (Some <$> l) = Some l.
Proof. induction l as [|c l IH]; csimpl; [done|]. by rewrite IH. Qed.

Lemma evaluateSlots_fmap (h b : list Card) :
  evaluateSlots ((Some <$> h) ++ (Some <$> b)) = Some (evaluateHandRank (h ++ b)).
Proof. unfold evaluateSlots. by rewrite <- fmap_app, definedCards_fmap. Qed.

Lemma evaluateSlots_defined (hand : list Card) :
  evaluateSlots (Some <$> hand) = Some (evaluateHandRank hand).
Proof. unfold evaluateSlots. by rewrite definedCards_fmap. Qed.

Lemma swap_Permutation {A} (i j : nat) (l : list A) : swap i j l ≡ₚ l.
Proof.
  unfold swap. destruct (l !! i) as [x|] eqn:Hi; [|done].
  destruct (l !! j) as [y|] eqn:Hj; [|done].
  by apply Permutation_insert_swap.
Qed.

Lemma shuffleFrom_Permutation draw i d : shuffleFrom draw i d ≡ₚ d.
Proof.
  revert d. induction i as [|i IH]; intros d; simpl; [done|].
  by rewrite IH, swap_Permutation.
Qed.

Lemma freshDeck_Permutation draw : freshDeck draw ≡ₚ orderedDeck.
Proof. apply shuffleFrom_Permutation. Qed.

Lemma orderedDeck_NoDup : NoDup orderedDeck.
Proof. apply (bool_decide_unpack (NoDup orderedDeck)). vm_compute. exact I. Qed.

Lemma orderedDeck_length : length orderedDeck = 52%nat.
Proof. reflexivity. Qed.

(** ** The shuffle *)

Lemma swap_length {A} (i j : nat) (l : list A) : length (swap i j l) = length l.
Proof.
  unfold swap. destruct (l !! i); [|done]. destruct (l !! j); [|done].
  by rewrite !length_insert.
Qed.

(** After the swap, position [i] holds what position [j] held. *)
Lemma swap_lookup {A} (i j : nat) (l : list A) (y : A) :
  (i < length l)%nat -> l !! j = Some y -> swap i j l !! i = Some y.
Proof.
  intros Hi Hj. unfold swap.
  destruct (lookup_lt_is_Some_2 l i Hi) as [x Hx]. rewrite Hx, Hj.
  destruct (decide (i = j)) as [->|Hne].
  - rewrite list_lookup_insert_eq by (by rewrite length_insert). congruence.
  - rewrite list_lookup_insert_ne by done.
    by rewrite list_lookup_insert_eq.
Qed.

(** The swap leaves the positions other than [i] and [j] alone. *)
Lemma swap_lookup_ne {A} (i j k : nat) (l : list A) :
  k <> i -> k <> j -> swap i j l !! k = l !! k.
Proof.
  intros Hi Hj. unfold swap. destruct (l !! i); [|done]. destruct (l !! j); [|done].
  by rewrite !list_lookup_insert_ne.
Qed.

Lemma swap_drop {A} (i j n : nat) (l : list A) :
  (i < n)%nat -> (j < n)%nat -> drop n (swap i j l) = drop n l.
Proof.
  intros Hi Hj. unfold swap. destruct (l !! i); [|done]. destruct (l !! j); [|done].
  by rewrite !drop_insert_lt.
Qed.

(** The iterations from [i] down read the draws of the indices 1 to [i]. *)
Lemma shuffleFrom_ext (f g : nat -> nat) (i : nat) (d : list Card) :
  (forall k, (1 <= k <= i)%nat -> f k = g k) -> shuffleFrom f i d = shuffleFrom g i d.
Proof.
  revert d. induction i as [|i IH]; intros d Hfg; [done|].
  simpl. rewrite (Hfg (S i)) by lia. apply IH. intros k Hk. apply Hfg. lia.
Qed.

(** They leave the positions above [i] alone. *)
Lemma shuffleFrom_lookup_above (draw : nat -> nat) (i k : nat) (d : list Card) :
  validDraw draw -> (i < k)%nat -> shuffleFrom draw i d !! k = d !! k.
Proof.
  intros Hdraw. revert d. induction i as [|i IH]; intros d Hik; [done|].
  simpl. rewrite IH by lia. specialize (Hdraw (S i)).
  apply swap_lookup_ne; lia.
Qed.

(** The card that ends at position [i] is the one iteration [i] draws. *)
Lemma shuffleFrom_lookup_top (draw : nat -> nat) (i : nat) (d : list Card) :
  validDraw draw -> (0 < i < length d)%nat ->
  shuffleFrom draw i d !! i = d !! draw i.
Proof.
  intros Hdraw Hi. destruct i as [|i]; [lia|]. simpl.
  rewrite shuffleFrom_lookup_above by (done || lia).
  pose proof (Hdraw (S i)) as Hle.
  destruct (lookup_lt_is_Some_2 d (draw (S i))) as [y Hy]; [lia|].
  rewrite Hy. apply swap_lookup; [lia | done].
Qed.

(** Every order of the first [n + 1] cards is the result of some draws. *)
Lemma shuffleFrom_reaches (n : nat) (pre pre' rest : list Card) :
  length pre = S n -> pre' ≡ₚ pre ->
  exists draw, validDraw draw /\ shuffleFrom draw n (pre ++ rest) = pre' ++ rest.
Proof.
  revert pre pre' rest. induction n as [|n IH]; intros pre pre' rest Hlen Hperm.
  - exists (fun _ => 0%nat). split; [intros i; lia|]. simpl.
    destruct pre as [|x [|]]; try done.
    by apply Permutation_singleton_r in Hperm as ->.
  - assert (length pre' = S (S n)) as Hlen' by (by rewrite Hperm).
    destruct (snoc_of_length pre' (S n) Hlen') as (pre'' & x & -> & _).
    assert (x ∈ pre) as Hx by (rewrite <- Hperm; apply elem_of_app; right; left).
    apply list_elem_of_lookup_1 in Hx as [j Hj].
    pose proof (lookup_lt_Some _ _ _ Hj) as Hjlt. rewrite Hlen in Hjlt.
    set (r := swap (S n) j (pre ++ rest)).
    assert (r !! S n = Some x) as Hr.
    { apply swap_lookup; [rewrite length_app; lia|]. by rewrite lookup_app_l by lia. }
    assert (drop (S (S n)) r = rest) as Hdrop.
    { unfold r. rewrite swap_drop by lia. by apply drop_app_length'. }
    pose proof (take_drop_middle r (S n) x Hr) as Hsplit. rewrite Hdrop in Hsplit.
    assert (length (take (S n) r) = S n) as Hlenq.
    { rewrite length_take. unfold r. rewrite swap_length, length_app. lia. }
    assert (pre'' ≡ₚ take (S n) r) as Hperm'.
    { apply (Permutation_app_inv_r [x]), (Permutation_app_inv_r rest).
      rewrite Hperm, <- (assoc_L (++)). simpl. rewrite Hsplit.
      unfold r. by rewrite swap_Permutation. }
    destruct (IH (take (S n) r) pre'' (x :: rest) Hlenq Hperm') as (draw' & Hvalid & Hrun).
    exists (fun k => if decide (k = S n) then j else draw' k). split.
    + intros k. destruct (decide (k = S n)) as [->|_]; [lia | apply Hvalid].
    + simpl. rewrite decide_True by done. fold r.
      rewrite (shuffleFrom_ext _ draw').
      * rewrite <- Hsplit, Hrun. by rewrite <- (assoc_L (++)).
      * intros k Hk. by rewrite decide_False by lia.
Qed.

(** The shuffle can leave the deck in every order: whatever the order of the
    52 cards, some draws produce it. *)
Lemma freshDeck_reaches (d : list Card) :
  d ≡ₚ orderedDeck -> exists draw, validDraw draw /\ freshDeck draw = d.
Proof.
  intros Hperm.
  destruct (shuffleFrom_reaches 51 orderedDeck d [] eq_refl Hperm) as (draw & Hvalid & Hrun).
  exists draw. split; [done|]. rewrite !app_nil_r in Hrun. exact Hrun.
Qed.

(** The card at the end of the deck, the first to be popped, is the card of
    the ordered deck at the index of the first draw. *)
Lemma freshDeck_last (draw : nat -> nat) :
  validDraw draw -> last (freshDeck draw) = orderedDeck !! draw 51%nat.
Proof.
  intros Hvalid. rewrite last_lookup.
  assert (length (freshDeck draw) = 52%nat) as ->
    by (by rewrite freshDeck_Permutation).
  apply (shuffleFrom_lookup_top draw 51 orderedDeck Hvalid).
  rewrite orderedDeck_length. lia.
Qed.

Lemma run_app q1 q2 s : run (q1 ++ q2) s = run q2 (run q1 s).
Proof. apply fold_left_app. Qed.

Lemma run_cons u q s : run (u :: q) s = run q (applyUpdate s u).
Proof. reflexivity. Qed.

Lemma Qltb_lt (x y : Q) : Qltb x y = true <-> x < y.
Proof.
  unfold Qltb. destruct (Qle_bool y x) eqn:E; simpl.
  - apply Qle_bool_iff in E. split; [discriminate | lra].
  - split; [|done]. intros _. apply Qnot_le_lt. intros Hle.
    apply Qle_bool_iff in Hle. congruence.
Qed.

Lemma numLtb_lt (a b : Number) : numLtb a b = true <-> numLt a b.
Proof.
  destruct a as [|x], b as [|y]; simpl; try apply Qltb_lt; split; done.
Qed.

Lemma positive_not_bankrupt (pc cc : Q) :
  0 < pc -> 0 < cc -> Qle_bool pc 0 || Qle_bool cc 0 = false.
Proof.
  intros Hp Hc.
  destruct (Qle_bool pc 0) eqn:E1; [apply Qle_bool_iff in E1; lra|].
  destruct (Qle_bool cc 0) eqn:E2; [apply Qle_bool_iff in E2; lra|].
  reflexivity.
Qed.

(** * The queues of the handlers *)

Lemma last_app_list (l m : list Card) (c : Card) :
  last (l ++ m ++ [c]) = Some c.
Proof. by rewrite app_assoc, last_snoc. Qed.

Lemma removelast_app_list (l m : list Card) (c : Card) :
  removelast (l ++ m ++ [c]) = l ++ m.
Proof. by rewrite app_assoc, removelast_last. Qed.

Lemma pops4 (l : list Card) a b c d :
  last (l ++ [a; b; c; d]) = Some d /\ removelast (l ++ [a; b; c; d]) = l ++ [a; b; c].
Proof. split; [apply (last_app_list l [a; b; c]) | apply (removelast_app_list l [a; b; c])]. Qed.

Lemma pops3 (l : list Card) a b c :
  last (l ++ [a; b; c]) = Some c /\ removelast (l ++ [a; b; c]) = l ++ [a; b].
Proof. split; [apply (last_app_list l [a; b]) | apply (removelast_app_list l [a; b])]. Qed.

Lemma pops2 (l : list Card) a b :
  last (l ++ [a; b]) = Some b /\ removelast (l ++ [a; b]) = l ++ [a].
Proof. split; [apply (last_app_list l [a]) | apply (removelast_app_list l [a])]. Qed.

(** Evaluates the [pop]s of a deck given with its last cards. *)
Ltac pop_snoc :=
  unfold pop; cbv beta iota;
  rewrite ?(proj1 (pops4 _ _ _ _ _)), ?(proj2 (pops4 _ _ _ _ _));
  rewrite ?(proj1 (pops3 _ _ _ _)), ?(proj2 (pops3 _ _ _ _));
  rewrite ?(proj1 (pops2 _ _ _)), ?(proj2 (pops2 _ _ _));
  rewrite ?last_snoc, ?removelast_last.

Lemma deal_queue s rest p1 p2 c1 c2 :
  Qle_bool (playerChips s) 0 || Qle_bool (cpuChips s) 0 = false ->
  hasFour (deck s) p1 p2 c1 c2 rest ->
  deal s =
    [ SetPlayer [Some p1; Some p2]; SetCpu [Some c1; Some c2]; SetDeck rest;
      SetCommunity (fun _ => []); SetMessage MsgEmpty; SetStage playing;
      SetPot (fun _ => Qmin (Qmin (bet s) (playerChips s)) (cpuChips s) * 2);
      SetPlayerChips (fun c => c - Qmin (Qmin (bet s) (playerChips s)) (cpuChips s));
      SetCpuChips (fun c => c - Qmin (Qmin (bet s) (playerChips s)) (cpuChips s)) ].
Proof.
  intros Hgo Hd. unfold hasFour in Hd. unfold deal. rewrite Hgo, Hd.
  by pop_snoc.
Qed.

Lemma nextStage_flop s rest f1 f2 f3 :
  community s = [] ->
  deck s = rest ++ [f3; f2; f1] ->
  nextStage s = [SetCommunity (fun _ => [Some f1; Some f2; Some f3]); SetDeck rest].
Proof.
  intros Hc Hd. unfold nextStage. rewrite Hc, Hd.
  cbn [length Nat.ltb Nat.leb]. by pop_snoc.
Qed.

Lemma nextStage_turn s rest t :
  (length (community s) = 3 \/ length (community s) = 4)%nat ->
  deck s = rest ++ [t] ->
  nextStage s = [SetCommunity (fun prev => prev ++ [Some t]); SetDeck rest].
Proof.
  intros Hc Hd. unfold nextStage. rewrite Hd.
  destruct Hc as [-> | ->]; cbn [length Nat.ltb Nat.leb]; by pop_snoc.
Qed.

Lemma nextStage_river s :
  (5 <= length (community s))%nat -> nextStage s = evaluateWinner s.
Proof.
  intros Hc. unfold nextStage.
  destruct (Nat.ltb_spec (length (community s)) 3); [lia|].
  destruct (Nat.ltb_spec (length (community s)) 5); [lia|].
  by repeat destruct (pop _).
Qed.

Lemma nextStage_early_chips s s0 :
  (length (community s) < 5)%nat ->
  playerChips (run (nextStage s) s0) = playerChips s0 /\
  cpuChips (run (nextStage s) s0) = cpuChips s0 /\
  pot (run (nextStage s) s0) = pot s0 /\
  stage (run (nextStage s) s0) = stage s0.
Proof.
  intros Hc. unfold nextStage.
  destruct (Nat.ltb_spec (length (community s)) 3).
  - repeat destruct (pop _). done.
  - destruct (Nat.ltb_spec (length (community s)) 5); [|lia].
    repeat destruct (pop _). done.
Qed.

Lemma nextStage_stage s s0 :
  stage (run (nextStage s) s0) = stage s0 \/ stage (run (nextStage s) s0) = showdown.
Proof.
  destruct (Nat.lt_ge_cases (length (community s)) 5) as [Hlt | Hge].
  - left. by destruct (nextStage_early_chips s s0 Hlt) as (_ & _ & _ & ->).
  - rewrite nextStage_river by done. unfold evaluateWinner.
    destruct (evaluateSlots (player s ++ community s)) as [pe|]; [|by left].
    destruct (evaluateSlots (cpu s ++ community s)) as [ce|]; [|by left].
    right. by destruct (numLtb _ _); [|destruct (numLtb _ _)].
Qed.

(** The showdown, on defined cards: the stage it sets and the chips it pays
    out of the pot it read. *)
Lemma evaluateWinner_settles s s0 pe ce :
  evaluateSlots (player s ++ community s) = Some pe ->
  evaluateSlots (cpu s ++ community s) = Some ce ->
  stage (run (evaluateWinner s) s0) = showdown /\
  pot (run (evaluateWinner s) s0) = pot s0 /\
  playerChips (run (evaluateWinner s) s0) + cpuChips (run (evaluateWinner s) s0)
    == playerChips s0 + cpuChips s0 + pot s.
Proof.
  intros Hp Hc. unfold evaluateWinner. rewrite Hp, Hc.
  destruct (numLtb (strength ce) (strength pe)); [|destruct (numLtb (strength pe) (strength ce))];
    simpl; (split; [done|split; [done|]]); try ring.
  field.
Qed.

Lemma nextStage_total s s0 :
  stage (run (nextStage s) s0) <> showdown ->
  total (run (nextStage s) s0) = total s0.
Proof.
  intros Hst. unfold total.
  destruct (Nat.lt_ge_cases (length (community s)) 5) as [Hlt | Hge].
  - destruct (nextStage_early_chips s s0 Hlt) as (-> & -> & -> & _). done.
  - rewrite nextStage_river in * by done.
    destruct (evaluateSlots (player s ++ community s)) as [pe|] eqn:Hpe;
      [destruct (evaluateSlots (cpu s ++ community s)) as [ce|] eqn:Hce|].
    + destruct (evaluateWinner_settles s s0 pe ce Hpe Hce) as (Hs & _). done.
    + unfold evaluateWinner. by rewrite Hpe, Hce.
    + unfold evaluateWinner. by rewrite Hpe.
Qed.

Lemma cpuDecision_total s s0 raised amount random :
  stage (run (cpuDecision s raised amount random) s0) <> showdown ->
  stage (run (cpuDecision s raised amount random) s0) <> folded ->
  total (run (cpuDecision s raised amount random) s0) == total s0.
Proof.
  unfold cpuDecision.
  destruct (evaluateSlots (cpu s ++ community s)) as [ce|]; [|reflexivity].
  repeat match goal with
         | |- context [if ?b then _ else _] => destruct b
         end;
    rewrite ?run_app; intros Hs Hf;
    try (rewrite nextStage_total by done; unfold total; simpl; ring);
    by simpl in Hf.
Qed.

Lemma handleCheck_guarded s random :
  stage s <> playing -> run (handleCheck s random) s = s.
Proof. intros Hst. unfold handleCheck. by rewrite decide_False. Qed.

Lemma handleRaise_guarded s random :
  stage s <> playing -> run (handleRaise s random) s = s.
Proof.
  intros Hst. unfold handleRaise. by rewrite bool_decide_eq_false_2.
Qed.

Lemma handleRaise_unaffordable s random :
  playerChips s < bet s -> run (handleRaise s random) s = s.
Proof.
  intros Hlt. unfold handleRaise.
  destruct (Qle_bool (bet s) (playerChips s)) eqn:E.
  - apply Qle_bool_iff in E. lra.
  - by rewrite andb_false_r.
Qed.

Lemma bettingStep_total s a :
  bettingStep a ->
  (a = PressDeal -> pot s == 0) ->
  stage (step s a) <> showdown ->
  stage (step s a) <> folded ->
  total (step s a) == total s.
Proof.
  intros Ha Hpot Hs Hf.
  destruct a as [|random|random| | |]; try done; unfold step, handler in *.
  - specialize (Hpot eq_refl). unfold deal, pop. cbv beta iota.
    destruct (Qle_bool (playerChips s) 0 || Qle_bool (cpuChips s) 0);
      unfold total; simpl; [reflexivity|]. rewrite Hpot. ring.
  - unfold handleCheck in *. destruct (decide (stage s = playing)); [|reflexivity].
    rewrite run_cons in *. by rewrite cpuDecision_total.
  - unfold handleRaise in *.
    destruct (bool_decide (stage s = playing) && Qle_bool (bet s) (playerChips s));
      [|reflexivity].
    rewrite run_app in *. rewrite cpuDecision_total by done.
    unfold total. simpl. ring.
Qed.

Lemma playingStep_stage s a :
  playingStep a -> stage (step s a) = playing -> stage s = playing.
Proof.
  intros Ha Hst. destruct a as [|random|random| | |v]; try done.
  - destruct (decide (stage s = playing)) as [|Hne]; [done|].
    unfold step, handler in Hst. by rewrite handleCheck_guarded in Hst.
  - destruct (decide (stage s = playing)) as [|Hne]; [done|].
    unfold step, handler in Hst. by rewrite handleRaise_guarded in Hst.
Qed.

(** The bluff of the check path takes the bet unit from the opponent's stack
    whatever that stack holds. *)
Lemma bluff_takes_bet_unit s random cpuEval :
  stage s = playing ->
  evaluateSlots (cpu s ++ community s) = Some cpuEval ->
  random 0%nat < 1 # 10 ->
  (length (community s) < 5)%nat ->
  cpuChips (step s (PressCheck random)) = cpuChips s - bet s /\
  pot (step s (PressCheck random)) = pot s + bet s.
Proof.
  intros Hst Hce Hr Hlt. unfold step, handler, handleCheck, cpuDecision.
  rewrite decide_True by done. rewrite Hce.
  apply Qltb_lt in Hr. rewrite Hr. rewrite run_cons, run_app.
  by destruct (nextStage_early_chips s
                 (run [SetCpuChips (fun c => c - bet s); SetPot (fun p => p + bet s);
                       SetMessage MsgCpuBluffs]
                      (applyUpdate s (SetMessage MsgYouCheck))) Hlt)
    as (_ & -> & -> & _).
Qed.

(** ** The stage after a handler *)

Lemma cpuDecision_stage s s0 raised amount random :
  stage (run (cpuDecision s raised amount random) s0) = stage s0 \/
  stage (run (cpuDecision s raised amount random) s0) = showdown \/
  (raised = true /\ stage (run (cpuDecision s raised amount random) s0) = folded).
Proof.
  unfold cpuDecision.
  destruct (evaluateSlots (cpu s ++ community s)) as [ce|]; [|by left].
  repeat match goal with
         | |- context [if ?b then _ else _] => destruct b
         end;
    rewrite ?run_app;
    try (destruct (nextStage_stage s (run [SetCpuChips (fun c => c - amount);
                                           SetPot (fun p => p + amount);
                                           SetMessage MsgCpuCalls] s0)) as [->| ->];
         [by left | right; by left]);
    try (right; right; done);
    match goal with
    | |- context [run (nextStage s) ?mid] =>
        destruct (nextStage_stage s mid) as [->| ->]; [by left | right; by left]
    end.
Qed.

Lemma offered_leadsTo (s : State) (a : Action) :
  offered s a -> leadsTo a (stage s) (stage (step s a)).
Proof.
  intros Hoff. unfold step, handler.
  destruct a as [|random|random| |draw|v]; simpl in Hoff |- *.
  - split; [done|]. unfold deal, pop. cbv beta iota.
    destruct (Qle_bool (playerChips s) 0 || Qle_bool (cpuChips s) 0); simpl; auto.
  - destruct Hoff as [Hst _]. split; [done|]. unfold handleCheck.
    rewrite decide_True by done. rewrite run_cons.
    destruct (cpuDecision_stage s (applyUpdate s (SetMessage MsgYouCheck))
                false (bet s) random) as [->|[->|[? _]]]; simpl; auto. done.
  - destruct Hoff as [Hst _]. split; [done|]. unfold handleRaise.
    destruct (bool_decide (stage s = playing) && Qle_bool (bet s) (playerChips s));
      [|simpl; auto].
    rewrite run_app.
    match goal with
    | |- context [run (cpuDecision s true (bet s) random) ?mid] =>
        destruct (cpuDecision_stage s mid true (bet s) random) as [->|[->|[_ ->]]]
    end; simpl; auto.
  - done.
  - by destruct Hoff as [Hst _].
  - done.
Qed.

(** * The invariant of the round *)

Lemma dealt_deck_length s ph ch cm :
  length ph = 2%nat -> length ch = 2%nat ->
  deck s ++ ph ++ ch ++ cm ≡ₚ orderedDeck ->
  (length (deck s) + length cm = 48)%nat.
Proof.
  intros Hp Hc Hperm. apply Permutation_length in Hperm.
  rewrite !length_app, orderedDeck_length in Hperm. lia.
Qed.

Section DealtRound.

(** A snapshot [s] whose cards are those of a round being played. *)
Context (s : State) (Hdealt : dealt s).

Lemma dealt_evaluates :
  exists ph ch cm,
    player s = Some <$> ph /\ cpu s = Some <$> ch /\ community s = Some <$> cm /\
    evaluateSlots (player s ++ community s) = Some (evaluateHandRank (ph ++ cm)) /\
    evaluateSlots (cpu s ++ community s) = Some (evaluateHandRank (ch ++ cm)).
Proof using Hdealt.
  destruct Hdealt as (ph & ch & cm & Hp & Hc & Hm & _). exists ph, ch, cm.
  rewrite Hp, Hc, Hm. by rewrite !evaluateSlots_fmap.
Qed.

Lemma dealt_cpu_hand :
  exists cards,
    cpu s ++ community s = Some <$> cards /\ NoDup cards /\
    (length cards = 2 \/ length cards = 5 \/ length cards = 6 \/ length cards = 7)%nat.
Proof using Hdealt.
  destruct Hdealt as (ph & ch & cm & Hp & Hc & Hm & Hlp & Hlc & Hlm & Hperm).
  exists (ch ++ cm). rewrite Hc, Hm, fmap_app. split; [done|]. split.
  - pose proof orderedDeck_NoDup as Hnd. rewrite <- Hperm in Hnd.
    apply NoDup_app in Hnd as (_ & _ & Hnd).
    by apply NoDup_app in Hnd as (_ & _ & Hnd).
  - rewrite length_app. lia.
Qed.

(** [nextStage] keeps the invariant, whatever the updates queued before it
    did to the chips and the message. *)
Lemma nextStage_preserves s0 :
  player s0 = player s -> cpu s0 = cpu s -> community s0 = community s ->
  stage s0 = playing ->
  roundInv (run (nextStage s) s0).
Proof using Hdealt.
  intros Hp0 Hc0 Hm0 Hst.
  destruct dealt_evaluates as (ph' & ch' & cm' & _ & _ & _ & Hpe & Hce).
  destruct Hdealt as (ph & ch & cm & Hp & Hc & Hm & Hlp & Hlc & Hlm & Hperm).
  pose proof (dealt_deck_length s ph ch cm Hlp Hlc Hperm) as Hlen.
  assert (length (community s) = length cm) as Hlcm by (by rewrite Hm, length_fmap).
  destruct Hlm as [Hl | [Hl | [Hl | Hl]]].
  - destruct cm; [|done].
    destruct (snoc3_of_length (deck s) 45) as (rest & f3 & f2 & f1 & Hdk);
      [simpl in Hlen; lia|].
    rewrite (nextStage_flop s rest f1 f2 f3 Hm Hdk).
    unfold roundInv. simpl. rewrite Hst.
    exists ph, ch, [f1; f2; f3]. simpl. rewrite Hp0, Hc0.
    repeat split; auto. rewrite <- Hperm, Hdk. solve_Permutation.
  - destruct (snoc_of_length (deck s) 44) as (rest & t & Hdk & _); [lia|].
    rewrite (nextStage_turn s rest t) by (auto; lia).
    unfold roundInv. simpl. rewrite Hst.
    exists ph, ch, (cm ++ [t]). simpl. rewrite Hp0, Hc0, Hm0, Hm, fmap_app.
    repeat split; auto.
    + rewrite length_app. simpl. lia.
    + rewrite <- Hperm, Hdk. solve_Permutation.
  - destruct (snoc_of_length (deck s) 43) as (rest & t & Hdk & _); [lia|].
    rewrite (nextStage_turn s rest t) by (auto; lia).
    unfold roundInv. simpl. rewrite Hst.
    exists ph, ch, (cm ++ [t]). simpl. rewrite Hp0, Hc0, Hm0, Hm, fmap_app.
    repeat split; auto.
    + rewrite length_app. simpl. lia.
    + rewrite <- Hperm, Hdk. solve_Permutation.
  - rewrite nextStage_river by lia.
    destruct (evaluateWinner_settles s s0 _ _ Hpe Hce) as (Hs & _).
    unfold roundInv. by rewrite Hs.
Qed.

Lemma cpuDecision_preserves s0 raised amount random :
  player s0 = player s -> cpu s0 = cpu s -> community s0 = community s ->
  stage s0 = playing ->
  roundInv (run (cpuDecision s raised amount random) s0).
Proof using Hdealt.
  intros Hp0 Hc0 Hm0 Hst.
  destruct dealt_evaluates as (ph & ch & cm & _ & _ & _ & _ & Hce).
  unfold cpuDecision. rewrite Hce.
  repeat match goal with
         | |- context [if ?b then _ else _] => destruct b
         end;
    rewrite ?run_app; try (apply nextStage_preserves; done); done.
Qed.

End DealtRound.

Lemma deal_preserves s : roundInv s -> stage s = ready -> roundInv (step s PressDeal).
Proof.
  unfold roundInv at 1. intros Hinv Hst. rewrite Hst in Hinv.
  destruct Hinv as ((draw & Hdraw & Hdk) & Hpot & Hcm).
  unfold step, handler.
  destruct (Qle_bool (playerChips s) 0 || Qle_bool (cpuChips s) 0) eqn:Hgo.
  - unfold deal. rewrite Hgo. unfold roundInv. simpl. rewrite Hst. eauto.
  - destruct (snoc4_of_length (deck s) 48) as (rest & c2 & c1 & p2 & p1 & Hd4).
    { rewrite Hdk. by rewrite (Permutation_length (freshDeck_Permutation draw)). }
    rewrite (deal_queue s rest p1 p2 c1 c2 Hgo Hd4).
    unfold roundInv. simpl. exists [p1; p2], [c1; c2], []. simpl.
    repeat split; auto.
    rewrite <- (freshDeck_Permutation draw), <- Hdk, Hd4. solve_Permutation.
Qed.

Lemma step_preserves s a : roundInv s -> offered s a -> roundInv (step s a).
Proof.
  intros Hinv Hoff. destruct a as [|random|random| |draw|v]; simpl in Hoff.
  - by apply deal_preserves.
  - destruct Hoff as [Hst _]. unfold roundInv in Hinv. rewrite Hst in Hinv.
    unfold step, handler, handleCheck. rewrite decide_True by done.
    rewrite run_cons. by apply cpuDecision_preserves.
  - destruct Hoff as [Hst _]. pose proof Hinv as Hd. unfold roundInv in Hd.
    rewrite Hst in Hd. unfold step, handler, handleRaise.
    destruct (bool_decide (stage s = playing) && Qle_bool (bet s) (playerChips s));
      [|done].
    rewrite run_app. by apply cpuDecision_preserves.
  - done.
  - destruct Hoff as [_ Hdraw]. unfold roundInv. simpl. eauto.
  - unfold roundInv in *. simpl. rewrite Hoff in *.
    destruct Hinv as (ph & ch & cm & H). by exists ph, ch, cm.
Qed.

Lemma reachable_roundInv s : reachable s -> roundInv s.
Proof.
  induction 1 as [draw Hdraw | s a _ IH Hoff].
  - unfold roundInv. simpl. eauto.
  - by apply step_preserves.
Qed.

(** * Concrete runs *)

Lemma reachable_steps s actions :
  reachable s -> offeredAll s actions -> reachable (steps s actions).
Proof.
  revert s. induction actions as [|a actions IH]; intros s Hr Hoff; simpl in *.
  - done.
  - destruct Hoff as [Ha Hrest]. apply IH; [|done]. by apply reachable_step.
Qed.

Lemma unshuffled_valid : validDraw unshuffled.
Proof. intros i. unfold unshuffled. lia. Qed.

Lemma cutting_valid : validDraw cutting.
Proof. intros i. unfold cutting. lia. Qed.

Lemma neverBluff_valid : validRandom neverBluff.
Proof. intros n. unfold neverBluff. split; [discriminate | reflexivity]. Qed.

Lemma alwaysBluff_valid : validRandom alwaysBluff.
Proof. intros n. unfold alwaysBluff. split; [discriminate | reflexivity]. Qed.

Create HintDb poker.
#[local] Hint Resolve unshuffled_valid cutting_valid neverBluff_valid alwaysBluff_valid
  : poker.

(** Reachability of the state at the end of a concrete list of actions. *)
Ltac offered_path :=
  apply reachable_steps;
  [ apply reachable_initial; auto with poker
  | repeat match goal with
           | |- offeredAll _ _ => hnf
           | |- offered _ _ => hnf
           | |- _ /\ _ => split
           | |- True => exact I
           | |- validRandom _ => auto with poker
           | |- validDraw _ => auto with poker
           | |- stage _ = _ => vm_compute; reflexivity
           | |- _ \/ _ => first [left; vm_compute; reflexivity | right; vm_compute; reflexivity]
           end ].

(** A list of actions, each offered in the state it is taken in. *)
Ltac offered_all :=
  repeat match goal with
         | |- offeredAll _ _ => hnf
         | |- offered _ _ => hnf
         | |- _ /\ _ => split
         | |- True => exact I
         | |- validRandom _ => auto with poker
         | |- validDraw _ => auto with poker
         | |- stage _ = _ => vm_compute; reflexivity
         | |- _ \/ _ =>
             first [left; vm_compute; reflexivity | right; vm_compute; reflexivity]
         end.

(** Closed goals on concrete states and hands, decided by evaluation. *)
Ltac by_computation :=
  match goal with
  | |- ~ _ => let H := fresh in intros H; vm_compute in H; discriminate H
  | |- _ <> _ => let H := fresh in intros H; vm_compute in H; discriminate H
  | |- _ => vm_compute; first [reflexivity | exact I | discriminate]
  end.

(** The chips of a concrete state, given twice each stack, the pot and the
    bet unit. *)
Ltac exact_chips p c t b :=
  split; [exists p; split; [vm_compute; reflexivity | vm_compute; discriminate]|];
  split; [exists c; split; [vm_compute; reflexivity | vm_compute; discriminate]|];
  split; [exists t; split; [vm_compute; reflexivity | vm_compute; discriminate]|];
  exists b; split; [vm_compute; reflexivity | vm_compute; discriminate].

Lemma firstDeal_reachable : reachable firstDeal.
Proof. unfold firstDeal. offered_path. Qed.


(** On the river the opponent answers the check by a bluff of 50: the
    showdown pays the pot of 100 that the handler read, and the 50 stay in
    the pot cell until the reset. *)
Example river_bluff_stays_in_pot :
  playerChips river + cpuChips river + pot river == 2000 /\
  stage (step river (PressCheck alwaysBluff)) = showdown /\
  playerChips (step river (PressCheck alwaysBluff))
    + cpuChips (step river (PressCheck alwaysBluff)) == 1950 /\
  pot (step river (PressCheck alwaysBluff)) == 150.
Proof. do 3 (split; [by_computation|]). by_computation. Qed.

Lemma firstDeal_player_eval :
  evaluateSlots (player firstDeal ++ community firstDeal) = Some aceHigh.
Proof. vm_compute. reflexivity. Qed.

Lemma firstDeal_cpu_eval :
  evaluateSlots (cpu firstDeal ++ community firstDeal) = Some queenHigh.
Proof. vm_compute. reflexivity. Qed.

Example royal :
  evaluateHandRank [mkCard RA Spade; mkCard RK Spade; mkCard RQ Spade;
                    mkCard RJ Spade; mkCard R10 Spade]
  = mkEval "Royale Straight Flush" (Finite (inject_Z 9 + inject_Z 14 / 100)).
Proof. vm_compute. reflexivity. Qed.

Example royal_is_straight_flush_hand : straightFlushHand royalSpades.
Proof. apply (bool_decide_unpack (straightFlushHand royalSpades)). vm_compute. exact I. Qed.

Example steel_wheel_is_straight_flush_hand : straightFlushHand steelWheel.
Proof. apply (bool_decide_unpack (straightFlushHand steelWheel)). vm_compute. exact I. Qed.

Example spades_of_brokenRoyal_not_in_sequence : ~ straightFlushHand (tail brokenRoyal).
Proof.
  apply (bool_decide_unpack (~ straightFlushHand (tail brokenRoyal))).
  vm_compute. exact I.
Qed.


(** * Properties of the hand evaluator *)

(** The name given to four of a kind is not an entry of [rankOrder]. *)
Lemma four_cards_not_in_rankOrder : indexOf rankOrder "Four Cards" = (-1)%Z.
Proof. reflexivity. Qed.

(** On a hand that is not empty the strength is the position of the name in
    [rankOrder] plus a hundredth of the highest rank value. *)
Lemma strength_formula (cards : list Card) :
  cards <> [] ->
  exists top : Z,
    mathMax (ranksOf cards) = Finite (inject_Z top) /\
    strength (evaluateHandRank cards)
    = Finite (inject_Z (indexOf rankOrder (classify cards)) + inject_Z top / 100).
Proof.
  intros Hne. unfold evaluateHandRank. simpl.
  destruct (ranksOf cards) as [|v l] eqn:E.
  - destruct cards as [|c cards]; [done|].
    unfold ranksOf in E. simpl in E.
    destruct (sortAsc (map rankValue cards)) as [|w l]; simpl in E; [done|].
    by destruct (rankValue c <? w)%Z.
  - simpl. eauto.
Qed.

Lemma rankValue_bounds (c : Card) : (2 <= rankValue c <= 14)%Z.
Proof. destruct c as [r st]. destruct r; vm_compute; split; discriminate. Qed.

Lemma fold_max_bounds (arr : list Z) (v : Z) :
  (2 <= v <= 14)%Z -> Forall (fun w => 2 <= w <= 14)%Z arr ->
  (2 <= fold_left Z.max arr v <= 14)%Z.
Proof.
  revert v. induction arr as [|w arr IH]; intros v Hv Hall; simpl; [done|].
  inversion Hall as [|? ? Hw Hrest]; subst. apply IH; [lia | done].
Qed.

Lemma top_rank_bounds (cards : list Card) :
  cards <> [] ->
  exists top : Z,
    mathMax (ranksOf cards) = Finite (inject_Z top) /\ (2 <= top <= 14)%Z.
Proof.
  intros Hne.
  assert (Forall (fun w => 2 <= w <= 14)%Z (ranksOf cards)) as Hall.
  { apply Forall_forall. intros w Hw. unfold ranksOf in Hw.
    apply elem_of_sortAsc, list_elem_of_fmap in Hw as (c & -> & _).
    apply rankValue_bounds. }
  destruct (strength_formula cards Hne) as (top & Htop & _).
  exists top. split; [done|].
  destruct (ranksOf cards) as [|v arr]; [discriminate Htop|].
  simpl in Htop. injection Htop as Htop. subst top.
  inversion Hall; subst. by apply fold_max_bounds.
Qed.

(** The slip in general: whatever the kickers, a hand named "Four Cards" is
    weaker than a hand named "High Card". *)
Lemma four_cards_below_every_high_card (quads high : list Card) :
  quads <> [] -> high <> [] ->
  classify quads = "Four Cards"%string -> classify high = "High Card"%string ->
  numLt (strength (evaluateHandRank quads)) (strength (evaluateHandRank high)).
Proof.
  intros Hq Hh Hcq Hch.
  destruct (strength_formula quads Hq) as (tq & Htq & ->).
  destruct (strength_formula high Hh) as (th & Hth & ->).
  destruct (top_rank_bounds quads Hq) as (tq' & Htq' & Hbq).
  destruct (top_rank_bounds high Hh) as (th' & Hth' & Hbh).
  rewrite Htq in Htq'. injection Htq' as Htq'. subst tq'.
  rewrite Hth in Hth'. injection Hth' as Hth'. subst th'.
  rewrite Hcq, Hch. simpl.
  change (indexOf rankOrder "Four Cards") with (-1)%Z.
  change (indexOf rankOrder "High Card") with 0%Z.
  unfold Qlt, Qplus, Qdiv, Qmult, Qinv, inject_Z. simpl. lia.
Qed.

(** C1 (evaluated at the failing input): four twos and a three are named
    "Four Cards", a name [rankOrder] does not hold, so the category index is
    -1 and the strength -1 + 3/100; a ten-high hand of category High Card has
    strength 0 + 10/100, which is greater. *)
Theorem four_cards_strength_below_high_card :
  evaluateHandRank fourTwos
    = mkEval "Four Cards" (Finite (inject_Z (-1) + inject_Z 3 / 100)) /\
  evaluateHandRank tenHigh
    = mkEval "High Card" (Finite (inject_Z 0 + inject_Z 10 / 100)) /\
  numLt (strength (evaluateHandRank fourTwos)) (strength (evaluateHandRank tenHigh)).
Proof. repeat split; vm_compute; reflexivity. Qed.

(** ** Straight detection *)

Lemma elem_of_uniqueRanksOf (x : Z) (cards : list Card) :
  x ∈ uniqueRanksOf cards -> x ∈ map rankValue cards.
Proof.
  unfold uniqueRanksOf, setOf, ranksOf.
  intros [H | H]%elem_of_setOf_from; [by apply elem_of_nil in H|].
  by apply elem_of_sortAsc.
Qed.

(** Five values that pass the test of [every consecutive] ascend by one. *)
Lemma every_consecutive_five (arr : list Z) :
  length arr = 5%nat -> every consecutive arr = true ->
  exists v, arr = [v; v + 1; v + 2; v + 3; v + 4]%Z.
Proof.
  intros Hlen Hev.
  destruct arr as [|a [|b [|c [|d [|e [|? ?]]]]]]; try discriminate Hlen.
  unfold every, consecutive in Hev. simpl in Hev.
  repeat (apply andb_true_iff in Hev as [?%Z.eqb_eq Hev]).
  exists a. repeat f_equal; lia.
Qed.

(** When [straightOf] holds, the input holds five rank values ascending by
    one. *)
Lemma straightOf_run (cards : list Card) :
  straightOf cards = true ->
  exists v, forall k, (0 <= k <= 4)%Z -> (v + k)%Z ∈ map rankValue cards.
Proof.
  unfold straightOf. intros [Hlen Hev]%andb_true_iff.
  apply Nat.leb_le in Hlen.
  destruct (every_consecutive_five (sliceLast 5 (uniqueRanksOf cards))) as [v Hv].
  - unfold sliceLast. rewrite length_drop. lia.
  - done.
  - exists v. intros k Hk. apply elem_of_uniqueRanksOf.
    apply (subseteq_drop (length (uniqueRanksOf cards) - 5)).
    fold (sliceLast 5 (uniqueRanksOf cards)). rewrite Hv.
    assert (k = 0 \/ k = 1 \/ k = 2 \/ k = 3 \/ k = 4)%Z as Hcase by lia.
    destruct Hcase as [-> | [-> | [-> | [-> | ->]]]]; rewrite ?Z.add_0_r;
      repeat first [apply list_elem_of_here | apply list_elem_of_further].
Qed.

Lemma classify_without_straight (cards : list Card) :
  straightOf cards = false ->
  classify cards <> "Straight"%string /\
  classify cards <> "Straight Flush"%string /\
  classify cards <> "Royale Straight Flush"%string.
Proof.
  intros Hs. unfold classify. rewrite Hs. cbn [andb].
  repeat match goal with
         | |- context [if ?b then _ else _] => destruct b
         end; repeat split; discriminate.
Qed.

(** C8: a hand that holds an ace, a two, a three, a four and a five and no
    five rank values ascending by one is not a straight for the evaluator,
    and is named neither Straight nor Straight Flush nor Royale Straight
    Flush. *)
Theorem wheel_is_not_a_straight (cards : list Card) :
  (forall v, v ∈ [14; 2; 3; 4; 5]%Z -> v ∈ map rankValue cards) ->
  (~ exists v, forall k, (0 <= k <= 4)%Z -> (v + k)%Z ∈ map rankValue cards) ->
  straightOf cards = false /\
  rankName (evaluateHandRank cards) <> "Straight"%string /\
  rankName (evaluateHandRank cards) <> "Straight Flush"%string /\
  rankName (evaluateHandRank cards) <> "Royale Straight Flush"%string.
Proof.
  intros _ Hrun.
  assert (straightOf cards = false) as Hs.
  { destruct (straightOf cards) eqn:E; [|done].
    exfalso. apply Hrun. by apply straightOf_run. }
  split; [done|]. by apply classify_without_straight.
Qed.

Lemma wheel_is_not_a_straight_witness :
  (forall v, v ∈ [14; 2; 3; 4; 5]%Z -> v ∈ map rankValue wheel) /\
  (~ exists v, forall k, (0 <= k <= 4)%Z -> (v + k)%Z ∈ map rankValue wheel) /\
  straightOf wheel = false /\
  rankName (evaluateHandRank wheel) = "High Card"%string /\
  rankName (evaluateHandRank wheel) <> "Straight"%string.
Proof.
  assert (forall v, v ∈ [14; 2; 3; 4; 5]%Z -> v ∈ map rankValue wheel) as Hwheel.
  { intros v Hv. exact Hv. }
  assert (~ exists v, forall k, (0 <= k <= 4)%Z -> (v + k)%Z ∈ map rankValue wheel)
    as Hrun.
  { change (map rankValue wheel) with [14; 2; 3; 4; 5]%Z.
    intros [v Hv].
    pose proof (Hv 0%Z ltac:(lia)) as H0. pose proof (Hv 1%Z ltac:(lia)) as H1.
    pose proof (Hv 2%Z ltac:(lia)) as H2. pose proof (Hv 3%Z ltac:(lia)) as H3.
    pose proof (Hv 4%Z ltac:(lia)) as H4.
    apply list_elem_of_In in H0, H1, H2, H3, H4.
    simpl in H0, H1, H2, H3, H4. lia. }
  split; [exact Hwheel|]. split; [exact Hrun|].
  destruct (wheel_is_not_a_straight wheel Hwheel Hrun) as (Hs & Hn & _).
  split; [exact Hs|]. split; [vm_compute; reflexivity | exact Hn].
Defined.

(** ** Straight and flush are looked for separately *)

Lemma sublist_sublists {A} (l k : list A) : sublist l k -> l ∈ sublists k.
Proof.
  induction 1 as [|x l k _ IH|x l k _ IH]; simpl.
  - apply list_elem_of_here.
  - apply elem_of_app. left. apply list_elem_of_fmap. eauto.
  - apply elem_of_app. by right.
Qed.

Lemma straightFlushHand_Permutation (hand hand' : list Card) :
  hand ≡ₚ hand' -> straightFlushHand hand -> straightFlushHand hand'.
Proof.
  intros Hperm (Hlen & Hsuit & Hseq). split; [by rewrite <- Hperm|]. split.
  - unfold sameSuit in *. apply Exists_exists in Hsuit as (st & Hst & Hall).
    apply Exists_exists. exists st. split; [done|]. by rewrite <- Hperm.
  - unfold inSequence in *. apply Exists_exists in Hseq as (low & Hlow & Hall).
    apply Exists_exists. exists low. split; [done|].
    eapply Forall_impl; [exact Hall|]. intros k. unfold holdsValue.
    by rewrite Hperm.
Qed.

Lemma noStraightFlushIn_sublists (cards : list Card) :
  Forall (fun hand => ~ straightFlushHand hand) (sublists cards) ->
  noStraightFlushIn cards.
Proof.
  intros Hall hand Hsub Hsf.
  apply submseteq_sublist_r in Hsub as (hand' & Hperm & Hsub).
  apply sublist_sublists in Hsub.
  rewrite Forall_forall in Hall. apply (Hall hand' Hsub).
  by apply (straightFlushHand_Permutation hand).
Qed.

(** C10: six distinct cards, the ten of hearts with five spades J Q K A 2,
    are named Royale Straight Flush, and seven distinct cards, the nine of
    hearts with six spades 10 J Q K 2 3, are named Straight Flush, although no
    five cards of either input are a straight flush: the flush is found among
    the spades, the straight only with the heart. *)
Theorem straight_flush_without_a_straight_flush :
  (length brokenRoyal = 6%nat /\ NoDup brokenRoyal /\
   flushOf brokenRoyal = true /\ straightOf brokenRoyal = true /\
   rankName (evaluateHandRank brokenRoyal) = "Royale Straight Flush"%string /\
   noStraightFlushIn brokenRoyal) /\
  (length brokenStraightFlush = 7%nat /\ NoDup brokenStraightFlush /\
   flushOf brokenStraightFlush = true /\ straightOf brokenStraightFlush = true /\
   rankName (evaluateHandRank brokenStraightFlush) = "Straight Flush"%string /\
   noStraightFlushIn brokenStraightFlush).
Proof.
  split.
  - split; [reflexivity|].
    split; [apply (bool_decide_unpack (NoDup brokenRoyal)); vm_compute; exact I|].
    split; [vm_compute; reflexivity|]. split; [vm_compute; reflexivity|].
    split; [vm_compute; reflexivity|].
    apply noStraightFlushIn_sublists.
    apply (bool_decide_unpack
             (Forall (fun hand => ~ straightFlushHand hand) (sublists brokenRoyal))).
    vm_compute. exact I.
  - split; [reflexivity|].
    split; [apply (bool_decide_unpack (NoDup brokenStraightFlush)); vm_compute; exact I|].
    split; [vm_compute; reflexivity|]. split; [vm_compute; reflexivity|].
    split; [vm_compute; reflexivity|].
    apply noStraightFlushIn_sublists.
    apply (bool_decide_unpack
             (Forall (fun hand => ~ straightFlushHand hand) (sublists brokenStraightFlush))).
    vm_compute. exact I.
Qed.

(** ** The evaluator never fails on cards *)

(** C4 (counterexample): right after the first deal the opponent's decision
    evaluates its two hole cards alone, and the evaluator returns High Card
    with strength 0.12 for them. *)
Lemma evaluator_returns_on_two_cards :
  reachable firstDeal /\ stage firstDeal = playing /\
  length (cpu firstDeal ++ community firstDeal) = 2%nat /\
  evaluateSlots (cpu firstDeal ++ community firstDeal) = Some queenHigh /\
  ~ failsOnShortOrRepeated /\ ~ neverEvaluatesShort.
Proof.
  assert (stage firstDeal = playing) as Hst by by_computation.
  split; [apply firstDeal_reachable|]. split; [exact Hst|].
  split; [by_computation|]. split; [apply firstDeal_cpu_eval|].
  split.
  - intros Hfail.
    destruct (Hfail [mkCard RQ Club; mkCard RJ Club]) as [_ Hnone].
    rewrite evaluateSlots_defined in Hnone.
    discriminate Hnone. left. simpl. lia.
  - intros Hnever. specialize (Hnever firstDeal firstDeal_reachable Hst).
    vm_compute in Hnever. lia.
Qed.

(** C4 (amended): the evaluator returns a rank and a strength for every list
    of cards, whatever its length and whether or not it repeats a card; and
    whenever the round is in the playing stage the opponent's decision
    evaluates the opponent's hole cards with the community cards shown so far,
    which are 2, 5, 6 or 7 distinct cards. *)
Theorem evaluator_total_in_round s :
  reachable s -> stage s = playing ->
  (forall hand : list Card,
     evaluateSlots (Some <$> hand) = Some (evaluateHandRank hand)) /\
  exists cards,
    cpu s ++ community s = Some <$> cards /\ NoDup cards /\
    (length cards = 2 \/ length cards = 5 \/ length cards = 6 \/ length cards = 7)%nat /\
    evaluateSlots (cpu s ++ community s) = Some (evaluateHandRank cards).
Proof.
  intros Hr Hst. split; [apply evaluateSlots_defined|].
  apply reachable_roundInv in Hr. unfold roundInv in Hr. rewrite Hst in Hr.
  destruct (dealt_cpu_hand s Hr) as (cards & Heq & Hnd & Hlen).
  exists cards. rewrite Heq. auto using evaluateSlots_defined.
Qed.

Lemma evaluator_total_in_round_witness :
  reachable firstDeal /\ stage firstDeal = playing /\
  exists cards,
    cpu firstDeal ++ community firstDeal = Some <$> cards /\ NoDup cards /\
    (length cards = 2 \/ length cards = 5 \/ length cards = 6 \/ length cards = 7)%nat /\
    evaluateSlots (cpu firstDeal ++ community firstDeal) = Some (evaluateHandRank cards).
Proof.
  assert (reachable firstDeal) as Hr by (unfold firstDeal; offered_path).
  assert (stage firstDeal = playing) as Hst by (vm_compute; reflexivity).
  split; [exact Hr|]. split; [exact Hst|].
  exact (proj2 (evaluator_total_in_round firstDeal Hr Hst)).
Defined.

(** * Properties of the round *)

(** ** The deal *)

(** A ready state with two positive stacks is the state at mount or the
    state a reset has just left: a refused deal is the only other way to
    stay ready, and it needs an empty stack. *)
Lemma ready_state_origin s :
  reachable s -> stage s = ready -> 0 < playerChips s -> 0 < cpuChips s ->
  exists draw,
    validDraw draw /\
    (s = initialState draw \/
     exists e, reachable e /\ offered e (PressReset draw) /\ s = step e (PressReset draw)).
Proof.
  intros Hr Hst Hpc Hcc. destruct Hr as [draw Hdraw|e a Hr Hoff].
  - exists draw. auto.
  - pose proof (offered_leadsTo e a Hoff) as Hlead.
    destruct a as [|random|random| |draw|v]; cbn [leadsTo] in Hlead.
    + exfalso. revert Hst Hpc Hcc. unfold step, handler, deal, pop. cbv beta iota.
      destruct (Qle_bool (playerChips e) 0 || Qle_bool (cpuChips e) 0) eqn:E;
        simpl; [|discriminate].
      intros _ Hpc Hcc. by rewrite positive_not_bankrupt in E.
    + destruct Hlead as [_ [H|H]]; congruence.
    + destruct Hlead as [_ [H|[H|H]]]; congruence.
    + destruct Hlead as [_ H]; congruence.
    + exists draw. split; [apply Hoff|]. right. exists e. auto.
    + destruct Hlead as [_ H]; congruence.
Qed.

(** C6: in every reachable ready state with two positive stacks, the deck
    [deal] draws from is the deck [freshDeck] built at mount or at the reset
    just before, which no deal has drawn from.  It is a shuffle of the 52
    cards: the card at its end, the first one dealt, is the card of the
    ordered deck at the index the shuffle drew first, and no order of the 52
    cards is out of the shuffle's reach.  [deal] pops the player's two cards
    first and the opponent's two next, leaves the other 48 as the deck,
    empties the community cards, takes the ante min(bet, playerChips,
    cpuChips) from each stack, sets the pot to twice the ante and the stage to
    playing. *)
Theorem deal_from_fresh_deck s :
  reachable s -> stage s = ready -> 0 < playerChips s -> 0 < cpuChips s ->
  exists draw p1 p2 c1 c2 rest,
    validDraw draw /\ deck s = freshDeck draw /\
    (s = initialState draw \/
     exists e, reachable e /\ offered e (PressReset draw) /\ s = step e (PressReset draw)) /\
    orderedDeck !! draw 51%nat = Some p1 /\
    (forall d, d ≡ₚ orderedDeck -> exists draw', validDraw draw' /\ freshDeck draw' = d) /\
    deck s ≡ₚ orderedDeck /\ NoDup (deck s) /\ length (deck s) = 52%nat /\
    deck s = rest ++ [c2; c1; p2; p1] /\
    let s' := step s PressDeal in
    let ante := Qmin (Qmin (bet s) (playerChips s)) (cpuChips s) in
    player s' = [Some p1; Some p2] /\ cpu s' = [Some c1; Some c2] /\
    deck s' = rest /\ community s' = [] /\
    playerChips s' = playerChips s - ante /\ cpuChips s' = cpuChips s - ante /\
    pot s' = ante * 2 /\ stage s' = playing.
Proof.
  intros Hr Hst Hpc Hcc.
  destruct (ready_state_origin s Hr Hst Hpc Hcc) as (draw & Hdraw & Horigin).
  assert (deck s = freshDeck draw) as Hdk.
  { destruct Horigin as [->|(e & _ & _ & ->)]; reflexivity. }
  pose proof (freshDeck_Permutation draw) as Hperm. rewrite <- Hdk in Hperm.
  assert (length (deck s) = 52%nat) as Hlen by (by rewrite Hperm).
  destruct (snoc4_of_length (deck s) 48 Hlen) as (rest & c2 & c1 & p2 & p1 & Hd4).
  exists draw, p1, p2, c1, c2, rest.
  split; [done|]. split; [done|]. split; [done|].
  split.
  { rewrite <- (freshDeck_last draw Hdraw), <- Hdk, Hd4.
    change (rest ++ [c2; c1; p2; p1]) with (rest ++ [c2; c1; p2] ++ [p1]).
    by rewrite (assoc_L (++)), last_snoc. }
  split; [apply freshDeck_reaches|]. split; [done|].
  split; [rewrite Hperm; apply orderedDeck_NoDup|]. split; [done|]. split; [done|].
  unfold step, handler.
  rewrite (deal_queue s rest p1 p2 c1 c2 (positive_not_bankrupt _ _ Hpc Hcc) Hd4).
  simpl. repeat split.
Qed.

Lemma deal_from_fresh_deck_witness :
  reachable redealt /\ stage redealt = ready /\
  0 < playerChips redealt /\ 0 < cpuChips redealt /\
  deck redealt = freshDeck cutting /\
  player (step redealt PressDeal) = [Some (mkCard R2 Spade); Some (mkCard RA Club)] /\
  exists p1 p2 c1 c2 rest,
    deck redealt = rest ++ [c2; c1; p2; p1] /\
    player (step redealt PressDeal) = [Some p1; Some p2] /\
    cpu (step redealt PressDeal) = [Some c1; Some c2] /\
    deck (step redealt PressDeal) = rest /\
    stage (step redealt PressDeal) = playing.
Proof.
  assert (reachable redealt) as Hr by (unfold redealt; offered_path).
  assert (stage redealt = ready) as Hst by (vm_compute; reflexivity).
  assert (0 < playerChips redealt) as Hp by (vm_compute; reflexivity).
  assert (0 < cpuChips redealt) as Hc by (vm_compute; reflexivity).
  split; [exact Hr|]. split; [exact Hst|]. split; [exact Hp|]. split; [exact Hc|].
  split; [reflexivity|]. split; [vm_compute; reflexivity|].
  destruct (deal_from_fresh_deck redealt Hr Hst Hp Hc)
    as (draw & p1 & p2 & c1 & c2 & rest & _ & _ & _ & _ & _ & _ & _ & _ & Hd &
        Hpl & Hcp & Hdk & _ & _ & _ & _ & Hsg).
  exists p1, p2, c1, c2, rest. auto.
Defined.

(** ** Chip conservation while the round stays open *)

(** C5 (counterexample): after the first deal the player raises 50 and the
    opponent folds; the stacks and the pot, 2000 together before the raise,
    add up to 2150 after it. *)
Lemma raise_and_fold_changes_total :
  reachable firstDeal /\ offered firstDeal (PressRaise neverBluff) /\
  total firstDeal == 2000 /\
  total (step firstDeal (PressRaise neverBluff)) == 2150 /\
  ~ total (step firstDeal (PressRaise neverBluff)) == total firstDeal.
Proof.
  split; [apply firstDeal_reachable|].
  split; [split; [by_computation | apply neverBluff_valid]|].
  split; [by_computation|]. split; [by_computation|]. by_computation.
Qed.

(** C5 (amended): on whole chips, where the source rounds no sum, [deal]
    from a state whose pot is 0, [handleCheck] and [handleRaise] leave
    playerChips + cpuChips + pot unchanged whenever the stage they lead to is
    neither showdown nor folded, so the pot grows by exactly what leaves the
    two stacks; [nextStage] changes neither stack nor the pot while fewer
    than 5 community cards are shown. *)
Theorem total_kept_while_round_open s a :
  bettingStep a ->
  (a = PressDeal -> pot s == 0) ->
  stage (step s a) <> showdown ->
  stage (step s a) <> folded ->
  (exactChips s ->
     total (step s a) == total s /\
     pot (step s a) - pot s
       == (playerChips s - playerChips (step s a))
          + (cpuChips s - cpuChips (step s a))) /\
  ((length (community s) < 5)%nat ->
     playerChips (run (nextStage s) s) = playerChips s /\
     cpuChips (run (nextStage s) s) = cpuChips s /\
     pot (run (nextStage s) s) = pot s /\
     total (run (nextStage s) s) = total s).
Proof.
  intros Ha Hpot Hs Hf.
  pose proof (bettingStep_total s a Ha Hpot Hs Hf) as Htot.
  split.
  - intros _. split; [exact Htot|]. unfold total in Htot. lra.
  - intros Hlt. unfold total.
    destruct (nextStage_early_chips s s Hlt) as (-> & -> & -> & _). done.
Qed.

Lemma total_kept_while_round_open_witness :
  bettingStep (PressCheck alwaysBluff) /\
  stage (step firstDeal (PressCheck alwaysBluff)) = playing /\
  exactChips firstDeal /\
  total (step firstDeal (PressCheck alwaysBluff)) == total firstDeal /\
  pot (step firstDeal (PressCheck alwaysBluff)) - pot firstDeal
    == (playerChips firstDeal - playerChips (step firstDeal (PressCheck alwaysBluff)))
       + (cpuChips firstDeal - cpuChips (step firstDeal (PressCheck alwaysBluff))).
Proof.
  assert (exactChips firstDeal) as Hex by exact_chips 1900%Z 1900%Z 100%Z 50%Z.
  assert (stage (step firstDeal (PressCheck alwaysBluff)) = playing) as Hst
    by (vm_compute; reflexivity).
  split; [exact I|]. split; [exact Hst|]. split; [exact Hex|].
  assert (stage (step firstDeal (PressCheck alwaysBluff)) <> showdown) as Hs
    by (rewrite Hst; discriminate).
  assert (stage (step firstDeal (PressCheck alwaysBluff)) <> folded) as Hf
    by (rewrite Hst; discriminate).
  assert (PressCheck alwaysBluff = PressDeal -> pot firstDeal == 0) as Hd by discriminate.
  destruct (total_kept_while_round_open firstDeal (PressCheck alwaysBluff) I Hd Hs Hf)
    as (Hsum & _).
  exact (Hsum Hex).
Defined.

(** X20: on whole chips and with whole bets typed, from the deal on, as long
    as the round is in the playing stage, the pot is what the two players have
    put in: the chips that left their stacks. *)
Lemma pot_is_chips_committed s0 actions :
  exactChips s0 -> Forall wholeBet actions ->
  pot s0 == 0 ->
  Forall playingStep actions ->
  stage (steps s0 (PressDeal :: actions)) = playing ->
  pot (steps s0 (PressDeal :: actions))
  == (playerChips s0 - playerChips (steps s0 (PressDeal :: actions)))
     + (cpuChips s0 - cpuChips (steps s0 (PressDeal :: actions))).
Proof.
  intros _ _ Hpot Hall Hst.
  enough (total (steps s0 (PressDeal :: actions)) == total s0) as Htot
    by (unfold total in Htot; lra).
  revert Hall Hst. induction actions as [|a actions IH] using rev_ind; intros Hall Hst.
  - simpl in *. apply bettingStep_total; [done|done|..]; rewrite Hst; discriminate.
  - apply Forall_app in Hall as [Hall Ha]. apply Forall_inv in Ha.
    change (PressDeal :: actions ++ [a]) with ((PressDeal :: actions) ++ [a]) in *.
    unfold steps in *. rewrite fold_left_app in *. simpl in *.
    fold (steps s0 (PressDeal :: actions)) in *.
    pose proof (playingStep_stage _ _ Ha Hst) as Hmid.
    rewrite <- (IH Hall Hmid).
    destruct a as [|random|random| | |v]; try done.
    + apply bettingStep_total; [done|discriminate|..]; rewrite Hst; discriminate.
    + apply bettingStep_total; [done|discriminate|..]; rewrite Hst; discriminate.
Qed.

(** ** The opponent's answer to a raise *)



(** ** The opponent's raise after a check *)

(** C9: there is a reachable state in the playing stage, with a bet unit
    within the bounds of the bet input, in which the opponent holds 900 chips,
    fewer than the bet unit of 1000; a check answered by the opponent's bluff
    takes the whole bet unit from that stack and leaves it at -100. *)
Theorem bluff_overdraws_cpu_stack :
  exists s random,
    reachable s /\ stage s = playing /\ validRandom random /\
    10 <= bet s /\ bet s <= playerChips s /\
    0 < cpuChips s /\ cpuChips s < bet s /\
    cpuChips (step s (PressCheck random)) == cpuChips s - bet s /\
    cpuChips (step s (PressCheck random)) == -100 /\
    cpuChips (step s (PressCheck random)) < 0.
Proof.
  exists outspent, alwaysBluff.
  split; [unfold outspent; offered_path|].
  split; [by_computation|]. split; [apply alwaysBluff_valid|].
  do 6 (split; [by_computation|]). by_computation.
Qed.

(** ** Settlement *)

(** C2 (counterexample): after the first deal the player folds; the stacks
    receive the pot of 100, and the pot cell still holds 100 in the folded
    stage. *)
Lemma fold_keeps_pot_cell :
  reachable firstDeal /\ stage firstDeal = playing /\
  stage (step firstDeal PressFold) = folded /\
  pot (step firstDeal PressFold) == 100 /\
  ~ settledFrom firstDeal (step firstDeal PressFold).
Proof.
  split; [apply firstDeal_reachable|].
  split; [by_computation|].
  split; [reflexivity|].
  split; [by_computation|].
  intros [_ H]. vm_compute in H. discriminate H.
Qed.

(** C2 (amended): on defined cards, a fold by the player and a showdown set
    the stage to folded, respectively showdown, and pay the pot in full to one
    or both stacks: on whole chips, where the source rounds no sum, the two
    stacks together grow by exactly the pot.  So does the check on the river
    that the opponent answers by checking.  The pot cell keeps its value and
    is set to 0 by the reset that follows, which leaves the stacks alone. *)
Theorem settlement_pays_pot s pe ce draw :
  evaluateSlots (player s ++ community s) = Some pe ->
  evaluateSlots (cpu s ++ community s) = Some ce ->
  let f := run (handleFold s) s in
  let w := run (evaluateWinner s) s in
  (stage f = folded /\
   (exactChips s -> playerChips f + cpuChips f == playerChips s + cpuChips s + pot s) /\
   pot f = pot s) /\
  (stage w = showdown /\
   (exactChips s -> playerChips w + cpuChips w == playerChips s + cpuChips s + pot s) /\
   pot w = pot s) /\
  (forall random,
     stage s = playing -> (5 <= length (community s))%nat -> checksBack ce random ->
     let c := step s (PressCheck random) in
     stage c = showdown /\
     (exactChips s -> playerChips c + cpuChips c == playerChips s + cpuChips s + pot s) /\
     pot c = pot s) /\
  (forall e, e = f \/ e = w ->
     pot (run (reset e draw) e) = 0 /\ stage (run (reset e draw) e) = ready /\
     playerChips (run (reset e draw) e) = playerChips e /\
     cpuChips (run (reset e draw) e) = cpuChips e).
Proof.
  intros Hp Hc f w.
  split; [|split; [|split]].
  - subst f. simpl. split; [reflexivity|]. split; [intros _; ring | reflexivity].
  - destruct (evaluateWinner_settles s s pe ce Hp Hc) as (Hs & Hpot & Hsum).
    subst w. auto.
  - intros random Hst Hriver [Hr0 Hr1] c. subst c.
    unfold step, handler, handleCheck, cpuDecision.
    rewrite decide_True by done. rewrite Hc.
    destruct (Qltb (random 0%nat) (1 # 10)) eqn:E0;
      [by apply Qltb_lt in E0|].
    destruct (numLtb (Finite 5) (strength ce) && Qltb (random 1%nat) (1 # 2)) eqn:E1.
    { apply andb_true_iff in E1 as [E1 E2].
      apply numLtb_lt in E1. apply Qltb_lt in E2. by destruct Hr1. }
    rewrite run_cons, run_app, nextStage_river by done.
    destruct (evaluateWinner_settles s
                (run [SetMessage MsgCpuChecks] (applyUpdate s (SetMessage MsgYouCheck)))
                pe ce Hp Hc) as (Hs & Hpot & Hsum).
    auto.
  - intros e _. repeat split.
Qed.

Lemma settlement_pays_pot_witness :
  evaluateSlots (player river ++ community river) = Some aceFlush /\
  evaluateSlots (cpu river ++ community river) = Some queenStraightFlush /\
  stage river = playing /\ (5 <= length (community river))%nat /\
  checksBack queenStraightFlush neverBluff /\
  exactChips river /\
  stage (run (handleFold river) river) = folded /\
  pot (run (handleFold river) river) = pot river /\
  stage (step river (PressCheck neverBluff)) = showdown /\
  playerChips (step river (PressCheck neverBluff))
    + cpuChips (step river (PressCheck neverBluff))
    == playerChips river + cpuChips river + pot river /\
  pot (step river (PressCheck neverBluff)) = pot river.
Proof.
  assert (exactChips river) as Hex by exact_chips 1900%Z 1900%Z 100%Z 50%Z.
  assert (evaluateSlots (player river ++ community river) = Some aceFlush)
    as Hpe by (vm_compute; reflexivity).
  assert (evaluateSlots (cpu river ++ community river) = Some queenStraightFlush)
    as Hce by (vm_compute; reflexivity).
  assert (stage river = playing) as Hst by (vm_compute; reflexivity).
  assert (5 <= length (community river))%nat as Hriver by (vm_compute; lia).
  assert (checksBack queenStraightFlush neverBluff) as Hback.
  { split; [intros H | intros [_ H]]; vm_compute in H; discriminate H. }
  split; [exact Hpe|]. split; [exact Hce|]. split; [exact Hst|].
  split; [exact Hriver|]. split; [exact Hback|]. split; [exact Hex|].
  destruct (settlement_pays_pot river aceFlush queenStraightFlush unshuffled Hpe Hce)
    as [(Hf & _ & Hp) [_ [Hcheck _]]].
  destruct (Hcheck neverBluff Hst Hriver Hback) as (Hs & Hsum & Hpot).
  split; [exact Hf|]. split; [exact Hp|]. split; [exact Hs|].
  split; [exact (Hsum Hex) | exact Hpot].
Defined.

(** ** Actions outside the playing stage *)




(** * Further properties of the hand evaluator *)

(** ** Counting with [tally] *)

Section Tally.
Context {K : Type} `{EqDecision K}.
Implicit Types (k : K) (keys : list K) (acc : list (K * nat)).

Lemma tally_snoc keys k : tally (keys ++ [k]) = bump k (tally keys).
Proof. unfold tally. by rewrite fold_left_app. Qed.

Lemma firstSeen_snoc keys k :
  firstSeen (keys ++ [k])
  = if decide (k ∈ firstSeen keys) then firstSeen keys else firstSeen keys ++ [k].
Proof. unfold firstSeen. by rewrite fold_left_app. Qed.

Lemma elem_of_firstSeen keys k : k ∈ firstSeen keys <-> k ∈ keys.
Proof.
  induction keys as [|x keys IH] using rev_ind; [done|].
  rewrite firstSeen_snoc, elem_of_app, list_elem_of_singleton.
  destruct (decide (x ∈ firstSeen keys)) as [Hin|Hout].
  - rewrite IH. split; [by left|]. intros [?| ->]; [done|]. by apply IH.
  - rewrite elem_of_app, list_elem_of_singleton, IH. done.
Qed.

Lemma firstSeen_NoDup keys : NoDup (firstSeen keys).
Proof.
  induction keys as [|x keys IH] using rev_ind; [constructor|].
  rewrite firstSeen_snoc. destruct (decide (x ∈ firstSeen keys)); [done|].
  apply NoDup_app. split; [done|]. split; [|apply NoDup_singleton].
  intros y Hy ->%list_elem_of_singleton. done.
Qed.

Lemma occurrences_snoc keys k k' :
  occurrences k' (keys ++ [k])
  = (occurrences k' keys + if decide (k = k') then 1 else 0)%nat.
Proof.
  unfold occurrences. rewrite filter_app, length_app. f_equal.
  rewrite filter_cons, filter_nil. by destruct (decide (k = k')).
Qed.

Lemma occurrences_zero keys k : k ∉ keys -> occurrences k keys = 0%nat.
Proof.
  intros Hout. unfold occurrences.
  induction keys as [|x keys IH]; [done|].
  apply not_elem_of_cons in Hout as [Hne Hout].
  rewrite filter_cons. destruct (decide (x = k)); [congruence | by apply IH].
Qed.

Lemma occurrences_pos keys k : k ∈ keys -> (0 < occurrences k keys)%nat.
Proof.
  intros Hin. unfold occurrences.
  induction keys as [|x keys IH]; [by apply elem_of_nil in Hin|].
  rewrite filter_cons. destruct (decide (x = k)); [simpl; lia|].
  apply elem_of_cons in Hin as [->|Hin]; [done | by apply IH].
Qed.

Lemma occurrences_Permutation keys keys' k :
  keys ≡ₚ keys' -> occurrences k keys = occurrences k keys'.
Proof. intros Hperm. unfold occurrences. by rewrite Hperm. Qed.

Lemma bump_counted_old (count : K -> nat) ks k :
  NoDup ks -> k ∈ ks ->
  bump k (map (fun k' => (k', count k')) ks)
  = map (fun k' => (k', if decide (k = k') then S (count k') else count k')) ks.
Proof.
  induction 1 as [|x ks Hx Hnd IH]; intros Hin; [by apply elem_of_nil in Hin|].
  simpl. destruct (decide (x = k)) as [->|Hne].
  - rewrite decide_True by done. f_equal.
    apply map_ext_in. intros k' Hk'%list_elem_of_In.
    rewrite decide_False; [done|]. by intros ->.
  - rewrite decide_False by done. f_equal. apply IH.
    by apply elem_of_cons in Hin as [->|Hin].
Qed.

Lemma bump_counted_new (count : K -> nat) ks k :
  k ∉ ks ->
  bump k (map (fun k' => (k', count k')) ks)
  = map (fun k' => (k', count k')) ks ++ [(k, 1%nat)].
Proof.
  induction ks as [|x ks IH]; intros Hout; [done|].
  apply not_elem_of_cons in Hout as [Hne Hout]. simpl.
  rewrite decide_False by done. f_equal. by apply IH.
Qed.

(** The object built by the counting [reduce]: one entry for each key, in the
    order of first occurrence, holding its number of occurrences. *)
Lemma tally_counts keys :
  tally keys = map (fun k => (k, occurrences k keys)) (firstSeen keys).
Proof.
  induction keys as [|x keys IH] using rev_ind; [done|].
  rewrite tally_snoc, IH, firstSeen_snoc.
  destruct (decide (x ∈ firstSeen keys)) as [Hin|Hout].
  - rewrite bump_counted_old by (done || apply firstSeen_NoDup).
    apply map_ext. intros k'. rewrite occurrences_snoc.
    destruct (decide (x = k')); f_equal; lia.
  - rewrite bump_counted_new by done. rewrite map_app. simpl. f_equal.
    + apply map_ext_in. intros k' Hk'%list_elem_of_In. rewrite occurrences_snoc.
      rewrite decide_False; [f_equal; lia|]. by intros ->.
    + rewrite occurrences_snoc, decide_True by done.
      rewrite occurrences_zero; [done|]. by rewrite <- elem_of_firstSeen.
Qed.

Lemma objectValues_tally keys :
  objectValues (tally keys) = map (fun k => occurrences k keys) (firstSeen keys).
Proof. unfold objectValues. rewrite tally_counts, map_map. done. Qed.

End Tally.

(** ** The sort *)

Lemma insertAsc_Permutation (v : Z) (arr : list Z) : insertAsc v arr ≡ₚ v :: arr.
Proof.
  induction arr as [|w arr IH]; simpl; [done|].
  destruct (v <? w)%Z; [done|]. rewrite IH. apply Permutation_swap.
Qed.

Lemma sortAsc_Permutation (arr : list Z) : sortAsc arr ≡ₚ arr.
Proof.
  induction arr as [|v arr IH]; simpl; [done|].
  by rewrite insertAsc_Permutation, IH.
Qed.

Lemma insertAsc_sorted (v : Z) (arr : list Z) :
  StronglySorted Z.le arr -> StronglySorted Z.le (insertAsc v arr).
Proof.
  induction 1 as [|w arr Hs IH Hall]; simpl; [repeat constructor|].
  destruct (Z.ltb_spec v w).
  - constructor; [by constructor|]. constructor; [lia|].
    eapply Forall_impl; [exact Hall|]. simpl. intros; lia.
  - constructor; [done|].
    rewrite insertAsc_Permutation. constructor; [lia | done].
Qed.

Lemma sortAsc_sorted (arr : list Z) : StronglySorted Z.le (sortAsc arr).
Proof.
  induction arr as [|v arr IH]; simpl; [constructor | by apply insertAsc_sorted].
Qed.

(** The sorted array depends on the values only, not on their order. *)
Lemma sortAsc_order_free (arr arr' : list Z) : arr ≡ₚ arr' -> sortAsc arr = sortAsc arr'.
Proof.
  intros Hperm. apply (StronglySorted_unique Z.le); try apply sortAsc_sorted.
  by rewrite !sortAsc_Permutation.
Qed.

Lemma ranksOf_Permutation (cards : list Card) : ranksOf cards ≡ₚ map rankValue cards.
Proof. apply sortAsc_Permutation. Qed.

Lemma occurrences_ranksOf (v : Z) (cards : list Card) :
  occurrences v (ranksOf cards) = rankCount v cards.
Proof. apply occurrences_Permutation, ranksOf_Permutation. Qed.

Lemma firstSeen_ranksOf (cards : list Card) (v : Z) :
  v ∈ firstSeen (ranksOf cards) <-> v ∈ map rankValue cards.
Proof. by rewrite elem_of_firstSeen, ranksOf_Permutation. Qed.

Lemma occurrences_elem_of {K} `{EqDecision K} (k : K) (keys : list K) :
  (0 < occurrences k keys)%nat <-> k ∈ keys.
Proof.
  split; [|apply occurrences_pos].
  intros Hpos. destruct (decide (k ∈ keys)) as [|Hout]; [done|].
  rewrite occurrences_zero in Hpos by done. lia.
Qed.

(** ** Flush and multiplicities *)

Lemma flushOf_suitCount (cards : list Card) :
  flushOf cards = true <-> exists st, (5 <= suitCount st cards)%nat.
Proof.
  unfold flushOf, suitCount. rewrite objectValues_tally, existsb_exists. split.
  - intros (n & Hn & Hle). apply list_elem_of_In, list_elem_of_fmap in Hn as (st & -> & _).
    exists st. by apply Nat.leb_le.
  - intros (st & Hle). exists (occurrences st (map suit cards)).
    split; [|by apply Nat.leb_le].
    apply list_elem_of_In, list_elem_of_fmap. exists st. split; [done|].
    apply elem_of_firstSeen, occurrences_elem_of. lia.
Qed.

(** X3: the evaluator finds a flush exactly when five or more of the cards
    have the same suit. *)
Theorem flushOf_five_of_a_suit (cards : list Card) :
  flushOf cards = true <-> exists st, (5 <= suitCount st cards)%nat.
Proof. apply flushOf_suitCount. Qed.

Lemma includes_values (cards : list Card) (n : nat) :
  (0 < n)%nat ->
  includes (objectValues (tally (ranksOf cards))) n = true
  <-> exists v, rankCount v cards = n.
Proof.
  intros Hn. unfold includes. rewrite bool_decide_eq_true, objectValues_tally.
  rewrite list_elem_of_fmap. split.
  - intros (v & -> & _). exists v. by rewrite occurrences_ranksOf.
  - intros (v & Hv). exists v. rewrite occurrences_ranksOf. split; [done|].
    apply elem_of_firstSeen. apply occurrences_elem_of.
    rewrite occurrences_ranksOf. lia.
Qed.

(** ** The order of the cards *)

Lemma ranksOf_order_free (cards cards' : list Card) :
  cards ≡ₚ cards' -> ranksOf cards = ranksOf cards'.
Proof.
  intros Hperm. unfold ranksOf. apply sortAsc_order_free.
  by apply Permutation_map.
Qed.

Lemma flushOf_order_free (cards cards' : list Card) :
  cards ≡ₚ cards' -> flushOf cards = flushOf cards'.
Proof.
  intros Hperm.
  assert (forall st, suitCount st cards = suitCount st cards') as Hcount.
  { intros st. apply occurrences_Permutation. by apply Permutation_map. }
  apply eq_true_iff_eq. rewrite !flushOf_suitCount.
  by setoid_rewrite Hcount.
Qed.

(** X2: the evaluator gives the same rank name and the same strength to the
    same cards in any order. *)
Theorem evaluateHandRank_order_free (cards cards' : list Card) :
  cards ≡ₚ cards' -> evaluateHandRank cards = evaluateHandRank cards'.
Proof.
  intros Hperm.
  pose proof (ranksOf_order_free _ _ Hperm) as Hranks.
  pose proof (flushOf_order_free _ _ Hperm) as Hflush.
  assert (straightOf cards = straightOf cards') as Hstraight
    by (unfold straightOf, uniqueRanksOf; by rewrite Hranks).
  unfold evaluateHandRank, classify. by rewrite Hranks, Hflush, Hstraight.
Qed.

Lemma evaluateHandRank_order_free_witness :
  wheel ≡ₚ reverse wheel /\
  evaluateHandRank wheel = evaluateHandRank (reverse wheel).
Proof.
  assert (wheel ≡ₚ reverse wheel) as Hperm by (symmetry; apply reverse_Permutation).
  split; [exact Hperm | exact (evaluateHandRank_order_free wheel (reverse wheel) Hperm)].
Defined.

(** ** Names and multiplicities *)

(** X4: a hand is named "Four Cards" exactly when some rank value occurs four
    times among its cards and the hand is not both a straight and a flush
    for the evaluator. *)
Theorem four_cards_iff (cards : list Card) :
  classify cards = "Four Cards"%string
  <-> straightOf cards && flushOf cards = false /\ exists v, rankCount v cards = 4%nat.
Proof.
  rewrite <- (includes_values cards 4) by lia. unfold classify.
  destruct (straightOf cards), (flushOf cards); cbn [andb];
    repeat match goal with
           | |- context [if ?b then _ else _] => destruct b
           end;
    split; try discriminate; try done; intros [? ?]; discriminate.
Qed.

Section Counting.
Context {K : Type} `{EqDecision K}.
Implicit Types (k : K) (l ks sub : list K).

Lemma sum_list_with_add (f g : K -> nat) ks :
  sum_list_with (fun k => f k + g k)%nat ks
  = (sum_list_with f ks + sum_list_with g ks)%nat.
Proof. induction ks as [|k ks IH]; simpl; [done|]. rewrite IH. lia. Qed.

Lemma sum_list_with_ext_in (f g : K -> nat) ks :
  (forall k, k ∈ ks -> f k = g k) -> sum_list_with f ks = sum_list_with g ks.
Proof.
  induction ks as [|k ks IH]; intros Hfg; simpl; [done|].
  rewrite Hfg by left. rewrite IH; [done|]. intros k' Hk'. apply Hfg. by right.
Qed.

Lemma sum_list_with_ones ks : sum_list_with (fun _ => 1%nat) ks = length ks.
Proof. induction ks as [|k ks IH]; simpl; [done | by rewrite IH]. Qed.

Lemma sum_list_with_zeros ks : sum_list_with (fun _ => 0%nat) ks = 0%nat.
Proof. induction ks as [|k ks IH]; simpl; [done | by rewrite IH]. Qed.

Lemma sum_indicator_out k ks :
  k ∉ ks -> sum_list_with (fun k' => if decide (k = k') then 1 else 0)%nat ks = 0%nat.
Proof.
  induction ks as [|x ks IH]; intros Hout; simpl; [done|].
  apply not_elem_of_cons in Hout as [Hne Hout].
  rewrite decide_False by done. by rewrite IH.
Qed.

Lemma sum_indicator_in k ks :
  NoDup ks -> k ∈ ks ->
  sum_list_with (fun k' => if decide (k = k') then 1 else 0)%nat ks = 1%nat.
Proof.
  induction 1 as [|x ks Hx Hnd IH]; intros Hin; [by apply elem_of_nil in Hin|].
  simpl. destruct (decide (k = x)) as [->|Hne].
  - by rewrite sum_indicator_out.
  - apply elem_of_cons in Hin as [->|Hin]; [done|]. by rewrite IH.
Qed.

Lemma occurrences_cons k x l :
  occurrences k (x :: l) = ((if decide (x = k) then 1 else 0) + occurrences k l)%nat.
Proof. unfold occurrences. rewrite filter_cons. by destruct (decide (x = k)). Qed.

(** Counted over keys that are all different and cover the list, the
    occurrences add up to the length. *)
Lemma sum_occurrences ks l :
  NoDup ks -> (forall x, x ∈ l -> x ∈ ks) ->
  sum_list_with (fun k => occurrences k l) ks = length l.
Proof.
  intros Hnd. induction l as [|x l IH]; intros Hcover.
  - simpl. rewrite (sum_list_with_ext_in _ (fun _ => 0%nat)) by done.
    apply sum_list_with_zeros.
  - rewrite (sum_list_with_ext_in _
               (fun k => (if decide (x = k) then 1 else 0) + occurrences k l)%nat)
      by (intros; apply occurrences_cons).
    rewrite sum_list_with_add, sum_indicator_in by (done || apply Hcover; left).
    rewrite IH; [done|]. intros y Hy. apply Hcover. by right.
Qed.

(** Every key beyond the first occurrence of a value costs a card: the
    number of different keys plus the repetitions of some of them is at most
    the length. *)
Lemma distinct_bound l sub :
  NoDup sub -> (forall k, k ∈ sub -> k ∈ l) ->
  (length (firstSeen l) + sum_list_with (fun k => occurrences k l - 1) sub
   <= length l)%nat.
Proof.
  intros Hnd Hsub.
  assert (sub ⊆+ firstSeen l) as Hms.
  { apply NoDup_submseteq; [done|]. intros k Hk. by apply elem_of_firstSeen, Hsub. }
  apply submseteq_Permutation in Hms as [rest Hrest].
  assert (sum_list_with (fun k => occurrences k l - 1)%nat (firstSeen l)
          = (sum_list_with (fun k => occurrences k l - 1) sub
             + sum_list_with (fun k => occurrences k l - 1) rest)%nat) as Hsplit
    by (by rewrite Hrest, sum_list_with_app).
  assert (length l
          = (length (firstSeen l)
             + sum_list_with (fun k => occurrences k l - 1) (firstSeen l))%nat) as Hlen.
  { rewrite <- (sum_occurrences (firstSeen l) l).
    - rewrite <- sum_list_with_ones, <- sum_list_with_add.
      apply sum_list_with_ext_in.
      intros k Hk. apply (proj1 (elem_of_firstSeen l k)) in Hk.
      apply occurrences_pos in Hk. lia.
    - apply firstSeen_NoDup.
    - intros x Hx. by apply elem_of_firstSeen. }
  lia.
Qed.

Lemma length_filter_fmap {B} (f : K -> B) (P : B -> Prop) `{forall b, Decision (P b)} ks :
  length (filter P (map f ks)) = length (filter (fun k => P (f k)) ks).
Proof.
  induction ks as [|k ks IH]; [done|]. simpl. rewrite !filter_cons.
  destruct (decide (P (f k))); simpl; by rewrite IH.
Qed.

End Counting.

Lemma distinct_ranks_bound (cards : list Card) (sub : list Z) :
  NoDup sub -> (forall v, v ∈ sub -> (0 < rankCount v cards)%nat) ->
  (length (uniqueRanksOf cards) + sum_list_with (fun v => rankCount v cards - 1) sub
   <= length cards)%nat.
Proof.
  intros Hnd Hsub.
  pose proof (distinct_bound (ranksOf cards) sub Hnd) as Hb.
  rewrite (Permutation_length (ranksOf_Permutation cards)), length_map in Hb.
  rewrite (sum_list_with_ext_in _ (fun v => rankCount v cards - 1)%nat) in Hb
    by (intros; by rewrite occurrences_ranksOf).
  apply Hb. intros v Hv. apply occurrences_elem_of.
  rewrite occurrences_ranksOf. by apply Hsub.
Qed.

Lemma includes_values_none (cards : list Card) (n : nat) :
  (0 < n)%nat -> (forall v, rankCount v cards <> n) ->
  includes (objectValues (tally (ranksOf cards))) n = false.
Proof.
  intros Hn Hnone.
  destruct (includes (objectValues (tally (ranksOf cards))) n) eqn:E; [|done].
  apply includes_values in E as (v & Hv); [|done]. by destruct (Hnone v).
Qed.

Lemma includes_values_some (cards : list Card) (n : nat) (v : Z) :
  (0 < n)%nat -> rankCount v cards = n ->
  includes (objectValues (tally (ranksOf cards))) n = true.
Proof. intros Hn Hv. apply includes_values; eauto. Qed.

Lemma few_ranks_no_straight (cards : list Card) :
  (length (uniqueRanksOf cards) < 5)%nat -> straightOf cards = false.
Proof.
  intros Hlt. unfold straightOf. apply andb_false_iff. left. by apply Nat.leb_gt.
Qed.

(** A short list of values known to differ has no duplicates. *)
Ltac nodup_small :=
  repeat (apply NoDup_cons; split;
          [rewrite ?not_elem_of_cons; repeat split; try done; apply not_elem_of_nil|]);
  apply NoDup_nil_2.

Lemma uniqueRanksOf_length_ge (cards : list Card) (sub : list Z) :
  NoDup sub -> (forall v, v ∈ sub -> (0 < rankCount v cards)%nat) ->
  (length sub <= length (uniqueRanksOf cards))%nat.
Proof.
  intros Hnd Hsub. apply submseteq_length, NoDup_submseteq; [done|].
  intros v Hv. apply (elem_of_firstSeen (ranksOf cards) v), occurrences_elem_of.
  rewrite occurrences_ranksOf. by apply Hsub.
Qed.

(** X5: seven cards without a flush in which two different rank values
    occur three times each are named "Triple", not "Full-House": the
    evaluator asks a full house for a rank that occurs exactly twice. *)
Theorem two_triples_named_triple (cards : list Card) (u v : Z) :
  length cards = 7%nat -> u <> v ->
  rankCount u cards = 3%nat -> rankCount v cards = 3%nat ->
  flushOf cards = false ->
  classify cards = "Triple"%string.
Proof.
  intros Hlen Huv Hu Hv Hflush.
  assert (NoDup [u; v]) as Hnd by nodup_small.
  assert (forall w, w ∈ [u; v] -> (0 < rankCount w cards)%nat) as Hpos.
  { intros w Hw. apply elem_of_cons in Hw as [->|Hw]; [lia|].
    apply list_elem_of_singleton in Hw as ->. lia. }
  pose proof (distinct_ranks_bound cards [u; v] Hnd Hpos) as Hb.
  simpl in Hb. rewrite Hu, Hv, Hlen in Hb.
  assert (forall w n, rankCount w cards = n -> (2 <= n)%nat -> n <> 3%nat -> False) as Hother.
  { intros w n Hw Hn2 Hn3.
    assert (w <> u) by (intros ->; congruence).
    assert (w <> v) by (intros ->; congruence).
    assert (NoDup [u; v; w]) as Hnd3 by nodup_small.
    assert (forall x, x ∈ [u; v; w] -> (0 < rankCount x cards)%nat) as Hpos3.
    { intros x Hx. repeat (apply elem_of_cons in Hx as [->|Hx]; [lia|]).
      by apply elem_of_nil in Hx. }
    pose proof (distinct_ranks_bound cards [u; v; w] Hnd3 Hpos3) as Hb3.
    pose proof (uniqueRanksOf_length_ge cards [u; v; w] Hnd3 Hpos3) as Hge.
    simpl in Hb3, Hge. rewrite Hu, Hv, Hw, Hlen in Hb3. lia. }
  assert (straightOf cards = false) as Hs by (apply few_ranks_no_straight; lia).
  assert (includes (objectValues (tally (ranksOf cards))) 4%nat = false) as H4.
  { apply includes_values_none; [lia|]. intros w Hw. apply (Hother w 4%nat); [done|lia..]. }
  assert (includes (objectValues (tally (ranksOf cards))) 2%nat = false) as H2.
  { apply includes_values_none; [lia|]. intros w Hw. apply (Hother w 2%nat); [done|lia..]. }
  assert (includes (objectValues (tally (ranksOf cards))) 3%nat = true) as H3
    by (apply (includes_values_some cards 3%nat u); [lia | done]).
  unfold classify. by rewrite Hs, Hflush, H4, H3, H2.
Qed.

Lemma two_triples_named_triple_witness :
  length twoTriples = 7%nat /\ 9%Z <> 5%Z /\
  rankCount 9 twoTriples = 3%nat /\ rankCount 5 twoTriples = 3%nat /\
  flushOf twoTriples = false /\
  rankName (evaluateHandRank twoTriples) = "Triple"%string.
Proof.
  assert (length twoTriples = 7%nat) as Hlen by reflexivity.
  assert (9%Z <> 5%Z) as Hne by discriminate.
  assert (rankCount 9 twoTriples = 3%nat) as H9 by (vm_compute; reflexivity).
  assert (rankCount 5 twoTriples = 3%nat) as H5 by (vm_compute; reflexivity).
  assert (flushOf twoTriples = false) as Hf by (vm_compute; reflexivity).
  repeat (split; [assumption|]).
  exact (two_triples_named_triple twoTriples 9 5 Hlen Hne H9 H5 Hf).
Defined.

(** X6: seven cards without a flush in which three different rank values
    occur twice each are named "One Pair", not "Two Pairs": the evaluator
    asks two pairs for exactly two rank values that occur twice. *)
Theorem three_pairs_named_one_pair (cards : list Card) (u v w : Z) :
  length cards = 7%nat -> u <> v -> u <> w -> v <> w ->
  rankCount u cards = 2%nat -> rankCount v cards = 2%nat -> rankCount w cards = 2%nat ->
  flushOf cards = false ->
  classify cards = "One Pair"%string.
Proof.
  intros Hlen Huv Huw Hvw Hu Hv Hw Hflush.
  assert (NoDup [u; v; w]) as Hnd by nodup_small.
  assert (forall x, x ∈ [u; v; w] -> (0 < rankCount x cards)%nat) as Hpos.
  { intros x Hx. repeat (apply elem_of_cons in Hx as [->|Hx]; [lia|]).
    by apply elem_of_nil in Hx. }
  pose proof (distinct_ranks_bound cards [u; v; w] Hnd Hpos) as Hb.
  simpl in Hb. rewrite Hu, Hv, Hw, Hlen in Hb.
  assert (forall x n, rankCount x cards = n -> (3 <= n)%nat -> False) as Hother.
  { intros x n Hx Hn.
    assert (x <> u) by (intros ->; lia).
    assert (x <> v) by (intros ->; lia).
    assert (x <> w) by (intros ->; lia).
    assert (NoDup [u; v; w; x]) as Hnd4 by nodup_small.
    assert (forall y, y ∈ [u; v; w; x] -> (0 < rankCount y cards)%nat) as Hpos4.
    { intros y Hy. repeat (apply elem_of_cons in Hy as [->|Hy]; [lia|]).
      by apply elem_of_nil in Hy. }
    pose proof (distinct_ranks_bound cards [u; v; w; x] Hnd4 Hpos4) as Hb4.
    pose proof (uniqueRanksOf_length_ge cards [u; v; w; x] Hnd4 Hpos4) as Hge.
    simpl in Hb4, Hge. rewrite Hu, Hv, Hw, Hx, Hlen in Hb4. lia. }
  assert (straightOf cards = false) as Hs by (apply few_ranks_no_straight; lia).
  assert (includes (objectValues (tally (ranksOf cards))) 4%nat = false) as H4.
  { apply includes_values_none; [lia|]. intros x Hx. apply (Hother x 4%nat); [done|lia]. }
  assert (includes (objectValues (tally (ranksOf cards))) 3%nat = false) as H3.
  { apply includes_values_none; [lia|]. intros x Hx. apply (Hother x 3%nat); [done|lia]. }
  assert (includes (objectValues (tally (ranksOf cards))) 2%nat = true) as H2
    by (apply (includes_values_some cards 2%nat u); [lia | done]).
  assert ((length (filter (fun n => n = 2%nat) (objectValues (tally (ranksOf cards))))
           =? 2)%nat = false) as Hpairs.
  { apply Nat.eqb_neq. rewrite objectValues_tally, length_filter_fmap.
    assert ([u; v; w] ⊆+ filter (fun k => occurrences k (ranksOf cards) = 2%nat)
                          (firstSeen (ranksOf cards))) as Hms.
    { apply NoDup_submseteq; [done|]. intros x Hx. apply list_elem_of_filter.
      rewrite occurrences_ranksOf, elem_of_firstSeen. split.
      - repeat (apply elem_of_cons in Hx as [->|Hx]; [done|]).
        by apply elem_of_nil in Hx.
      - apply occurrences_elem_of. rewrite occurrences_ranksOf. by apply Hpos. }
    apply submseteq_length in Hms. simpl in Hms. lia. }
  unfold classify. by rewrite Hs, Hflush, H4, H3, Hpairs, H2.
Qed.

Lemma three_pairs_named_one_pair_witness :
  length threePairs = 7%nat /\ 9%Z <> 5%Z /\ 9%Z <> 11%Z /\ 5%Z <> 11%Z /\
  rankCount 9 threePairs = 2%nat /\ rankCount 5 threePairs = 2%nat /\
  rankCount 11 threePairs = 2%nat /\ flushOf threePairs = false /\
  rankName (evaluateHandRank threePairs) = "One Pair"%string.
Proof.
  assert (length threePairs = 7%nat) as Hlen by reflexivity.
  assert (9%Z <> 5%Z) as Hne1 by discriminate.
  assert (9%Z <> 11%Z) as Hne2 by discriminate.
  assert (5%Z <> 11%Z) as Hne3 by discriminate.
  assert (rankCount 9 threePairs = 2%nat) as H9 by (vm_compute; reflexivity).
  assert (rankCount 5 threePairs = 2%nat) as H5 by (vm_compute; reflexivity).
  assert (rankCount 11 threePairs = 2%nat) as H11 by (vm_compute; reflexivity).
  assert (flushOf threePairs = false) as Hf by (vm_compute; reflexivity).
  repeat (split; [assumption|]).
  exact (three_pairs_named_one_pair threePairs 9 5 11 Hlen Hne1 Hne2 Hne3 H9 H5 H11 Hf).
Defined.

(** ** The straight, exactly *)

Lemma firstSeen_sorted (arr : list Z) :
  StronglySorted Z.le arr -> StronglySorted Z.lt (firstSeen arr).
Proof.
  induction arr as [|x arr IH] using rev_ind; intros Hs; [constructor|].
  apply StronglySorted_app in Hs as (Hle & Harr & _).
  rewrite firstSeen_snoc. destruct (decide (x ∈ firstSeen arr)) as [|Hout]; [by apply IH|].
  apply StronglySorted_app. split; [|split; [by apply IH | repeat constructor]].
  intros y x' Hy ->%list_elem_of_singleton.
  assert (y <= x)%Z by (apply Hle; [by apply elem_of_firstSeen | left]).
  assert (y <> x) by (by intros ->). lia.
Qed.

Lemma uniqueRanksOf_sorted (cards : list Card) :
  StronglySorted Z.lt (uniqueRanksOf cards).
Proof. apply firstSeen_sorted, sortAsc_sorted. Qed.

Lemma elem_of_uniqueRanksOf_iff (cards : list Card) (v : Z) :
  v ∈ uniqueRanksOf cards <-> v ∈ map rankValue cards.
Proof. apply firstSeen_ranksOf. Qed.

(** In an ascending list without repetition the greatest value comes last. *)
Lemma sorted_greatest_last (arr : list Z) (m : Z) :
  StronglySorted Z.lt arr -> m ∈ arr -> (forall w, w ∈ arr -> (w <= m)%Z) ->
  exists pre, arr = pre ++ [m] /\ StronglySorted Z.lt pre /\
              forall w, w ∈ pre -> (w <= m - 1)%Z.
Proof.
  intros Hs Hm Hmax.
  destruct (decide (arr = [])) as [->|Hne]; [by apply elem_of_nil in Hm|].
  apply last_is_Some in Hne as [x Hx]. apply last_Some in Hx as [pre ->].
  apply StronglySorted_app in Hs as (Hlt & Hpre & _).
  assert (forall w, w ∈ pre -> (w < x)%Z) as Hlt'
    by (intros w Hw; apply Hlt; [done | left]).
  assert (x = m) as ->.
  { apply elem_of_app in Hm as [Hm | ->%list_elem_of_singleton]; [|done].
    pose proof (Hlt' m Hm). pose proof (Hmax x ltac:(apply elem_of_app; right; left)). lia. }
  exists pre. split; [done|]. split; [done|]. intros w Hw. pose proof (Hlt' w Hw). lia.
Qed.

Lemma elem_of_runTo (m x : Z) (n : nat) :
  x ∈ runTo m n -> (m - Z.of_nat n < x <= m)%Z.
Proof.
  induction n as [|n IH]; simpl; [by intros ?%elem_of_nil|].
  intros [->|Hx]%elem_of_cons; [lia|]. apply IH in Hx. lia.
Qed.

(** An ascending list without repetition that holds the [n] values ending at
    its greatest value [m] ends with them. *)
Lemma sorted_ends_with_run (arr : list Z) (m : Z) (n : nat) :
  StronglySorted Z.lt arr -> (forall w, w ∈ arr -> (w <= m)%Z) ->
  (forall k, (k < n)%nat -> (m - Z.of_nat k)%Z ∈ arr) ->
  exists pre, arr = pre ++ runTo m n /\ StronglySorted Z.lt pre /\
              forall w, w ∈ pre -> (w <= m - Z.of_nat n)%Z.
Proof.
  intros Hs Hmax. induction n as [|n IH]; intros Hrun.
  - exists arr. rewrite app_nil_r. split; [done|]. split; [done|].
    intros w Hw. pose proof (Hmax w Hw). simpl. lia.
  - destruct IH as (pre & E & Hpre & Hle); [intros k Hk; apply Hrun; lia|].
    assert ((m - Z.of_nat n)%Z ∈ pre) as Hin.
    { pose proof (Hrun n ltac:(lia)) as Hn. rewrite E in Hn.
      apply elem_of_app in Hn as [|Hn]; [done|]. apply elem_of_runTo in Hn. lia. }
    destruct (sorted_greatest_last pre (m - Z.of_nat n)%Z Hpre Hin Hle)
      as (pre' & -> & Hpre' & Hle').
    exists pre'. split; [by rewrite E, <- app_assoc|]. split; [done|].
    intros w Hw. pose proof (Hle' w Hw). lia.
Qed.

Lemma every_consecutive_run (m : Z) :
  every consecutive [m - 4; m - 3; m - 2; m - 1; m]%Z = true.
Proof.
  unfold every, consecutive. simpl.
  repeat (apply andb_true_iff; split; [apply Z.eqb_eq; lia|]). done.
Qed.

(** X7: the evaluator finds a straight exactly when the five rank values
    that end at the highest rank value of the hand are all among the cards:
    only the run at the top of the hand counts. *)
Theorem straightOf_top_run (cards : list Card) :
  straightOf cards = true
  <-> exists m, (forall c, c ∈ cards -> (rankValue c <= m)%Z) /\
                forall k, (0 <= k <= 4)%Z -> (m - k)%Z ∈ map rankValue cards.
Proof.
  pose proof (uniqueRanksOf_sorted cards) as Hs. split.
  - intros Hst. pose proof Hst as Hst'.
    unfold straightOf in Hst'. apply andb_true_iff in Hst' as [Hlen Hev].
    apply Nat.leb_le in Hlen.
    destruct (every_consecutive_five (sliceLast 5 (uniqueRanksOf cards))) as [v Hv];
      [unfold sliceLast; rewrite length_drop; lia | done |].
    assert (uniqueRanksOf cards
            = take (length (uniqueRanksOf cards) - 5) (uniqueRanksOf cards)
              ++ [v; v + 1; v + 2; v + 3; v + 4]%Z) as Hsplit
      by (rewrite <- Hv; unfold sliceLast; by rewrite take_drop).
    exists (v + 4)%Z. split.
    + intros c Hc.
      assert (rankValue c ∈ uniqueRanksOf cards) as Hin
        by (apply elem_of_uniqueRanksOf_iff, list_elem_of_fmap; eauto).
      rewrite Hsplit in Hin, Hs. apply StronglySorted_app in Hs as (Hlt & _ & _).
      apply elem_of_app in Hin as [Hin | Hin].
      * pose proof (Hlt _ (v + 4)%Z Hin
                      ltac:(repeat first [apply list_elem_of_here | apply list_elem_of_further])).
        lia.
      * repeat (apply elem_of_cons in Hin as [->|Hin]; [lia|]).
        by apply elem_of_nil in Hin.
    + intros k Hk. apply elem_of_uniqueRanksOf_iff. rewrite Hsplit.
      apply elem_of_app. right.
      assert (k = 0 \/ k = 1 \/ k = 2 \/ k = 3 \/ k = 4)%Z as Hcase by lia.
      destruct Hcase as [-> | [-> | [-> | [-> | ->]]]];
        [replace (v + 4 - 0)%Z with (v + 4)%Z by lia
        |replace (v + 4 - 1)%Z with (v + 3)%Z by lia
        |replace (v + 4 - 2)%Z with (v + 2)%Z by lia
        |replace (v + 4 - 3)%Z with (v + 1)%Z by lia
        |replace (v + 4 - 4)%Z with v by lia];
        repeat first [apply list_elem_of_here | apply list_elem_of_further].
  - intros (m & Hmax & Hrun).
    assert (forall w, w ∈ uniqueRanksOf cards -> (w <= m)%Z) as Hmax'.
    { intros w Hw. apply elem_of_uniqueRanksOf_iff, list_elem_of_fmap in Hw as (c & -> & Hc).
      by apply Hmax. }
    destruct (sorted_ends_with_run (uniqueRanksOf cards) m 5 Hs Hmax')
      as (pre & E & _ & _).
    { intros k Hk. apply elem_of_uniqueRanksOf_iff, Hrun. lia. }
    assert (runTo m 5 = [m - 4; m - 3; m - 2; m - 1; m]%Z) as Erun
      by (cbn; by rewrite Z.sub_0_r).
    rewrite Erun in E.
    unfold straightOf, sliceLast. rewrite E, length_app. apply andb_true_iff. split.
    + apply Nat.leb_le. simpl. lia.
    + replace (length pre + length [m - 4; m - 3; m - 2; m - 1; m]%Z - 5)%nat
        with (length pre) by (simpl; lia).
      rewrite drop_app_length. apply every_consecutive_run.
Qed.

Example low_run_under_a_king_is_no_straight :
  straightOf [mkCard R2 Spade; mkCard R3 Heart; mkCard R4 Diamond; mkCard R5 Club;
              mkCard R6 Spade; mkCard RK Heart] = false.
Proof. vm_compute. reflexivity. Qed.

(** ** The strength *)

Lemma fold_max_greatest (arr : list Z) (v : Z) :
  (fold_left Z.max arr v = v \/ fold_left Z.max arr v ∈ arr) /\
  (v <= fold_left Z.max arr v)%Z /\
  forall w, w ∈ arr -> (w <= fold_left Z.max arr v)%Z.
Proof.
  revert v. induction arr as [|x arr IH]; intros v; simpl.
  - split; [by left|]. split; [lia|]. by intros w ?%elem_of_nil.
  - destruct (IH (Z.max v x)) as (Hin & Hge & Hall). split; [|split].
    + destruct Hin as [Hin|Hin]; [|right; by right].
      rewrite Hin. destruct (Z.max_spec v x) as [[_ ->]|[_ ->]]; [right; left | by left].
    + lia.
    + intros w [->|Hw]%elem_of_cons; [lia | by apply Hall].
Qed.

(** X8: the strength of a hand that is not empty is the position of its name
    in [rankOrder] plus a hundredth of the rank value of its highest card, a
    value from 2 to 14. *)
Theorem strength_is_index_plus_top (cards : list Card) :
  cards <> [] ->
  exists top : Z,
    top ∈ map rankValue cards /\
    (forall c, c ∈ cards -> (rankValue c <= top)%Z) /\
    (2 <= top <= 14)%Z /\
    strength (evaluateHandRank cards)
    = Finite (inject_Z (indexOf rankOrder (classify cards)) + inject_Z top / 100).
Proof.
  intros Hne. destruct (strength_formula cards Hne) as (top & Htop & Hstr).
  destruct (top_rank_bounds cards Hne) as (top' & Htop' & Hb).
  rewrite Htop in Htop'. injection Htop' as <-.
  exists top. 
  assert (top ∈ ranksOf cards /\ forall w, w ∈ ranksOf cards -> (w <= top)%Z) as [Hin Hmax].
  { destruct (ranksOf cards) as [|v arr]; [discriminate Htop|].
    simpl in Htop. injection Htop as <-.
    destruct (fold_max_greatest arr v) as (Hin & Hge & Hall). split.
    - destruct Hin as [->|Hin]; [left | by right].
    - intros w [->|Hw]%elem_of_cons; [done | by apply Hall]. }
  split; [by rewrite <- ranksOf_Permutation|]. split; [|done].
  intros c Hc. apply Hmax. rewrite ranksOf_Permutation. apply list_elem_of_fmap; eauto.
Qed.

Lemma strength_is_index_plus_top_witness :
  wheel <> [] /\
  strength (evaluateHandRank wheel) = Finite (inject_Z 0 + inject_Z 14 / 100).
Proof.
  assert (wheel <> []) as Hne by discriminate.
  split; [exact Hne|].
  destruct (strength_is_index_plus_top wheel Hne) as (top & Hin & Hmax & _ & ->).
  assert (top = 14%Z) as ->.
  { pose proof (Hmax (mkCard RA Spade) ltac:(left)) as Hge.
    change (rankValue (mkCard RA Spade)) with 14%Z in Hge.
    change (map rankValue wheel) with [14; 2; 3; 4; 5]%Z in Hin.
    repeat (apply elem_of_cons in Hin as [->|Hin]; [lia|]). by apply elem_of_nil in Hin. }
  reflexivity.
Defined.

(** X9: between two hands that are not empty, the one whose name stands
    earlier in [rankOrder] has the smaller strength, whatever the cards: the
    kicker never makes up for a position.  ("Four Cards", which is not in
    [rankOrder], has position -1.) *)
Theorem position_dominates_kicker (low high : list Card) :
  low <> [] -> high <> [] ->
  (indexOf rankOrder (classify low) < indexOf rankOrder (classify high))%Z ->
  numLt (strength (evaluateHandRank low)) (strength (evaluateHandRank high)).
Proof.
  intros Hl Hh Hlt.
  destruct (strength_formula low Hl) as (tl & Htl & ->).
  destruct (strength_formula high Hh) as (th & Hth & ->).
  destruct (top_rank_bounds low Hl) as (tl' & Htl' & Hbl).
  destruct (top_rank_bounds high Hh) as (th' & Hth' & Hbh).
  rewrite Htl in Htl'. injection Htl' as <-.
  rewrite Hth in Hth'. injection Hth' as <-.
  simpl. unfold Qlt, Qplus, Qdiv, Qmult, Qinv, inject_Z. simpl. lia.
Qed.

Lemma position_dominates_kicker_witness :
  wheel <> [] /\ threePairs <> [] /\
  (indexOf rankOrder (classify wheel) < indexOf rankOrder (classify threePairs))%Z /\
  numLt (strength (evaluateHandRank wheel)) (strength (evaluateHandRank threePairs)).
Proof.
  assert (wheel <> []) as Hl by discriminate.
  assert (threePairs <> []) as Hh by discriminate.
  assert (indexOf rankOrder (classify wheel) < indexOf rankOrder (classify threePairs))%Z
    as Hlt by (vm_compute; reflexivity).
  split; [exact Hl|]. split; [exact Hh|]. split; [exact Hlt|].
  exact (position_dominates_kicker wheel threePairs Hl Hh Hlt).
Defined.

(** * Further properties of the deck and of the view *)

Lemma orderedDeck_complete (c : Card) : c ∈ orderedDeck.
Proof.
  destruct c as [r st].
  destruct r, st; apply (bool_decide_unpack (_ ∈ orderedDeck)); vm_compute; exact I.
Qed.

(** X1: whatever indices the shuffle draws, [freshDeck] returns the 52 cards,
    one for every rank and suit, each exactly once. *)
Theorem freshDeck_full_deck (draw : nat -> nat) :
  freshDeck draw ≡ₚ orderedDeck /\
  length (freshDeck draw) = 52%nat /\
  NoDup (freshDeck draw) /\
  forall r st, mkCard r st ∈ freshDeck draw.
Proof.
  pose proof (freshDeck_Permutation draw) as Hperm.
  split; [done|]. split; [by rewrite Hperm|]. split.
  - rewrite Hperm. apply orderedDeck_NoDup.
  - intros r st. rewrite Hperm. apply orderedDeck_complete.
Qed.

Lemma handHidden_replicate (cards : list Slot) (hideCpu : bool) :
  handHidden cards hideCpu = replicate (length cards) hideCpu.
Proof.
  unfold handHidden. apply list_eq. intros i. rewrite list_lookup_imap.
  destruct (cards !! i) as [c|] eqn:E; simpl.
  - pose proof (lookup_lt_Some _ _ _ E) as Hlt.
    rewrite lookup_replicate_2 by done.
    apply Nat.ltb_lt in Hlt. rewrite Hlt. by rewrite andb_true_r.
  - apply lookup_ge_None in E. symmetry. by apply lookup_replicate_None.
Qed.

(** X24: whatever indices the shuffle draws, the colour rule of the card
    view draws exactly half of the deck, 26 cards, in red. *)
Theorem half_of_the_deck_is_red (draw : nat -> nat) :
  length (filter (fun c => red c = true) (freshDeck draw)) = 26%nat.
Proof. rewrite (freshDeck_Permutation draw). by vm_compute. Qed.

(** X19: every card of the opponent's hand is rendered face down in every
    stage but the showdown, where every one is face up; the player's cards
    are never rendered face down. *)
Theorem opponent_cards_hidden_until_showdown (s : State) :
  cpuHidden s = replicate (length (cpu s)) (negb (bool_decide (stage s = showdown))) /\
  playerHidden s = replicate (length (player s)) false.
Proof. unfold cpuHidden, playerHidden. by rewrite !handHidden_replicate. Qed.

(** * Further properties of the round *)

(** ** Refusals *)


(** ** Game over *)

(** X11: in a ready state in which a stack is not positive, nothing the
    interface offers changes the stage, the stacks, the pot or the deck:
    every deal only sets the game-over message. *)
Theorem game_over_is_final (s : State) (actions : list Action) :
  stage s = ready -> playerChips s <= 0 \/ cpuChips s <= 0 ->
  offeredAll s actions ->
  stage (steps s actions) = ready /\
  playerChips (steps s actions) = playerChips s /\
  cpuChips (steps s actions) = cpuChips s /\
  pot (steps s actions) = pot s /\
  deck (steps s actions) = deck s /\
  (actions <> [] -> message (steps s actions) = MsgGameOver).
Proof.
  intros Hst Hbroke. revert s Hst Hbroke.
  induction actions as [|a actions IH]; intros s Hst Hbroke Hoff; [done|].
  destruct Hoff as [Ha Hrest].
  assert (a = PressDeal) as ->.
  { destruct a as [|random|random| |draw|v]; simpl in Ha; [done|..].
    - destruct Ha as [Ha _]. congruence.
    - destruct Ha as [Ha _]. congruence.
    - congruence.
    - destruct Ha as [[Ha|Ha] _]; congruence.
    - congruence. }
  assert (deal s = [SetMessage MsgGameOver]) as Hdeal.
  { unfold deal.
    destruct Hbroke as [Hb|Hb]; apply Qle_bool_iff in Hb; rewrite Hb;
      by rewrite ?orb_true_r. }
  assert (step s PressDeal = applyUpdate s (SetMessage MsgGameOver)) as Hstep
    by (unfold step, handler; by rewrite Hdeal).
  simpl. rewrite Hstep in *.
  destruct (IH (applyUpdate s (SetMessage MsgGameOver)) Hst Hbroke Hrest)
    as (H1 & H2 & H3 & H4 & H5 & H6).
  repeat (split; [done|]). intros _.
  destruct actions as [|a' actions']; [done|]. by apply H6.
Qed.

Lemma game_over_is_final_witness :
  stage bankrupt = ready /\ (playerChips bankrupt <= 0 \/ cpuChips bankrupt <= 0) /\
  offeredAll bankrupt [PressDeal; PressDeal] /\
  stage (steps bankrupt [PressDeal; PressDeal]) = ready /\
  message (steps bankrupt [PressDeal; PressDeal]) = MsgGameOver.
Proof.
  assert (stage bankrupt = ready) as Hst by reflexivity.
  assert (playerChips bankrupt <= 0 \/ cpuChips bankrupt <= 0) as Hb
    by (left; vm_compute; discriminate).
  assert (offeredAll bankrupt [PressDeal; PressDeal]) as Hoff
    by (split; [reflexivity | split; [reflexivity | exact I]]).
  split; [exact Hst|]. split; [exact Hb|]. split; [exact Hoff|].
  destruct (game_over_is_final bankrupt [PressDeal; PressDeal] Hst Hb Hoff)
    as (H1 & _ & _ & _ & _ & H6).
  split; [exact H1 | apply H6; discriminate].
Defined.

(** ** Queues that leave the cards alone *)

Lemma evaluateWinner_keepsCards s : keepsCards (evaluateWinner s).
Proof.
  intros s0. unfold evaluateWinner.
  destruct (evaluateSlots (player s ++ community s)) as [pe|]; [|done].
  destruct (evaluateSlots (cpu s ++ community s)) as [ce|]; [|done].
  by destruct (numLtb _ _); [|destruct (numLtb _ _)].
Qed.

(** The three outcomes of a showdown on defined cards. *)
Lemma evaluateWinner_award s s0 pe ce :
  evaluateSlots (player s ++ community s) = Some pe ->
  evaluateSlots (cpu s ++ community s) = Some ce ->
  let w := run (evaluateWinner s) s0 in
  (numLt (strength ce) (strength pe) ->
     playerChips w = playerChips s0 + pot s /\ cpuChips w = cpuChips s0 /\
     message w = MsgYouWin (rankName pe)) /\
  (~ numLt (strength ce) (strength pe) -> numLt (strength pe) (strength ce) ->
     playerChips w = playerChips s0 /\ cpuChips w = cpuChips s0 + pot s /\
     message w = MsgCpuWins (rankName ce)) /\
  (~ numLt (strength ce) (strength pe) -> ~ numLt (strength pe) (strength ce) ->
     playerChips w = playerChips s0 + pot s / 2 /\
     cpuChips w = cpuChips s0 + pot s / 2 /\
     message w = MsgDraw (rankName pe)).
Proof.
  intros Hp Hc w. subst w. unfold evaluateWinner. rewrite Hp, Hc.
  destruct (numLtb (strength ce) (strength pe)) eqn:E1;
    [|destruct (numLtb (strength pe) (strength ce)) eqn:E2].
  - apply numLtb_lt in E1. repeat split; done.
  - apply numLtb_lt in E2.
    assert (~ numLt (strength ce) (strength pe)) as Hn
      by (intros H%numLtb_lt; congruence).
    repeat split; done.
  - assert (~ numLt (strength ce) (strength pe)) as Hn1
      by (intros H%numLtb_lt; congruence).
    assert (~ numLt (strength pe) (strength ce)) as Hn2
      by (intros H%numLtb_lt; congruence).
    repeat split; done.
Qed.

Lemma nextStage_late s s0 :
  (5 <= length (community s))%nat ->
  deck (run (nextStage s) s0) = deck s0 /\ player (run (nextStage s) s0) = player s0 /\
  cpu (run (nextStage s) s0) = cpu s0 /\
  community (run (nextStage s) s0) = community s0 /\
  bet (run (nextStage s) s0) = bet s0.
Proof. intros Hge. rewrite nextStage_river by done. apply evaluateWinner_keepsCards. Qed.

Lemma nextStage_bet s s0 : bet (run (nextStage s) s0) = bet s0.
Proof.
  destruct (Nat.lt_ge_cases (length (community s)) 5) as [Hlt|Hge].
  - unfold nextStage.
    destruct (Nat.ltb_spec (length (community s)) 3).
    + by repeat destruct (pop _).
    + destruct (Nat.ltb_spec (length (community s)) 5); [|lia].
      by repeat destruct (pop _).
  - by destruct (nextStage_late s s0 Hge) as (_ & _ & _ & _ & ->).
Qed.

Lemma nextStage_hands s s0 :
  player (run (nextStage s) s0) = player s0 /\ cpu (run (nextStage s) s0) = cpu s0.
Proof.
  destruct (Nat.lt_ge_cases (length (community s)) 5) as [Hlt|Hge].
  - unfold nextStage.
    destruct (Nat.ltb_spec (length (community s)) 3).
    + by repeat destruct (pop _).
    + destruct (Nat.ltb_spec (length (community s)) 5); [|lia].
      by repeat destruct (pop _).
  - by destruct (nextStage_late s s0 Hge) as (_ & -> & -> & _).
Qed.

(** The opponent's answer to a check, up to [nextStage]. *)
Lemma handleCheck_queue s random ce :
  stage s = playing -> evaluateSlots (cpu s ++ community s) = Some ce ->
  handleCheck s random
  = SetMessage MsgYouCheck
    :: (if Qltb (random 0%nat) (1 # 10)
        then [SetCpuChips (fun c => c - bet s); SetPot (fun p => p + bet s);
              SetMessage MsgCpuBluffs]
        else if numLtb (Finite 5) (strength ce) && Qltb (random 1%nat) (1 # 2)
        then [SetCpuChips (fun c => c - bet s); SetPot (fun p => p + bet s);
              SetMessage MsgCpuRaises]
        else [SetMessage MsgCpuChecks])
    ++ nextStage s.
Proof.
  intros Hst Hce. unfold handleCheck, cpuDecision.
  rewrite decide_True by done. by rewrite Hce.
Qed.

(** The opponent's answer to a raise the player can pay, up to
    [nextStage]. *)
Lemma handleRaise_queue s random ce :
  stage s = playing -> Qle_bool (bet s) (playerChips s) = true ->
  evaluateSlots (cpu s ++ community s) = Some ce ->
  handleRaise s random
  = [SetPlayerChips (fun c => c - bet s); SetPot (fun p => p + bet s);
     SetMessage (MsgYouRaise (bet s))]
    ++ (if numLtb (Finite 5) (strength ce) || Qltb (random 0%nat) (25 # 100)
        then if Qle_bool (bet s) (cpuChips s)
             then [SetCpuChips (fun c => c - bet s); SetPot (fun p => p + bet s);
                   SetMessage MsgCpuCalls] ++ nextStage s
             else [SetMessage MsgCpuCantAfford;
                   SetPlayerChips (fun c => c + pot s + bet s); SetStage folded]
        else [SetMessage MsgCpuFolds;
              SetPlayerChips (fun c => c + pot s + bet s); SetStage folded]).
Proof.
  intros Hst Hbet Hce. unfold handleRaise, cpuDecision.
  rewrite bool_decide_eq_true_2 by done. by rewrite Hbet, Hce.
Qed.

Lemma checksBack_false ce random :
  ~ checksBack ce random ->
  Qltb (random 0%nat) (1 # 10)
  || numLtb (Finite 5) (strength ce) && Qltb (random 1%nat) (1 # 2) = true.
Proof.
  intros Hno.
  destruct (Qltb (random 0%nat) (1 # 10)) eqn:E0; [done|].
  destruct (numLtb (Finite 5) (strength ce) && Qltb (random 1%nat) (1 # 2)) eqn:E1; [done|].
  exfalso. apply Hno. split.
  - intros H%Qltb_lt. congruence.
  - intros [H1%numLtb_lt H2%Qltb_lt]. rewrite H1, H2 in E1. discriminate.
Qed.

Lemma checksBack_true ce random :
  checksBack ce random ->
  Qltb (random 0%nat) (1 # 10) = false /\
  numLtb (Finite 5) (strength ce) && Qltb (random 1%nat) (1 # 2) = false.
Proof.
  intros [H0 H1]. split.
  - destruct (Qltb (random 0%nat) (1 # 10)) eqn:E0; [|done].
    by apply Qltb_lt in E0.
  - destruct (numLtb (Finite 5) (strength ce) && Qltb (random 1%nat) (1 # 2)) eqn:E1; [|done].
    apply andb_true_iff in E1 as [E1%numLtb_lt E2%Qltb_lt]. by destruct H1.
Qed.

Lemma nextStage_early_message s s0 :
  (length (community s) < 5)%nat -> message (run (nextStage s) s0) = message s0.
Proof.
  intros Hlt. unfold nextStage.
  destruct (Nat.ltb_spec (length (community s)) 3).
  - by repeat destruct (pop _).
  - destruct (Nat.ltb_spec (length (community s)) 5); [|lia].
    by repeat destruct (pop _).
Qed.

(** ** The opponent's answer to a check *)

(** X14: in the playing stage, on defined cards and before the river, a check
    costs the player nothing and keeps the round playing; the opponent
    bluffs when the first draw is below 0.1, raises when it is not, the hand
    is stronger than 5 and the second draw is below 0.5, and checks
    otherwise.  A bluff and a raise move the bet unit from the opponent's
    stack to the pot; a check moves no chips. *)
Theorem check_is_answered s random ce :
  stage s = playing ->
  evaluateSlots (cpu s ++ community s) = Some ce ->
  (length (community s) < 5)%nat ->
  let s' := step s (PressCheck random) in
  stage s' = playing /\ playerChips s' = playerChips s /\
  (random 0%nat < 1 # 10 ->
     cpuChips s' = cpuChips s - bet s /\ pot s' = pot s + bet s /\
     message s' = MsgCpuBluffs) /\
  (~ random 0%nat < 1 # 10 ->
   numLt (Finite 5) (strength ce) /\ random 1%nat < 1 # 2 ->
     cpuChips s' = cpuChips s - bet s /\ pot s' = pot s + bet s /\
     message s' = MsgCpuRaises) /\
  (checksBack ce random ->
     cpuChips s' = cpuChips s /\ pot s' = pot s /\ message s' = MsgCpuChecks).
Proof.
  intros Hst Hce Hlt s'. subst s'. unfold step, handler.
  rewrite (handleCheck_queue s random ce Hst Hce), run_cons, run_app.
  set (mid := run _ (applyUpdate s (SetMessage MsgYouCheck))).
  destruct (nextStage_early_chips s mid Hlt) as (Hpc & Hcc & Hpot & Hstage).
  rewrite Hpc, Hcc, Hpot, Hstage, (nextStage_early_message s mid Hlt).
  subst mid.
  destruct (Qltb (random 0%nat) (1 # 10)) eqn:E0;
    [|destruct (numLtb (Finite 5) (strength ce) && Qltb (random 1%nat) (1 # 2)) eqn:E1];
    cbn [run fold_left applyUpdate stage playerChips cpuChips pot message];
    (split; [done|]); (split; [done|]).
  - split; [done|]. apply Qltb_lt in E0. split; [done|].
    by intros [H0 _].
  - apply andb_true_iff in E1 as [E1%numLtb_lt E2%Qltb_lt].
    split; [intros H%Qltb_lt; congruence|]. split; [done|].
    intros [_ H1]. by destruct H1.
  - split; [intros H%Qltb_lt; congruence|]. split; [|done].
    intros _ [H1%numLtb_lt H2%Qltb_lt]. rewrite H1, H2 in E1. discriminate.
Qed.

Lemma check_is_answered_witness :
  stage firstDeal = playing /\
  evaluateSlots (cpu firstDeal ++ community firstDeal) = Some queenHigh /\
  (length (community firstDeal) < 5)%nat /\
  alwaysBluff 0%nat < 1 # 10 /\
  stage (step firstDeal (PressCheck alwaysBluff)) = playing /\
  cpuChips (step firstDeal (PressCheck alwaysBluff)) = cpuChips firstDeal - bet firstDeal /\
  message (step firstDeal (PressCheck alwaysBluff)) = MsgCpuBluffs.
Proof.
  assert (stage firstDeal = playing) as Hst by (vm_compute; reflexivity).
  assert (evaluateSlots (cpu firstDeal ++ community firstDeal) = Some queenHigh)
    as Hce by (vm_compute; reflexivity).
  assert (length (community firstDeal) < 5)%nat as Hlt by (vm_compute; lia).
  assert (alwaysBluff 0%nat < 1 # 10) as Hr by reflexivity.
  split; [exact Hst|]. split; [exact Hce|]. split; [exact Hlt|]. split; [exact Hr|].
  destruct (check_is_answered firstDeal alwaysBluff queenHigh Hst Hce Hlt)
    as (Hs & _ & Hbluff & _).
  destruct (Hbluff Hr) as (Hc & _ & Hm).
  split; [exact Hs|]. split; [exact Hc | exact Hm].
Defined.

(** ** The stages *)

(** X12: every action the interface offers leads from ready to ready or
    playing (deal), from playing to playing or showdown (check), to playing,
    showdown or folded (raise), to folded (fold), or from showdown and folded
    back to ready (reset); typing a bet leaves the stage at playing. *)
Theorem offered_action_leads_to (s : State) (a : Action) :
  offered s a -> leadsTo a (stage s) (stage (step s a)).
Proof. apply offered_leadsTo. Qed.

Lemma offered_action_leads_to_witness :
  offered firstDeal (PressRaise neverBluff) /\
  leadsTo (PressRaise neverBluff) (stage firstDeal)
          (stage (step firstDeal (PressRaise neverBluff))) /\
  stage (step firstDeal (PressRaise neverBluff)) = folded.
Proof.
  assert (offered firstDeal (PressRaise neverBluff)) as Hoff.
  { split; [vm_compute; reflexivity|]. intros n. split; [discriminate | reflexivity]. }
  split; [exact Hoff|].
  split; [exact (offered_action_leads_to firstDeal (PressRaise neverBluff) Hoff)|].
  vm_compute. reflexivity.
Defined.

(** ** The cards of a round *)

Lemma dealt_sameCards s s' : sameCards s s' -> dealt s -> dealt s'.
Proof.
  intros (Hd & Hp & Hc & Hm) (ph & ch & cm & H). exists ph, ch, cm.
  by rewrite Hd, Hp, Hc, Hm.
Qed.

Lemma dealt_board_length s :
  dealt s ->
  (length (community s) = 0 \/ length (community s) = 3 \/
   length (community s) = 4 \/ length (community s) = 5)%nat.
Proof.
  intros (ph & ch & cm & _ & _ & Hm & _ & _ & Hlen & _).
  by rewrite Hm, length_fmap.
Qed.

Lemma evaluateWinner_message s s0 pe ce :
  evaluateSlots (player s ++ community s) = Some pe ->
  evaluateSlots (cpu s ++ community s) = Some ce ->
  message (run (evaluateWinner s) s0) = showdownMessage pe ce.
Proof.
  intros Hp Hc. unfold evaluateWinner, showdownMessage. rewrite Hp, Hc.
  by destruct (numLtb _ _); [|destruct (numLtb _ _)].
Qed.

(** [nextStage] on the cards of a round, run after updates that left the
    cards and the stage alone: when it ends the playing stage, the cards stay
    and the board was full. *)
Lemma nextStage_ends_round s mid :
  dealt s -> sameCards s mid -> stage mid = playing ->
  stage (run (nextStage s) mid) <> playing ->
  sameCards s (run (nextStage s) mid) /\
  stage (run (nextStage s) mid) = showdown /\
  length (community s) = 5%nat /\
  exists pe ce,
    evaluateSlots (player s ++ community s) = Some pe /\
    evaluateSlots (cpu s ++ community s) = Some ce /\
    message (run (nextStage s) mid) = showdownMessage pe ce.
Proof.
  intros Hd (Hdk & Hp & Hc & Hm) Hst Hne.
  destruct (Nat.lt_ge_cases (length (community s)) 5) as [Hlt|Hge].
  { destruct (nextStage_early_chips s mid Hlt) as (_ & _ & _ & Hs). congruence. }
  destruct (nextStage_late s mid Hge) as (Hdk' & Hp' & Hc' & Hm' & _).
  split; [unfold sameCards; by rewrite Hdk', Hp', Hc', Hm'|].
  destruct (dealt_evaluates s Hd) as (ph & ch & cm & _ & _ & _ & Hpe & Hce).
  rewrite nextStage_river in * by done.
  destruct (evaluateWinner_settles s mid _ _ Hpe Hce) as (Hs & _).
  split; [done|]. split; [destruct (dealt_board_length s Hd) as [?|[?|[?|?]]]; lia|].
  eexists _, _. split; [done|]. split; [done|]. by apply evaluateWinner_message.
Qed.

Lemma sameCards_refl s : sameCards s s.
Proof. by repeat split. Qed.

(** From the playing stage, an action that leaves it leaves the cards. *)
Lemma leaving_playing_keeps_cards s a :
  dealt s -> stage s = playing -> offered s a ->
  stage (step s a) <> playing ->
  sameCards s (step s a) /\
  (stage (step s a) = showdown ->
     length (community s) = 5%nat /\
     exists pe ce,
       evaluateSlots (player s ++ community s) = Some pe /\
       evaluateSlots (cpu s ++ community s) = Some ce /\
       message (step s a) = showdownMessage pe ce).
Proof.
  intros Hd Hst Hoff Hne.
  destruct (dealt_evaluates s Hd) as (ph & ch & cm & _ & _ & _ & _ & Hce).
  destruct a as [|random|random| |draw|v]; simpl in Hoff; unfold step, handler in *.
  - congruence.
  - rewrite (handleCheck_queue s random _ Hst Hce), run_cons, run_app in *.
    match type of Hne with
    | context [run (nextStage s) ?m] => set (mid := m) in *
    end.
    assert (sameCards s mid /\ stage mid = playing) as [Hsame Hmid].
    { subst mid. destruct (Qltb _ _); [|destruct (_ && _)]; by repeat split. }
    destruct (nextStage_ends_round s mid Hd Hsame Hmid Hne) as (H1 & H2 & H3 & H4).
    split; [done|]. intros _. by split.
  - destruct (Qle_bool (bet s) (playerChips s)) eqn:Ebet.
    2:{ exfalso. apply Hne. unfold handleRaise. rewrite Ebet, andb_false_r. done. }
    rewrite (handleRaise_queue s random _ Hst Ebet Hce) in *.
    destruct (numLtb (Finite 5) (strength _) || Qltb (random 0%nat) (25 # 100));
      [destruct (Qle_bool (bet s) (cpuChips s))|].
    + rewrite run_app, run_app in *.
      match type of Hne with
      | context [run (nextStage s) ?m] => set (mid := m) in *
      end.
      assert (sameCards s mid) as Hsame by (by repeat split).
      assert (stage mid = playing) as Hmid by done.
      destruct (nextStage_ends_round s mid Hd Hsame Hmid Hne) as (H1 & H2 & H3 & H4).
      split; [done|]. intros _. by split.
    + split; [by repeat split|]. simpl. discriminate.
    + split; [by repeat split|]. simpl. discriminate.
  - split; [by repeat split|]. simpl. discriminate.
  - destruct Hoff as [[?|?] _]; congruence.
  - by destruct Hne.
Qed.

Lemma reachable_cardsInv s : reachable s -> cardsInv s.
Proof.
  induction 1 as [draw Hdraw | s a Hr IH Hoff]; [by intros Hne|].
  intros Hne.
  pose proof (step_preserves s a (reachable_roundInv s Hr) Hoff) as Hinv.
  pose proof (offered_leadsTo s a Hoff) as Hlead.
  destruct (decide (stage (step s a) = playing)) as [Hp|Hnp].
  { unfold roundInv in Hinv. rewrite Hp in Hinv. split; [done|]. congruence. }
  assert (stage s = playing) as Hst.
  { destruct a; simpl in Hlead; destruct Hlead as [Hfrom Hto]; try done.
    exfalso. destruct Hto; congruence. }
  destruct (IH ltac:(congruence)) as [Hd _].
  destruct (leaving_playing_keeps_cards s a Hd Hst Hoff Hnp) as (Hsame & Hshow).
  split; [by apply (dealt_sameCards s)|].
  intros Hsd. destruct (Hshow Hsd) as (Hlen & pe & ce & Hpe & Hce' & Hmsg).
  destruct Hsame as (_ & Hp' & Hc' & Hm').
  rewrite Hp', Hc', Hm'. split; [done|]. by exists pe, ce.
Qed.

(** X17: from the deal to the reset, in every reachable state, the cards of
    the deck, the two hole cards of each hand and the community cards are
    all defined and are different cards of the 52: no card is in two places
    or comes up twice.  The deck holds at most 48 cards less the community
    cards. *)
Theorem cards_in_play_are_distinct (s : State) :
  reachable s -> stage s <> ready ->
  exists ph ch cm : list Card,
    player s = Some <$> ph /\ cpu s = Some <$> ch /\ community s = Some <$> cm /\
    length ph = 2%nat /\ length ch = 2%nat /\
    deck s ++ ph ++ ch ++ cm ⊆+ orderedDeck /\
    NoDup (deck s ++ ph ++ ch ++ cm) /\
    (length (deck s) + length cm <= 48)%nat.
Proof.
  intros Hr Hne. destruct (reachable_cardsInv s Hr Hne) as [Hd _].
  destruct Hd as (ph & ch & cm & Hp & Hc & Hm & Hlp & Hlc & Hlm & Hperm).
  exists ph, ch, cm. repeat (split; [done|]).
  split; [by apply Permutation_submseteq|]. split.
  - rewrite Hperm. apply orderedDeck_NoDup.
  - by rewrite (dealt_deck_length s ph ch cm).
Qed.

Lemma cards_in_play_are_distinct_witness :
  reachable checkedDown /\ stage checkedDown <> ready /\
  exists ph ch cm : list Card,
    player checkedDown = Some <$> ph /\ cpu checkedDown = Some <$> ch /\
    community checkedDown = Some <$> cm /\
    NoDup (deck checkedDown ++ ph ++ ch ++ cm) /\
    (length (deck checkedDown) + length cm <= 48)%nat.
Proof.
  assert (reachable checkedDown) as Hr by (unfold checkedDown; offered_path).
  assert (stage checkedDown <> ready) as Hne
    by (intros H; vm_compute in H; discriminate H).
  split; [exact Hr|]. split; [exact Hne|].
  destruct (cards_in_play_are_distinct checkedDown Hr Hne)
    as (ph & ch & cm & Hp & Hc & Hm & _ & _ & _ & Hnd & Hlen).
  exists ph, ch, cm. auto.
Defined.

(** X18: at every reachable showdown each hand is two hole cards with the
    same five community cards, nine different cards in all; the rank printed
    beside each name is the rank of that seven-card hand, and the message is
    the outcome of comparing the two strengths. *)
Theorem showdown_on_seven_cards (s : State) :
  reachable s -> stage s = showdown ->
  exists ph ch cm : list Card,
    player s = Some <$> ph /\ cpu s = Some <$> ch /\ community s = Some <$> cm /\
    length (ph ++ cm) = 7%nat /\ length (ch ++ cm) = 7%nat /\
    NoDup (ph ++ ch ++ cm) /\
    playerRankLabel s = Some (Some (rankName (evaluateHandRank (ph ++ cm)))) /\
    cpuRankLabel s = Some (Some (rankName (evaluateHandRank (ch ++ cm)))) /\
    message s = showdownMessage (evaluateHandRank (ph ++ cm)) (evaluateHandRank (ch ++ cm)).
Proof.
  intros Hr Hst.
  destruct (reachable_cardsInv s Hr ltac:(congruence)) as [Hd Hshow].
  destruct (Hshow Hst) as (Hlen & pe & ce & Hpe & Hce & Hmsg).
  destruct Hd as (ph & ch & cm & Hp & Hc & Hm & Hlp & Hlc & Hlm & Hperm).
  exists ph, ch, cm. repeat (split; [done|]).
  rewrite Hm, length_fmap in Hlen.
  rewrite Hp, Hc, Hm, !evaluateSlots_fmap in *.
  injection Hpe as <-. injection Hce as <-.
  split; [rewrite length_app; lia|]. split; [rewrite length_app; lia|]. split.
  - pose proof orderedDeck_NoDup as Hnd. rewrite <- Hperm in Hnd.
    by apply NoDup_app in Hnd as (_ & _ & Hnd).
  - unfold playerRankLabel, cpuRankLabel, showPlayerRank.
    rewrite Hst, Hp, Hc, Hm, !evaluateSlots_fmap. done.
Qed.

Lemma showdown_on_seven_cards_witness :
  reachable checkedDown /\ stage checkedDown = showdown /\
  playerRankLabel checkedDown = Some (Some "Flush"%string) /\
  cpuRankLabel checkedDown = Some (Some "Straight Flush"%string) /\
  message checkedDown = MsgCpuWins "Straight Flush".
Proof.
  assert (reachable checkedDown) as Hr by (unfold checkedDown; offered_path).
  assert (stage checkedDown = showdown) as Hst by (vm_compute; reflexivity).
  split; [exact Hr|]. split; [exact Hst|].
  destruct (showdown_on_seven_cards checkedDown Hr Hst)
    as (ph & ch & cm & Hp & Hc & Hm & _ & _ & _ & Hlp & Hlc & Hmsg).
  assert (ph = [mkCard RA Club; mkCard RK Club]) as ->.
  { apply (inj (fmap Some)). rewrite <- Hp. vm_compute. reflexivity. }
  assert (ch = [mkCard RQ Club; mkCard RJ Club]) as ->.
  { apply (inj (fmap Some)). rewrite <- Hc. vm_compute. reflexivity. }
  assert (cm = [mkCard R10 Club; mkCard R9 Club; mkCard R8 Club; mkCard R7 Club;
                mkCard R6 Club]) as ->.
  { apply (inj (fmap Some)). rewrite <- Hm. vm_compute. reflexivity. }
  rewrite Hlp, Hlc, Hmsg. split; [|split]; vm_compute; reflexivity.
Defined.

(** X22: in every reachable state the two rank labels of the render are
    computed without the evaluator throwing. *)
Theorem rank_labels_never_throw (s : State) :
  reachable s -> is_Some (playerRankLabel s) /\ is_Some (cpuRankLabel s).
Proof.
  intros Hr. unfold playerRankLabel, cpuRankLabel, showPlayerRank.
  destruct (decide (stage s = ready)) as [Hready|Hne].
  { rewrite Hready. simpl. eauto. }
  destruct (reachable_cardsInv s Hr Hne) as [Hd _].
  destruct (dealt_evaluates s Hd) as (ph & ch & cm & _ & _ & _ & -> & ->).
  split.
  - destruct (_ || _); simpl; eauto.
  - destruct (bool_decide _); simpl; eauto.
Qed.

Lemma rank_labels_never_throw_witness :
  reachable firstDeal /\
  playerRankLabel firstDeal = Some (Some "High Card"%string) /\
  is_Some (cpuRankLabel firstDeal).
Proof.
  assert (reachable firstDeal) as Hr by (unfold firstDeal; offered_path).
  split; [exact Hr|]. split; [vm_compute; reflexivity|].
  exact (proj2 (rank_labels_never_throw firstDeal Hr)).
Defined.

(** ** The board *)

Lemma nextStage_reveals s mid :
  dealt s -> community mid = community s ->
  (length (community s) < 5)%nat ->
  exists revealed : list Card,
    community (run (nextStage s) mid) = community s ++ (Some <$> revealed) /\
    deck s = deck (run (nextStage s) mid) ++ reverse revealed /\
    length revealed = (if (length (community s) =? 0)%nat then 3 else 1)%nat.
Proof.
  intros Hd Hmid Hlt.
  pose proof (dealt_board_length s Hd) as Hboard.
  destruct Hd as (ph & ch & cm & Hp & Hc & Hm & Hlp & Hlc & Hlm & Hperm).
  pose proof (dealt_deck_length s ph ch cm Hlp Hlc Hperm) as Hlen.
  assert (length (community s) = length cm) as Hlcm by (by rewrite Hm, length_fmap).
  destruct (decide (length (community s) = 0%nat)) as [H0|Hn0].
  - assert (community s = []) as Hnil by (by apply nil_length_inv).
    destruct (snoc3_of_length (deck s) 45) as (rest & f3 & f2 & f1 & Hdk); [lia|].
    rewrite (nextStage_flop s rest f1 f2 f3 Hnil Hdk). exists [f1; f2; f3].
    rewrite H0, Hnil. simpl. by rewrite Hdk.
  - assert (length (community s) = 3 \/ length (community s) = 4)%nat as H34 by lia.
    destruct (snoc_of_length (deck s) (length (deck s) - 1)) as (rest & t & Hdk & _);
      [lia|].
    rewrite (nextStage_turn s rest t H34 Hdk). exists [t].
    simpl. rewrite Hmid. split; [done|]. split; [done|].
    by destruct (Nat.eqb_spec (length (community s)) 0).
Qed.

(** X13: in a reachable playing state before the river, a check keeps both
    hands and the playing stage and reveals cards of the deck, three when the
    board is empty and one otherwise.  The deck only loses cards from its
    end, the revealed ones among them.  The three cards of the flop are
    exactly what the deck loses, in the order in which the handler pops
    them. *)
Theorem check_reveals_board (s : State) (random : nat -> Q) :
  reachable s -> stage s = playing -> (length (community s) < 5)%nat ->
  exists revealed : list Card,
    community (step s (PressCheck random)) = community s ++ (Some <$> revealed) /\
    length revealed = (if (length (community s) =? 0)%nat then 3 else 1)%nat /\
    deck (step s (PressCheck random)) `prefix_of` deck s /\
    (forall c, c ∈ revealed -> c ∈ deck s /\ c ∉ deck (step s (PressCheck random))) /\
    (length (community s) = 0%nat ->
       deck s = deck (step s (PressCheck random)) ++ reverse revealed) /\
    player (step s (PressCheck random)) = player s /\
    cpu (step s (PressCheck random)) = cpu s /\
    stage (step s (PressCheck random)) = playing.
Proof.
  intros Hr Hst Hlt.
  pose proof (reachable_roundInv s Hr) as Hd. unfold roundInv in Hd. rewrite Hst in Hd.
  destruct (dealt_evaluates s Hd) as (ph & ch & cm & _ & _ & _ & _ & Hce).
  assert (NoDup (deck s)) as Hnd.
  { destruct Hd as (ph' & ch' & cm' & _ & _ & _ & _ & _ & _ & Hperm).
    pose proof orderedDeck_NoDup as Hall. rewrite <- Hperm in Hall.
    by apply NoDup_app in Hall as [? _]. }
  unfold step, handler.
  rewrite (handleCheck_queue s random _ Hst Hce), run_cons, run_app.
  match goal with
  | |- context [run (nextStage s) ?m] => set (mid := m)
  end.
  assert (community mid = community s /\ player mid = player s /\
          cpu mid = cpu s /\ stage mid = playing) as (Hm & Hp & Hc & Hs).
  { subst mid. destruct (Qltb _ _); [|destruct (_ && _)]; by repeat split. }
  destruct (nextStage_reveals s mid Hd Hm Hlt) as (revealed & H1 & H2 & H3).
  exists revealed. split; [done|]. split; [done|].
  split; [by exists (reverse revealed)|].
  split.
  { intros c Hin. rewrite H2 in Hnd. apply NoDup_app in Hnd as (_ & Hnot & _).
    split.
    - rewrite H2. apply elem_of_app. right. by apply elem_of_reverse.
    - intros Hold. apply (Hnot c Hold). by apply elem_of_reverse. }
  split; [done|].
  destruct (nextStage_hands s mid) as [-> ->].
  destruct (nextStage_early_chips s mid Hlt) as (_ & _ & _ & ->). done.
Qed.

Lemma check_reveals_board_witness :
  reachable firstDeal /\ stage firstDeal = playing /\
  (length (community firstDeal) < 5)%nat /\
  exists revealed : list Card,
    community (step firstDeal (PressCheck neverBluff))
      = community firstDeal ++ (Some <$> revealed) /\
    length revealed = 3%nat /\
    deck (step firstDeal (PressCheck neverBluff)) `prefix_of` deck firstDeal.
Proof.
  assert (reachable firstDeal) as Hr by (unfold firstDeal; offered_path).
  assert (stage firstDeal = playing) as Hst by (vm_compute; reflexivity).
  assert (length (community firstDeal) < 5)%nat as Hlt by (vm_compute; lia).
  split; [exact Hr|]. split; [exact Hst|]. split; [exact Hlt|].
  destruct (check_reveals_board firstDeal neverBluff Hr Hst Hlt)
    as (revealed & H1 & H2 & H3 & _).
  exists revealed. split; [exact H1|]. split; [exact H2 | exact H3].
Defined.

(** ** The showdown *)

(** X15: on the river, on defined cards, a check that the opponent answers by
    checking ends the round at the showdown: the hand with the greater
    strength wins the whole pot, and when neither strength is greater each
    stack receives half of the pot. *)
Theorem river_check_awards_pot s random pe ce :
  stage s = playing -> (5 <= length (community s))%nat ->
  evaluateSlots (player s ++ community s) = Some pe ->
  evaluateSlots (cpu s ++ community s) = Some ce ->
  checksBack ce random ->
  let s' := step s (PressCheck random) in
  stage s' = showdown /\
  (numLt (strength ce) (strength pe) ->
     playerChips s' = playerChips s + pot s /\ cpuChips s' = cpuChips s /\
     message s' = MsgYouWin (rankName pe)) /\
  (~ numLt (strength ce) (strength pe) -> numLt (strength pe) (strength ce) ->
     playerChips s' = playerChips s /\ cpuChips s' = cpuChips s + pot s /\
     message s' = MsgCpuWins (rankName ce)) /\
  (~ numLt (strength ce) (strength pe) -> ~ numLt (strength pe) (strength ce) ->
     playerChips s' = playerChips s + pot s / 2 /\
     cpuChips s' = cpuChips s + pot s / 2 /\
     message s' = MsgDraw (rankName pe)).
Proof.
  intros Hst Hriver Hpe Hce Hback s'. subst s'. unfold step, handler.
  rewrite (handleCheck_queue s random ce Hst Hce), run_cons, run_app.
  destruct (checksBack_true ce random Hback) as [-> ->].
  rewrite nextStage_river by done.
  set (mid := run [SetMessage MsgCpuChecks] (applyUpdate s (SetMessage MsgYouCheck))).
  destruct (evaluateWinner_settles s mid pe ce Hpe Hce) as (Hs & _).
  split; [done|]. apply (evaluateWinner_award s mid pe ce Hpe Hce).
Qed.

Lemma river_check_awards_pot_witness :
  stage river = playing /\ (5 <= length (community river))%nat /\
  evaluateSlots (player river ++ community river) = Some aceFlush /\
  evaluateSlots (cpu river ++ community river) = Some queenStraightFlush /\
  checksBack queenStraightFlush neverBluff /\
  numLt (strength aceFlush) (strength queenStraightFlush) /\
  stage (step river (PressCheck neverBluff)) = showdown /\
  cpuChips (step river (PressCheck neverBluff)) = cpuChips river + pot river /\
  playerChips (step river (PressCheck neverBluff)) = playerChips river.
Proof.
  assert (stage river = playing) as Hst by (vm_compute; reflexivity).
  assert (5 <= length (community river))%nat as Hriver by (vm_compute; lia).
  assert (evaluateSlots (player river ++ community river) = Some aceFlush)
    as Hpe by (vm_compute; reflexivity).
  assert (evaluateSlots (cpu river ++ community river) = Some queenStraightFlush)
    as Hce by (vm_compute; reflexivity).
  assert (checksBack queenStraightFlush neverBluff) as Hback.
  { split; [intros H | intros [_ H]]; vm_compute in H; discriminate H. }
  assert (numLt (strength aceFlush) (strength queenStraightFlush)) as Hlt
    by (vm_compute; reflexivity).
  assert (~ numLt (strength queenStraightFlush) (strength aceFlush)) as Hnlt
    by (intros H; vm_compute in H; discriminate H).
  repeat (split; [assumption|]).
  destruct (river_check_awards_pot river neverBluff aceFlush queenStraightFlush
              Hst Hriver Hpe Hce Hback) as (Hs & _ & Hcpu & _).
  destruct (Hcpu Hnlt Hlt) as (Hp & Hc & _).
  split; [exact Hs|]. split; [exact Hc | exact Hp].
Defined.

Lemma callsRaise_true s ce random :
  callsRaise s ce random ->
  numLtb (Finite 5) (strength ce) || Qltb (random 0%nat) (25 # 100) = true /\
  Qle_bool (bet s) (cpuChips s) = true.
Proof.
  intros [Hwant Hpay]. split; [|by apply Qle_bool_iff].
  apply orb_true_iff. destruct Hwant as [H|H]; [left; by apply numLtb_lt|right; by apply Qltb_lt].
Qed.

(** X21: on the river, on defined cards, the chips put in during the last
    turn are not paid out: when the opponent answers a check by a bluff or a
    raise, or calls a raise, the showdown pays the pot as it stood before
    that turn, and the bet unit (after a check) or twice the bet unit (after
    a raise) stays in the pot cell.  On whole chips, where the source rounds
    no sum, the two stacks together hold the chips of before the turn less
    the bets of the turn. *)
Theorem river_bets_stay_in_pot s random pe ce :
  stage s = playing -> (5 <= length (community s))%nat ->
  evaluateSlots (player s ++ community s) = Some pe ->
  evaluateSlots (cpu s ++ community s) = Some ce ->
  (~ checksBack ce random ->
     let c := step s (PressCheck random) in
     stage c = showdown /\ pot c = pot s + bet s /\
     (exactChips s ->
        playerChips c + cpuChips c == playerChips s + cpuChips s + pot s - bet s)) /\
  (bet s <= playerChips s -> callsRaise s ce random ->
     let r := step s (PressRaise random) in
     stage r = showdown /\ pot r = pot s + bet s + bet s /\
     (exactChips s ->
        playerChips r + cpuChips r == playerChips s + cpuChips s + pot s - 2 * bet s)).
Proof.
  intros Hst Hriver Hpe Hce. split.
  - intros Hno c. subst c. unfold step, handler.
    rewrite (handleCheck_queue s random ce Hst Hce), run_cons, run_app.
    rewrite nextStage_river by done.
    pose proof (checksBack_false ce random Hno) as Hraise.
    destruct (Qltb (random 0%nat) (1 # 10));
      [|destruct (numLtb (Finite 5) (strength ce) && Qltb (random 1%nat) (1 # 2));
        [|discriminate Hraise]].
    + match goal with
      | |- context [run (evaluateWinner s) ?m] =>
          destruct (evaluateWinner_settles s m pe ce Hpe Hce) as (-> & -> & ->)
      end. simpl. split; [done|]. split; [done|]. intros _. ring.
    + match goal with
      | |- context [run (evaluateWinner s) ?m] =>
          destruct (evaluateWinner_settles s m pe ce Hpe Hce) as (-> & -> & ->)
      end. simpl. split; [done|]. split; [done|]. intros _. ring.
  - intros Hbet Hcall r. subst r. unfold step, handler.
    apply Qle_bool_iff in Hbet.
    rewrite (handleRaise_queue s random ce Hst Hbet Hce).
    destruct (callsRaise_true s ce random Hcall) as [-> ->].
    rewrite !run_app, nextStage_river by done.
    match goal with
    | |- context [run (evaluateWinner s) ?m] =>
        destruct (evaluateWinner_settles s m pe ce Hpe Hce) as (-> & -> & ->)
    end. simpl. split; [done|]. split; [done|]. intros _. ring.
Qed.

Lemma river_bets_stay_in_pot_witness :
  stage river = playing /\ (5 <= length (community river))%nat /\
  evaluateSlots (player river ++ community river) = Some aceFlush /\
  evaluateSlots (cpu river ++ community river) = Some queenStraightFlush /\
  ~ checksBack queenStraightFlush alwaysBluff /\
  exactChips river /\
  stage (step river (PressCheck alwaysBluff)) = showdown /\
  pot (step river (PressCheck alwaysBluff)) = pot river + bet river /\
  playerChips (step river (PressCheck alwaysBluff))
    + cpuChips (step river (PressCheck alwaysBluff))
  == playerChips river + cpuChips river + pot river - bet river.
Proof.
  assert (exactChips river) as Hex by exact_chips 1900%Z 1900%Z 100%Z 50%Z.
  assert (stage river = playing) as Hst by (vm_compute; reflexivity).
  assert (5 <= length (community river))%nat as Hriver by (vm_compute; lia).
  assert (evaluateSlots (player river ++ community river) = Some aceFlush)
    as Hpe by (vm_compute; reflexivity).
  assert (evaluateSlots (cpu river ++ community river) = Some queenStraightFlush)
    as Hce by (vm_compute; reflexivity).
  assert (~ checksBack queenStraightFlush alwaysBluff) as Hno.
  { intros [H _]. apply H. reflexivity. }
  split; [exact Hst|]. split; [exact Hriver|].
  split; [exact Hpe|]. split; [exact Hce|]. split; [exact Hno|]. split; [exact Hex|].
  destruct (river_bets_stay_in_pot river alwaysBluff aceFlush queenStraightFlush
              Hst Hriver Hpe Hce) as [Hcheck _].
  destruct (Hcheck Hno) as (Hs & Hp & Hsum).
  split; [exact Hs|]. split; [exact Hp | exact (Hsum Hex)].
Defined.

(** ** The player's stack *)

Lemma nextStage_solvent s s0 :
  0 <= pot s -> 0 <= playerChips s0 ->
  0 <= playerChips (run (nextStage s) s0) /\
  pot (run (nextStage s) s0) = pot s0.
Proof.
  intros Hpot Hpc.
  destruct (Nat.lt_ge_cases (length (community s)) 5) as [Hlt|Hge].
  - by destruct (nextStage_early_chips s s0 Hlt) as (-> & _ & -> & _).
  - rewrite nextStage_river by done. unfold evaluateWinner.
    destruct (evaluateSlots (player s ++ community s)) as [pe|]; [|done].
    destruct (evaluateSlots (cpu s ++ community s)) as [ce|]; [|done].
    destruct (numLtb _ _); [|destruct (numLtb _ _)]; simpl; split; try done; try lra.
    assert (0 <= pot s / 2) by (apply Qle_shift_div_l; lra). lra.
Qed.

Lemma cpuDecision_solvent s s0 raised random :
  0 <= pot s -> 0 <= bet s -> 0 <= playerChips s0 -> 0 <= pot s0 ->
  0 <= playerChips (run (cpuDecision s raised (bet s) random) s0) /\
  0 <= pot (run (cpuDecision s raised (bet s) random) s0) /\
  bet (run (cpuDecision s raised (bet s) random) s0) = bet s0.
Proof.
  intros Hpot Hbet Hpc Hpot0. unfold cpuDecision.
  destruct (evaluateSlots (cpu s ++ community s)) as [ce|]; [|done].
  repeat match goal with
         | |- context [if ?b then _ else _] => destruct b
         end;
    rewrite ?run_app;
    try match goal with
        | |- context [run (nextStage s) ?m] =>
            destruct (nextStage_solvent s m Hpot) as [Hp ->]; [simpl; lra|];
            rewrite nextStage_bet; simpl; split; [exact Hp|]; split; [lra | done]
        end;
    simpl; split; try lra; split; try lra; done.
Qed.

Lemma solvent_step s a :
  solvent s -> offered s a -> nonnegBet a -> solvent (step s a).
Proof.
  intros (Hpc & Hpot & Hbet) Hoff Hnn. unfold solvent, step, handler.
  destruct a as [|random|random| |draw|v]; simpl in Hoff, Hnn.
  - unfold deal, pop. cbv beta iota.
    destruct (Qle_bool (playerChips s) 0) eqn:E1; [simpl; done|].
    destruct (Qle_bool (cpuChips s) 0) eqn:E2; [simpl; done|]. simpl.
    assert (0 < playerChips s) as Hpos1
      by (apply Qnot_le_lt; intros Hle%Qle_bool_iff; congruence).
    assert (0 < cpuChips s) as Hpos2
      by (apply Qnot_le_lt; intros Hle%Qle_bool_iff; congruence).
    set (ante := Qmin (Qmin (bet s) (playerChips s)) (cpuChips s)).
    assert (ante <= playerChips s) as Hle1.
    { subst ante.
      apply (Qle_trans _ (Qmin (bet s) (playerChips s))); [apply Q.le_min_l | apply Q.le_min_r]. }
    assert (0 <= ante) as Hle2.
    { subst ante. apply Q.min_glb; [apply Q.min_glb|]; lra. }
    split; [lra|]. split; [lra | done].
  - unfold handleCheck. destruct (decide (stage s = playing)); [|done].
    rewrite run_cons.
    destruct (cpuDecision_solvent s (applyUpdate s (SetMessage MsgYouCheck)) false random
                Hpot Hbet Hpc Hpot) as (H1 & H2 & ->).
    done.
  - unfold handleRaise.
    destruct (bool_decide (stage s = playing)); [|done]. cbn [andb].
    destruct (Qle_bool (bet s) (playerChips s)) eqn:E; [|done].
    apply Qle_bool_iff in E. rewrite run_app.
    match goal with
    | |- context [run (cpuDecision s true (bet s) random) ?m] =>
        destruct (cpuDecision_solvent s m true random Hpot Hbet) as (H1 & H2 & ->);
          [simpl; lra | simpl; lra | done]
    end.
  - done.
  - simpl. split; [done|]. split; [lra | done].
  - done.
Qed.



(** ** The chips in play *)

Lemma nextStage_bounded s s0 :
  playerChips s0 + cpuChips s0 + pot s <= 2000 ->
  playerChips s0 + cpuChips s0 <= 2000 ->
  total s0 <= 2000 ->
  playerChips (run (nextStage s) s0) + cpuChips (run (nextStage s) s0) <= 2000 /\
  (stage (run (nextStage s) s0) = playing -> total (run (nextStage s) s0) <= 2000).
Proof.
  intros Hstale Hsum Htot. unfold total in *.
  destruct (Nat.lt_ge_cases (length (community s)) 5) as [Hlt|Hge].
  - by destruct (nextStage_early_chips s s0 Hlt) as (-> & -> & -> & _).
  - rewrite nextStage_river by done. unfold evaluateWinner.
    destruct (evaluateSlots (player s ++ community s)) as [pe|]; [|done].
    destruct (evaluateSlots (cpu s ++ community s)) as [ce|]; [|done].
    assert (pot s / 2 + pot s / 2 == pot s) as Hhalf by field.
    destruct (numLtb _ _); [|destruct (numLtb _ _)]; simpl;
      (split; [lra | discriminate]).
Qed.

Lemma cpuDecision_bounded s s0 (raised : bool) random :
  0 <= bet s ->
  playerChips s0 + cpuChips s0 + pot s + (if raised then bet s else 0) <= 2000 ->
  playerChips s0 + cpuChips s0 <= 2000 ->
  total s0 <= 2000 ->
  let s' := run (cpuDecision s raised (bet s) random) s0 in
  playerChips s' + cpuChips s' <= 2000 /\
  (stage s' = playing -> total s' <= 2000) /\
  bet s' = bet s0.
Proof.
  intros Hbet Hstale Hsum Htot. cbv zeta. unfold cpuDecision.
  destruct (evaluateSlots (cpu s ++ community s)) as [ce|]; [|done].
  unfold total in *.
  destruct raised;
    repeat match goal with
           | |- context [if ?b then _ else _] => destruct b
           end;
    rewrite ?run_app;
    try match goal with
        | |- context [run (nextStage s) ?m] =>
            destruct (nextStage_bounded s m) as [Hp Hq];
              [simpl; lra | simpl; lra | unfold total; simpl; lra |];
              rewrite nextStage_bet; split; [exact Hp|]; split; [exact Hq | done]
        end;
    simpl; (split; [lra|]); (split; [discriminate | done]).
Qed.

Lemma bounded_step s a :
  bounded s -> offered s a -> nonnegBet a -> bounded (step s a).
Proof.
  intros (Hbet & Hsum & Htot) Hoff Hnn. unfold bounded, step, handler.
  destruct a as [|random|random| |draw|v]; simpl in Hoff, Hnn.
  - unfold deal, pop. cbv beta iota.
    destruct (Qle_bool (playerChips s) 0) eqn:E1;
      [simpl; split; [done|]; split; [done|]; rewrite Hoff; discriminate|].
    destruct (Qle_bool (cpuChips s) 0) eqn:E2;
      [simpl; split; [done|]; split; [done|]; rewrite Hoff; discriminate|].
    unfold total. simpl.
    assert (0 < playerChips s) as Hpos1
      by (apply Qnot_le_lt; intros Hle%Qle_bool_iff; congruence).
    assert (0 < cpuChips s) as Hpos2
      by (apply Qnot_le_lt; intros Hle%Qle_bool_iff; congruence).
    set (ante := Qmin (Qmin (bet s) (playerChips s)) (cpuChips s)).
    assert (0 <= ante) as Hle2.
    { subst ante. apply Q.min_glb; [apply Q.min_glb|]; lra. }
    split; [done|]. split; [lra|]. intros _. lra.
  - destruct Hoff as [Hst _]. specialize (Htot Hst).
    unfold handleCheck. destruct (decide (stage s = playing)); [|done].
    rewrite run_cons.
    destruct (cpuDecision_bounded s (applyUpdate s (SetMessage MsgYouCheck)) false random)
      as (H1 & H2 & ->); [done|unfold total in Htot; simpl; lra|done|done|].
    done.
  - destruct Hoff as [Hst _]. specialize (Htot Hst).
    unfold handleRaise.
    destruct (bool_decide (stage s = playing)); [|done]. cbn [andb].
    destruct (Qle_bool (bet s) (playerChips s)) eqn:E; [|done].
    rewrite run_app. unfold total in Htot.
    match goal with
    | |- context [run (cpuDecision s true (bet s) random) ?m] =>
        destruct (cpuDecision_bounded s m true random) as (H1 & H2 & ->);
          [done | simpl; lra | simpl; lra | unfold total; simpl; lra | done]
    end.
  - specialize (Htot Hoff). unfold total in Htot. unfold handleFold. simpl.
    split; [done|]. split; [lra | discriminate].
  - simpl. split; [done|]. split; [done | discriminate].
  - unfold changeBet. simpl. split; [done|]. split; [done|].
    intros Hst. exact (Htot Hst).
Qed.

(** ** Whole chips *)

Lemma wholeAmount_halfAmount q : wholeAmount q -> halfAmount q.
Proof.
  intros [n Hn]. exists (2 * n)%Z. rewrite Hn, inject_Z_mult. field.
Qed.

Lemma halfAmount_add a b : halfAmount a -> halfAmount b -> halfAmount (a + b).
Proof.
  intros [n Hn] [m Hm]. exists (n + m)%Z. rewrite Hn, Hm, inject_Z_plus. field.
Qed.

Lemma halfAmount_sub a b : halfAmount a -> halfAmount b -> halfAmount (a - b).
Proof.
  intros [n Hn] [m Hm]. exists (n - m)%Z.
  unfold Z.sub. rewrite Hn, Hm, inject_Z_plus, inject_Z_opp. field.
Qed.

Lemma wholeAmount_add a b : wholeAmount a -> wholeAmount b -> wholeAmount (a + b).
Proof.
  intros [n Hn] [m Hm]. exists (n + m)%Z. rewrite Hn, Hm, inject_Z_plus. reflexivity.
Qed.

Lemma halfAmount_half a : wholeAmount a -> halfAmount (a / 2).
Proof. intros [n Hn]. exists n. by rewrite Hn. Qed.

Lemma wholeAmount_double a : halfAmount a -> wholeAmount (a * 2).
Proof. intros [n Hn]. exists n. rewrite Hn. field. Qed.

Lemma halfAmount_min a b : halfAmount a -> halfAmount b -> halfAmount (Qmin a b).
Proof.
  intros [n Hn] [m Hm].
  destruct (Q.min_spec a b) as [[_ Hmin]|[_ Hmin]]; [exists n | exists m];
    by rewrite Hmin.
Qed.

Lemma wholeAmount_zero : wholeAmount 0.
Proof. by exists 0%Z. Qed.

Create HintDb chips.
#[local] Hint Resolve wholeAmount_halfAmount halfAmount_add halfAmount_sub
  wholeAmount_add halfAmount_half wholeAmount_double halfAmount_min wholeAmount_zero
  : chips.

Lemma betsSeen_bounds s : 0 <= betsSeen s <= 3.
Proof.
  unfold betsSeen. repeat destruct (_ <? _)%nat; lra.
Qed.

(** An amount of half chips between two bounds is a double far away from
    where sums are rounded. *)
Lemma halvesWithin_bounds (q : Q) :
  halfAmount q -> - (2000 + 6 * betLimit) <= q <= 2000 + 6 * betLimit ->
  halvesWithin (2 ^ 40) q.
Proof.
  intros [n Hn] [Hlo Hhi]. exists n. split; [done|].
  unfold betLimit in *.
  assert (inject_Z n == 2 * q) as Heq by (rewrite Hn; field).
  assert (inject_Z (- 51539611552) <= inject_Z n) as H1.
  { change (inject_Z (- 51539611552)) with (- 51539611552). rewrite Heq. lra. }
  assert (inject_Z n <= inject_Z 51539611552) as H2.
  { change (inject_Z 51539611552) with 51539611552. rewrite Heq. lra. }
  rewrite <- Zle_Qle in H1, H2. lia.
Qed.

Lemma wholeWithin_bounds (q : Q) :
  wholeAmount q -> - (2000 + 6 * betLimit) <= q <= 2000 + 6 * betLimit ->
  wholeWithin (2 ^ 40) q.
Proof.
  intros [n Hn] [Hlo Hhi]. exists n. split; [done|].
  unfold betLimit in *.
  assert (inject_Z (- 25769805776) <= inject_Z n) as H1.
  { change (inject_Z (- 25769805776)) with (- 25769805776). rewrite <- Hn. lra. }
  assert (inject_Z n <= inject_Z 25769805776) as H2.
  { change (inject_Z 25769805776) with 25769805776. rewrite <- Hn. lra. }
  rewrite <- Zle_Qle in H1, H2. lia.
Qed.

Lemma wholeBet_nonneg (a : Action) : wholeBet a -> nonnegBet a.
Proof.
  destruct a as [|random|random| |draw|v]; try done.
  intros (n & Hn & Hlo & _). simpl. rewrite Hn.
  change 0 with (inject_Z 0). by rewrite <- Zle_Qle.
Qed.

Lemma wholeBet_limit (v : Q) : wholeBet (TypeBet v) -> wholeAmount v /\ v <= betLimit.
Proof.
  intros (n & Hn & _ & Hhi). split; [by exists n|].
  rewrite Hn. change betLimit with (inject_Z (2 ^ 32)). by rewrite <- Zle_Qle.
Qed.

(** The goals of [tidy] on a state whose cells are known. *)
Ltac tidy_leaf :=
  first
    [ by auto with chips
    | by (intros; congruence)
    | by (intros; unfold betLimit in *; simpl in *; lra)
    | by (intros; unfold betLimit in *; simpl in *; split; lra) ].

Ltac tidy_cells := unfold tidy, betsSeen; simpl; split_and!; tidy_leaf.

(** [nextStage] after the opponent's answer: one more answer is seen on the
    board, or the round ends. *)
Lemma nextStage_tidy s mid pe ce :
  evaluateSlots (player s ++ community s) = Some pe ->
  evaluateSlots (cpu s ++ community s) = Some ce ->
  community mid = community s -> stage mid = playing ->
  halfAmount (playerChips mid) -> halfAmount (cpuChips mid) ->
  wholeAmount (pot mid) -> wholeAmount (bet mid) -> wholeAmount (pot s) ->
  bet mid <= betLimit -> 0 <= pot s ->
  - ((betsSeen s + 1) * betLimit) <= cpuChips mid ->
  pot mid <= 2000 + 6 * betLimit ->
  tidy (run (nextStage s) mid).
Proof.
  intros Hpe Hce Hcm Hst Hpc Hcc Hpot Hbet Hpots Hlim Hpos Hlow Hhigh.
  unfold nextStage, pop. cbv beta iota zeta. unfold betsSeen in Hlow.
  destruct (length (community s) <? 3)%nat eqn:E3.
  - tidy_cells.
  - destruct (length (community s) <? 5)%nat eqn:E5.
    + apply Nat.ltb_ge in E3. apply Nat.ltb_lt in E5.
      assert (length (community s) = 3 \/ length (community s) = 4)%nat as [H|H] by lia;
        rewrite H in Hlow; unfold tidy, betsSeen; simpl;
        rewrite Hcm, length_app, H; simpl; split_and!; tidy_leaf.
    + apply Nat.ltb_ge in E5.
      assert ((length (community s) <? 4)%nat = false) as E4 by (apply Nat.ltb_ge; lia).
      rewrite E4 in Hlow.
      unfold evaluateWinner. rewrite Hpe, Hce.
      assert (0 <= pot s / 2) as Hhalf by (apply Qle_shift_div_l; lra).
      destruct (numLtb _ _); [|destruct (numLtb _ _)]; tidy_cells.
Qed.

Lemma cpuDecision_tidy s mid (raised : bool) random pe ce :
  evaluateSlots (player s ++ community s) = Some pe ->
  evaluateSlots (cpu s ++ community s) = Some ce ->
  community mid = community s -> stage mid = playing ->
  halfAmount (playerChips mid) -> halfAmount (cpuChips mid) ->
  wholeAmount (pot mid) -> wholeAmount (bet mid) ->
  wholeAmount (pot s) -> wholeAmount (bet s) ->
  bet mid <= betLimit -> 0 <= bet s <= betLimit -> 0 <= pot s ->
  - (betsSeen s * betLimit) <= cpuChips mid ->
  pot mid <= 2000 + 5 * betLimit ->
  tidy (run (cpuDecision s raised (bet s) random) mid).
Proof.
  intros Hpe Hce Hcm Hst Hpc Hcc Hpot Hbet Hpots Hbets Hlim [Hb0 Hb1] Hpos Hlow Hhigh.
  pose proof (betsSeen_bounds s) as [Hk0 Hk3].
  unfold cpuDecision. rewrite Hce.
  destruct raised;
    repeat match goal with
           | |- context [if ?b then _ else _] => destruct b
           end;
    rewrite ?run_app;
    first [ apply (nextStage_tidy s _ pe ce); simpl; tidy_leaf
          | unfold tidy; simpl; split_and!; tidy_leaf ].
Qed.

Lemma ledger_step s a :
  roundInv s -> ledger s -> offered s a -> wholeBet a -> ledger (step s a).
Proof.
  intros Hinv (Hsolvent & Hbounded & Htidy) Hoff Hwhole.
  pose proof (wholeBet_nonneg a Hwhole) as Hnn.
  split; [by apply solvent_step|]. split; [by apply bounded_step|].
  destruct Hsolvent as (Hpc0 & Hpot0 & Hbet0).
  destruct Hbounded as (_ & Hsum & Htot).
  destruct Htidy as (Hpc & Hcc & Hpot & Hbet & Hlim & Hplay & Hrest).
  pose proof (betsSeen_bounds s) as [Hk0 Hk3].
  unfold step, handler.
  destruct a as [|random|random| |draw|v]; simpl in Hoff.
  - assert (stage s <> playing) as Hne by (rewrite Hoff; discriminate).
    destruct (Hrest Hne) as [Hlow Hhigh].
    unfold deal, pop. cbv beta iota zeta.
    destruct (Qle_bool (playerChips s) 0 || Qle_bool (cpuChips s) 0) eqn:E.
    + tidy_cells.
    + set (ante := Qmin (Qmin (bet s) (playerChips s)) (cpuChips s)).
      assert (ante <= cpuChips s) as Hle by apply Q.le_min_r.
      assert (halfAmount ante) as Hante by (subst ante; auto with chips).
      tidy_cells.
  - destruct Hoff as [Hst _]. specialize (Hplay Hst). specialize (Htot Hst).
    unfold roundInv in Hinv. rewrite Hst in Hinv.
    destruct (dealt_evaluates s Hinv) as (ph & ch & cm & _ & _ & _ & Hpe & Hce).
    unfold handleCheck. rewrite decide_True by done. rewrite run_cons.
    unfold total in Htot.
    apply (cpuDecision_tidy s _ false random _ _ Hpe Hce); simpl; tidy_leaf.
  - destruct Hoff as [Hst _]. specialize (Hplay Hst). specialize (Htot Hst).
    unfold roundInv in Hinv. rewrite Hst in Hinv.
    destruct (dealt_evaluates s Hinv) as (ph & ch & cm & _ & _ & _ & Hpe & Hce).
    unfold handleRaise. rewrite bool_decide_eq_true_2 by done. cbn [andb].
    unfold total in Htot.
    destruct (Qle_bool (bet s) (playerChips s)) eqn:E.
    + rewrite run_app.
      apply (cpuDecision_tidy s _ true random _ _ Hpe Hce); simpl; tidy_leaf.
    + tidy_cells.
  - specialize (Hplay Hoff). specialize (Htot Hoff). unfold total in Htot.
    unfold handleFold. tidy_cells.
  - destruct Hoff as [Hst _].
    assert (stage s <> playing) as Hne by (destruct Hst as [-> | ->]; discriminate).
    destruct (Hrest Hne) as [Hlow Hhigh].
    unfold reset. tidy_cells.
  - destruct (wholeBet_limit v Hwhole) as [Hv Hvlim].
    unfold changeBet. tidy_cells.
Qed.

Lemma ledger_initial draw : ledger (initialState draw).
Proof.
  split; [|split].
  - repeat split; simpl; lra.
  - split; [simpl; lra|]. split; [simpl; lra | discriminate].
  - unfold tidy, betLimit. simpl.
    split; [by exists 2000%Z|]. split; [by exists 2000%Z|].
    split; [by exists 0%Z|]. split; [by exists 50%Z|].
    split; [lra|]. split; [discriminate|]. intros _. split; lra.
Qed.

Lemma ledger_steps s actions :
  reachable s -> ledger s -> offeredAll s actions -> Forall wholeBet actions ->
  ledger (steps s actions).
Proof.
  intros Hr Hs Hoff Hall. revert s Hr Hs Hoff.
  induction Hall as [|a actions Ha Hall IH]; intros s Hr Hs Hoff; [done|].
  destruct Hoff as [Hoa Hrest]. simpl. apply IH; [by apply reachable_step| |done].
  apply ledger_step; [by apply reachable_roundInv | done..].
Qed.

Lemma ledger_exactChips s : ledger s -> exactChips s.
Proof.
  intros ((Hpc0 & Hpot0 & Hbet0) & (_ & Hsum & Htot) &
          (Hpc & Hcc & Hpot & Hbet & Hlim & Hplay & Hrest)).
  pose proof (betsSeen_bounds s) as [Hk0 Hk3].
  assert (- (4 * betLimit) <= cpuChips s /\ pot s <= 2000 + 6 * betLimit) as [Hlow Hhigh].
  { destruct (decide (stage s = playing)) as [Hst|Hne]; [|by apply Hrest].
    specialize (Hplay Hst). specialize (Htot Hst).
    unfold total, betLimit in *. split; lra. }
  unfold betLimit in *.
  split; [apply halvesWithin_bounds; [done | unfold betLimit; split; lra]|].
  split; [apply halvesWithin_bounds; [done | unfold betLimit; split; lra]|].
  split; apply wholeWithin_bounds; try done; unfold betLimit; split; lra.
Qed.

(** X23: along every run of the interface from the initial state in which
    the bets typed are whole numbers of chips, the two stacks never hold more
    than the 2000 chips the game starts with, and while a round is played the
    stacks and the pot together never do: no handler creates chips. *)
Theorem chips_are_never_created (draw : nat -> nat) (actions : list Action) :
  offeredAll (initialState draw) actions -> Forall wholeBet actions ->
  playerChips (steps (initialState draw) actions)
  + cpuChips (steps (initialState draw) actions) <= 2000 /\
  (stage (steps (initialState draw) actions) = playing ->
   total (steps (initialState draw) actions) <= 2000).
Proof.
  intros Hoff Hnn.
  enough (bounded (steps (initialState draw) actions)) as (_ & H1 & H2) by done.
  assert (bounded (initialState draw)) as Hs.
  { split; [simpl; lra|]. split; [simpl; lra | discriminate]. }
  revert Hs Hoff. generalize (initialState draw) as s.
  induction Hnn as [|a actions Ha Hall IH]; intros s Hs Hoff; [done|].
  destruct Hoff as [Hoa Hrest]. simpl. apply IH; [|done].
  apply bounded_step; [done | done | by apply wholeBet_nonneg].
Qed.

Lemma chips_are_never_created_witness :
  offeredAll (initialState unshuffled)
    [PressDeal; PressFold; PressReset unshuffled; PressDeal; TypeBet 200;
     PressRaise alwaysBluff] /\
  Forall wholeBet
    [PressDeal; PressFold; PressReset unshuffled; PressDeal; TypeBet 200;
     PressRaise alwaysBluff] /\
  playerChips (steps (initialState unshuffled)
                     [PressDeal; PressFold; PressReset unshuffled; PressDeal;
                      TypeBet 200; PressRaise alwaysBluff])
  + cpuChips (steps (initialState unshuffled)
                    [PressDeal; PressFold; PressReset unshuffled; PressDeal;
                     TypeBet 200; PressRaise alwaysBluff]) <= 2000.
Proof.
  assert (offeredAll (initialState unshuffled)
            [PressDeal; PressFold; PressReset unshuffled; PressDeal; TypeBet 200;
             PressRaise alwaysBluff]) as Hoff by offered_all.
  assert (Forall wholeBet
            [PressDeal; PressFold; PressReset unshuffled; PressDeal; TypeBet 200;
             PressRaise alwaysBluff]) as Hnn.
  { do 4 (constructor; [exact I|]). constructor; [|constructor; [exact I | constructor]].
    exists 200%Z. split; [reflexivity | lia]. }
  split; [exact Hoff|]. split; [exact Hnn|].
  exact (proj1 (chips_are_never_created unshuffled _ Hoff Hnn)).
Defined.

(** X26: along every run of the interface from the initial state in which
    the bets typed are whole numbers of chips up to 2^32, every amount stays
    an amount of whole chips: the stacks are whole or half chips, the pot and
    the bet unit whole chips, none of them beyond 2^40 in magnitude.  Each
    answer of the opponent costs its stack one bet unit at most, and a round
    has four answers at most. *)
Theorem whole_bets_keep_chips_exact (draw : nat -> nat) (actions : list Action) :
  validDraw draw ->
  offeredAll (initialState draw) actions -> Forall wholeBet actions ->
  exactChips (steps (initialState draw) actions) /\
  - (4 * betLimit) <= cpuChips (steps (initialState draw) actions).
Proof.
  intros Hdraw Hoff Hall.
  assert (ledger (steps (initialState draw) actions)) as Hledger.
  { apply ledger_steps; [by apply reachable_initial | apply ledger_initial | done..]. }
  split; [by apply ledger_exactChips|].
  destruct Hledger as (_ & (_ & _ & Htot) & (_ & _ & _ & _ & _ & Hplay & Hrest)).
  pose proof (betsSeen_bounds (steps (initialState draw) actions)) as [Hk0 Hk3].
  destruct (decide (stage (steps (initialState draw) actions) = playing)) as [Hst|Hne];
    [|by apply Hrest].
  specialize (Hplay Hst). unfold betLimit in *. lra.
Qed.

Lemma whole_bets_keep_chips_exact_witness :
  validDraw cutting /\
  offeredAll (initialState cutting)
    [PressDeal; TypeBet 1000; PressCheck alwaysBluff; PressCheck alwaysBluff] /\
  Forall wholeBet
    [PressDeal; TypeBet 1000; PressCheck alwaysBluff; PressCheck alwaysBluff] /\
  exactChips (steps (initialState cutting)
                    [PressDeal; TypeBet 1000; PressCheck alwaysBluff;
                     PressCheck alwaysBluff]).
Proof.
  assert (offeredAll (initialState cutting)
            [PressDeal; TypeBet 1000; PressCheck alwaysBluff; PressCheck alwaysBluff])
    as Hoff by offered_all.
  assert (Forall wholeBet
            [PressDeal; TypeBet 1000; PressCheck alwaysBluff; PressCheck alwaysBluff])
    as Hall.
  { constructor; [exact I|]. constructor; [|do 2 (constructor; [exact I|]); constructor].
    exists 1000%Z. split; [reflexivity | lia]. }
  split; [exact cutting_valid|]. split; [exact Hoff|]. split; [exact Hall|].
  exact (proj1 (whole_bets_keep_chips_exact cutting _ cutting_valid Hoff Hall)).
Defined.

(** X25: from any state, a fold followed by a reset hands the whole pot to
    the opponent and loses no chip: the player's stack and the bet unit are
    as before, the opponent's stack has grown by the pot, the pot is empty,
    and the next round starts at ready on a freshly shuffled deck with no
    cards out. *)
Theorem fold_then_reset_keeps_chips (s : State) (draw : nat -> nat) :
  playerChips (steps s [PressFold; PressReset draw]) = playerChips s /\
  cpuChips (steps s [PressFold; PressReset draw]) = cpuChips s + pot s /\
  pot (steps s [PressFold; PressReset draw]) = 0 /\
  bet (steps s [PressFold; PressReset draw]) = bet s /\
  stage (steps s [PressFold; PressReset draw]) = ready /\
  deck (steps s [PressFold; PressReset draw]) = freshDeck draw /\
  player (steps s [PressFold; PressReset draw]) = [] /\
  cpu (steps s [PressFold; PressReset draw]) = [] /\
  community (steps s [PressFold; PressReset draw]) = [].
Proof.
  unfold steps, step, handler, handleFold, reset.
  cbn [fold_left run applyUpdate playerChips cpuChips pot bet stage deck player cpu
       community].
  split; [reflexivity|]. split; [reflexivity|]. split; [reflexivity|].
  split; [reflexivity|]. split; [reflexivity|]. split; [reflexivity|].
  split; [reflexivity|]. split; reflexivity.
Qed.

(** ** The pot *)

Lemma pot_is_chips_committed_witness :
  exactChips (initialState unshuffled) /\
  Forall wholeBet [PressCheck alwaysBluff; TypeBet 20; PressRaise alwaysBluff] /\
  pot (initialState unshuffled) == 0 /\
  Forall playingStep [PressCheck alwaysBluff; TypeBet 20; PressRaise alwaysBluff] /\
  stage (steps (initialState unshuffled)
               [PressDeal; PressCheck alwaysBluff; TypeBet 20; PressRaise alwaysBluff])
  = playing /\
  pot (steps (initialState unshuffled)
             [PressDeal; PressCheck alwaysBluff; TypeBet 20; PressRaise alwaysBluff])
  == (playerChips (initialState unshuffled)
      - playerChips (steps (initialState unshuffled)
                           [PressDeal; PressCheck alwaysBluff; TypeBet 20;
                            PressRaise alwaysBluff]))
     + (cpuChips (initialState unshuffled)
        - cpuChips (steps (initialState unshuffled)
                          [PressDeal; PressCheck alwaysBluff; TypeBet 20;
                           PressRaise alwaysBluff])).
Proof.
  assert (exactChips (initialState unshuffled)) as Hex
    by exact_chips 2000%Z 2000%Z 0%Z 50%Z.
  assert (Forall wholeBet [PressCheck alwaysBluff; TypeBet 20; PressRaise alwaysBluff])
    as Hwb.
  { constructor; [exact I|]. constructor; [|constructor; [exact I | constructor]].
    exists 20%Z. split; [reflexivity | lia]. }
  assert (pot (initialState unshuffled) == 0) as Hpot by reflexivity.
  assert (Forall playingStep [PressCheck alwaysBluff; TypeBet 20; PressRaise alwaysBluff])
    as Hall by (repeat constructor).
  assert (stage (steps (initialState unshuffled)
                       [PressDeal; PressCheck alwaysBluff; TypeBet 20;
                        PressRaise alwaysBluff])
          = playing) as Hst by (vm_compute; reflexivity).
  split; [exact Hex|]. split; [exact Hwb|].
  split; [exact Hpot|]. split; [exact Hall|]. split; [exact Hst|].
  exact (pot_is_chips_committed (initialState unshuffled)
           [PressCheck alwaysBluff; TypeBet 20; PressRaise alwaysBluff]
           Hex Hwb Hpot Hall Hst).
Defined.
